(** * Memorice: an A* planning agent for the memory game

    A shallow embedding of [memorice.py]: the game container
    [MemoriceGame] and the board it deals, the canonical search-state key
    [state_to_key], the heuristic, the successor generator, the A* planner
    [astar_plan], the fallback [greedy_policy] and the loop of [main],
    followed by the properties of the planner that the specification
    states and by further properties of the program.

    Conventions.
    - A position is a pair of indices (row, column); a card value and every
      cost is a Python integer, modelled in [Z].
    - Python tuples are compared lexicographically; [lexico] of stdpp is that
      order on pairs, lists and numbers.  [sorted] is the sorted
      rearrangement of a list for that order.
    - A [set] whose iteration order the program never observes is a [gset];
      a [dict] used only through lookup and assignment is a [gmap]; a [dict]
      the program iterates over is an association list in insertion order.
    - Exceptions are values of [result]; [random.choice] draws from an
      explicit source of naturals, and [random.shuffle] is a function the
      new game takes. *)

From Stdlib Require Import ZArith Lia.
From stdpp Require Import base option list sorting lexico orders gmap.

Local Open Scope Z_scope.

(** ** Results and exceptions *)

Inductive exn : Type :=
  | IndexError   (* a list index out of range, or a choice in an empty list *)
  | KeyError.    (* a dictionary lookup of an absent key *)

(** [Diverged] marks a loop that would not finish; the theorems below show
    where it cannot occur. *)
Inductive result (A : Type) : Type :=
  | Ok (a : A)
  | Raise (e : exn)
  | Diverged.
Arguments Ok {A} a.
Arguments Raise {A} e.
Arguments Diverged {A}.

Definition rbind {A B} (m : result A) (k : A → result B) : result B :=
  match m with
  | Ok a => k a
  | Raise e => Raise e
  | Diverged => Diverged
  end.

Notation "x ←ᵣ m ; k" := (rbind m (λ x, k))
  (at level 100, m at next level, k at level 200, right associativity).

Definition of_option {A} (e : exn) (o : option A) : result A :=
  match o with Some a => Ok a | None => Raise e end.

Fixpoint mapM {A B} (k : A → result B) (l : list A) : result (list B) :=
  match l with
  | [] => Ok []
  | a :: l' => b ←ᵣ k a; bs ←ᵣ mapM k l'; Ok (b :: bs)
  end.

(** ** Tuple order and [sorted] *)

Section tuple_order.
Context `{Lexico A, !StrictOrder (@lexico A _), !TrichotomyT (@lexico A _)}.

(** [x <= y] on tuples: not [y < x]. *)
Definition tuple_le (x y : A) : Prop := ¬ lexico y x.

#[global] Instance tuple_le_dec : RelDecision tuple_le.
Proof. intros x y. unfold tuple_le. apply _. Defined.

(** Python's [sorted(l)]. *)
Definition sorted (l : list A) : list A := merge_sort tuple_le l.

End tuple_order.

(** ** Positions, values, search states *)

Definition pos : Type := nat * nat.
Definition value : Type := Z.

(** One entry of the remembered cards: [(val, positions)]. *)
Definition entry : Type := value * list pos.

(** A search state [(matched, seen)]: the matched positions and the
    remembered cards, both as tuples. *)
Definition SearchState : Type := list pos * list entry.

(** [(val, tuple(sorted(pos_list)))] *)
Definition sort_entry (e : entry) : entry := (e.1, sorted e.2).

(** [state_to_key]: [seen] is iterated as a sequence of [(val, pos_list)]
    pairs; for a [dict] these are its [items()]. *)
Definition state_to_key (s : SearchState) : SearchState :=
  let '(matched, seen) := s in
  let matched_key := sorted matched in
  let seen_key := sorted (sort_entry <$> seen) in
  (matched_key, seen_key).

(** Two memories that differ only in the order of their entries and in the
    order of the positions inside an entry. *)
Definition same_entry (e1 e2 : entry) : Prop := e1.1 = e2.1 ∧ e1.2 ≡ₚ e2.2.
Definition same_memory (seen1 seen2 : list entry) : Prop :=
  ∃ seen, seen1 ≡ₚ seen ∧ Forall2 same_entry seen seen2.

(** ** Insertion-ordered dictionaries

    A [dict] whose iteration order the program observes: an association
    list with distinct keys, in insertion order.  Assigning to a present key
    keeps its place, assigning to a new key appends it. *)

Section dict.
Context {K V : Type} `{EqDecision K}.

Fixpoint dict_get (d : list (K * V)) (k : K) : option V :=
  match d with
  | [] => None
  | (k', v) :: d' => if decide (k' = k) then Some v else dict_get d' k
  end.

(** [d[k] = v] *)
Fixpoint dict_set (d : list (K * V)) (k : K) (v : V) : list (K * V) :=
  match d with
  | [] => [(k, v)]
  | (k', v') :: d' =>
      if decide (k' = k) then (k', v) :: d' else (k', v') :: dict_set d' k v
  end.

(** [d.pop(k, None)] and [del d[k]] for a present key *)
Fixpoint dict_pop (d : list (K * V)) (k : K) : list (K * V) :=
  match d with
  | [] => []
  | (k', v') :: d' =>
      if decide (k' = k) then d' else (k', v') :: dict_pop d' k
  end.

(** [d.setdefault(k, v)], for its effect on [d] *)
Definition dict_setdefault (d : list (K * V)) (k : K) (v : V) : list (K * V) :=
  match dict_get d k with Some _ => d | None => dict_set d k v end.

(** [k in d] *)
Definition dict_mem (d : list (K * V)) (k : K) : bool :=
  bool_decide (is_Some (dict_get d k)).
End dict.

(** [mp[val].append(pos)] on a [defaultdict(list)]. *)
Definition dict_append (mp : list entry) (val : value) (p : pos) : list entry :=
  dict_set mp val (default [] (dict_get mp val) ++ [p]).

(** ** The game *)

Module MemoriceGame.

Record t : Type := mk {
  size : nat;                 (* the board is size x size *)
  total_pairs : Z;            (* (size * size) // 2 *)
  board : list (list value);  (* rows of card values *)
  matched : gset pos;         (* positions already paired *)
  moves : Z;                  (* turns played *)
  seen : list (pos * value)   (* remembered cards, pos -> value *)
}.

Definition value_at (self : t) (p : pos) : result value :=
  let '(r, c) := p in
  row ←ᵣ of_option IndexError (board self !! r);
  of_option IndexError (row !! c).

Definition all_positions (self : t) : list pos :=
  r ← seq 0 (size self); c ← seq 0 (size self); [(r, c)].

Definition is_matched (self : t) (p : pos) : bool :=
  bool_decide (p ∈ matched self).

Definition unmatched_positions (self : t) : list pos :=
  filter (λ p, p ∉ matched self) (all_positions self).

Definition seen_pairs (self : t) : list entry :=
  fold_left
    (λ mp '(p, val), if decide (p ∉ matched self) then dict_append mp val p else mp)
    (seen self) [].

(** [apply_turn] returns the game after the turn and whether the two
    cards were paired. *)
Definition apply_turn (self : t) (pos1 pos2 : pos) : result (t * bool) :=
  let moves1 := moves self + 1 in
  v1 ←ᵣ value_at self pos1;
  v2 ←ᵣ value_at self pos2;
  let seen1 :=
    if decide (pos1 ∉ matched self) then dict_set (seen self) pos1 v1 else seen self in
  let seen2 :=
    if decide (pos2 ∉ matched self) then dict_set seen1 pos2 v2 else seen1 in
  if decide (v1 = v2 ∧ pos1 ≠ pos2) then
    Ok (mk (size self) (total_pairs self) (board self)
           ({[pos2]} ∪ ({[pos1]} ∪ matched self)) moves1
           (dict_pop (dict_pop seen2 pos1) pos2), true)
  else
    Ok (mk (size self) (total_pairs self) (board self)
           (matched self) moves1 seen2, false).

Definition is_finished (self : t) : bool :=
  bool_decide (Z.of_nat (base.size (matched self)) `div` 2 = total_pairs self).

End MemoriceGame.

(** ** Actions and nodes *)

(** The tag of an action: the strings ["match"] and ["turn"]. *)
Inductive kind : Type := Match | Turn.

#[global] Instance kind_eq_dec : EqDecision kind.
Proof. solve_decision. Defined.

(** An action [(tag, (p1, p2))]. *)
Definition Action : Type := kind * (pos * pos).

(** A successor [(action, new_state, cost)]. *)
Definition successor : Type := Action * SearchState * Z.

(** String order on the two tags: ["match" < "turn"]. *)
#[global] Instance kind_lexico : Lexico kind := λ k1 k2,
  match k1, k2 with Match, Turn => True | _, _ => False end.

#[global] Instance kind_lexico_po : StrictOrder (@lexico kind _).
Proof. split; [by intros [] ?|by intros [] [] [] ??]. Qed.

#[global] Instance kind_lexico_trichotomy : TrichotomyT (@lexico kind _).
Proof.
  red; refine (λ k1 k2,
    match k1, k2 with
    | Match, Match => inleft (right _)
    | Match, Turn => inleft (left _)
    | Turn, Match => inright _
    | Turn, Turn => inleft (right _)
    end); abstract (unfold lexico, kind_lexico; naive_solver).
Defined.

(** Order on optional fields.  [astar_plan] compares two nodes only when
    both come from an expansion, where [parent] and [action] are set; the
    root, the one node with [None] there, is pushed on an empty frontier and
    popped from a one-element frontier.  [None] is placed first. *)
#[global] Instance option_lexico `{Lexico A} : Lexico (option A) := λ o1 o2,
  match o1, o2 with
  | None, Some _ => True
  | Some x1, Some x2 => lexico x1 x2
  | _, _ => False
  end.

#[global] Instance option_lexico_po `{Lexico A, !StrictOrder (@lexico A _)} :
  StrictOrder (@lexico (option A) _).
Proof.
  split.
  - intros [x|] Hx; [|done]. by apply (irreflexivity lexico x).
  - intros [x|] [y|] [z|] ??; try done. unfold lexico, option_lexico in *.
    by trans y.
Qed.

#[global] Instance option_lexico_trichotomy
  `{Lexico A, tA : !TrichotomyT (@lexico A _)} : TrichotomyT (@lexico (option A) _).
Proof.
  red; refine (λ o1 o2,
    match o1, o2 with
    | None, None => inleft (right _)
    | None, Some _ => inleft (left _)
    | Some _, None => inright _
    | Some x1, Some x2 => cast_trichotomy (trichotomyT lexico x1 x2)
    end); clear tA; abstract (unfold lexico, option_lexico; naive_solver).
Defined.

Module Node.
(** [Node = namedtuple("Node", ["f", "g", "state", "parent", "action"])] *)
Record t : Type := mk {
  f : Z;
  g : Z;
  state : SearchState;
  parent : option SearchState;
  action : option Action
}.

(** A named tuple is compared as the tuple of its fields. *)
Definition as_tuple (n : t) : Z * (Z * (SearchState * (option SearchState * option Action))) :=
  (f n, (g n, (state n, (parent n, action n)))).
End Node.

#[global] Instance node_lexico : Lexico Node.t := λ n1 n2,
  lexico (Node.as_tuple n1) (Node.as_tuple n2).

#[global] Instance node_lexico_po : StrictOrder (@lexico Node.t _).
Proof.
  unfold lexico, node_lexico. split.
  - intros n ?. by apply (irreflexivity lexico (Node.as_tuple n)).
  - intros n1 n2 n3 ??. by trans (Node.as_tuple n2).
Qed.

Lemma as_tuple_inj n1 n2 : Node.as_tuple n1 = Node.as_tuple n2 → n1 = n2.
Proof. destruct n1, n2; unfold Node.as_tuple; simpl. by intros [= -> -> -> -> ->]. Qed.

#[global] Instance node_lexico_trichotomy : TrichotomyT (@lexico Node.t _).
Proof.
  red; refine (λ n1 n2,
    cast_trichotomy (trichotomyT lexico (Node.as_tuple n1) (Node.as_tuple n2)));
    abstract (done || by apply as_tuple_inj).
Defined.

(** ** The frontier

    [heapq] keeps a binary heap in a list; what the planner observes of it is
    that [heappop] removes and returns the least item of the tuple order.
    Two items that compare equal are equal as tuples, so the least item is
    determined by the contents alone.  The frontier is kept here as the list
    of its items in insertion order. *)

Definition heappush (heap : list Node.t) (item : Node.t) : list Node.t :=
  heap ++ [item].

Fixpoint heappop (heap : list Node.t) : option (Node.t * list Node.t) :=
  match heap with
  | [] => None
  | x :: heap' =>
      match heappop heap' with
      | None => Some (x, [])
      | Some (m, rest) =>
          if decide (lexico m x) then Some (m, x :: rest) else Some (x, heap')
      end
  end.

(** ** Heuristic *)

Definition heuristic_state (st : SearchState) (total_pairs : Z) : Z :=
  let '(matched, seen) := st in
  let matched_count := Z.of_nat (length matched) `div` 2 in
  total_pairs - matched_count.

(** ** Successor generator *)

(** [{val: list(poses)[:] for val, poses in seen}] *)
Definition to_dict (seen : list entry) : list entry :=
  fold_left (λ d '(val, poses), dict_set d val poses) seen [].

(** The state tuple built from a set of matched positions and a memory:
    [(tuple(sorted(new_matched)),
      tuple(sorted((k, tuple(sorted(v))) for k, v in new_seen.items())))] *)
Definition freeze (new_matched : gset pos) (new_seen : list entry) : SearchState :=
  (sorted (elements new_matched), sorted (sort_entry <$> new_seen)).

(** [x not in {p1, p2}] *)
Definition not_in_pair (p1 p2 x : pos) : Prop := x ≠ p1 ∧ x ≠ p2.

#[global] Instance not_in_pair_dec p1 p2 x : Decision (not_in_pair p1 p2 x).
Proof. unfold not_in_pair. apply _. Defined.

(** The action for one entry of the memory in phase 1: none, or the match
    of the first two positions of the entry that are not matched. *)
Definition known_pair (matched_set : gset pos) (seen_map : list entry)
    (e : entry) : list successor :=
  let '(val, poses) := e in
  if decide (2 ≤ length poses)%nat then
    let available := filter (λ p, p ∉ matched_set) poses in
    match available with
    | p1 :: p2 :: _ =>
        let new_matched := {[p2]} ∪ ({[p1]} ∪ matched_set) in
        let new_seen :=
          (λ '(k, v), (k, filter (not_in_pair p1 p2) v)) <$> seen_map in
        let new_seen := filter (λ '(k, v), v ≠ []) new_seen in
        [((Match, (p1, p2)), freeze new_matched new_seen, 1)]
    | _ => []
    end
  else [].

Definition known_pairs (matched_set : gset pos) (seen_map : list entry) :
    list successor :=
  e ← seen_map; known_pair matched_set seen_map e.

(** [new_seen.setdefault(v, []); if p not in new_seen[v]: new_seen[v].append(p)] *)
Definition remember (new_seen : list entry) (v : value) (p : pos) : list entry :=
  let new_seen := dict_setdefault new_seen v [] in
  let l := default [] (dict_get new_seen v) in
  if decide (p ∈ l) then new_seen else dict_set new_seen v (l ++ [p]).

(** The body of both exploration loops: turn [c] and [d]. *)
Definition reveal (game : MemoriceGame.t) (matched_set : gset pos)
    (seen_map : list entry) (c d : pos) : result successor :=
  let new_matched := matched_set in
  let new_seen := seen_map in
  v_c ←ᵣ MemoriceGame.value_at game c;
  v_d ←ᵣ MemoriceGame.value_at game d;
  let new_seen := remember new_seen v_c c in
  let new_seen := remember new_seen v_d d in
  if decide (v_c = v_d ∧ c ≠ d) then
    let new_matched := {[d]} ∪ ({[c]} ∪ new_matched) in
    let l := filter (not_in_pair c d) (default [] (dict_get new_seen v_c)) in
    let new_seen := dict_set new_seen v_c l in
    let new_seen := if decide (l = []) then dict_pop new_seen v_c else new_seen in
    Ok ((Turn, (c, d)), freeze new_matched new_seen, 1)
  else
    Ok ((Turn, (c, d)), freeze new_matched new_seen, 1).

(** The branching limit. *)
Definition K : nat := 6.

(** The positions the memory lists. *)
Definition memory_positions (seen_map : list entry) : list pos :=
  e ← seen_map; e.2.

Definition unmatched_of (game : MemoriceGame.t) (matched_set : gset pos) : list pos :=
  filter (λ p, p ∉ matched_set) (MemoriceGame.all_positions game).

Definition unseen_of (game : MemoriceGame.t) (matched_set : gset pos)
    (seen_map : list entry) : list pos :=
  let unmatched := unmatched_of game matched_set in
  let unseen :=
    filter (λ p, dict_mem (MemoriceGame.seen game) p = false
                 ∧ p ∉ memory_positions seen_map) unmatched in
  match unseen with [] => unmatched | _ => unseen end.

Definition candidates_of (game : MemoriceGame.t) (matched_set : gset pos)
    (seen_map : list entry) : list pos :=
  take K (unseen_of game matched_set seen_map).

Definition seen_positions_of (matched_set : gset pos) (seen_map : list entry) :
    list pos :=
  filter (λ p, p ∉ matched_set) (memory_positions seen_map).

(** The partners of candidate [c] in the first inner loop. *)
Definition memory_partners (matched_set : gset pos) (seen_map : list entry)
    (c : pos) : list pos :=
  filter (λ d, d ≠ c) (seen_positions_of matched_set seen_map).

(** [others = [p for p in unmatched if p != c][:K]], iterated as [others[:K]]. *)
Definition others (game : MemoriceGame.t) (matched_set : gset pos) (c : pos) :
    list pos :=
  take K (filter (λ p, p ≠ c) (unmatched_of game matched_set)).

Definition blind_partners (game : MemoriceGame.t) (matched_set : gset pos)
    (c : pos) : list pos :=
  take K (others game matched_set c).

Definition explore_candidate (game : MemoriceGame.t) (matched_set : gset pos)
    (seen_map : list entry) (c : pos) : result (list successor) :=
  with_seen ←ᵣ mapM (reveal game matched_set seen_map c)
                    (memory_partners matched_set seen_map c);
  with_others ←ᵣ mapM (reveal game matched_set seen_map c)
                      (blind_partners game matched_set c);
  Ok (with_seen ++ with_others).

Definition explore (game : MemoriceGame.t) (matched_set : gset pos)
    (seen_map : list entry) : result (list successor) :=
  per_candidate ←ᵣ mapM (explore_candidate game matched_set seen_map)
                        (candidates_of game matched_set seen_map);
  Ok (mjoin per_candidate).

Definition successors_state (st : SearchState) (game : MemoriceGame.t) :
    result (list successor) :=
  let '(matched, seen) := st in
  let matched_set : gset pos := list_to_set matched in
  let seen_map := to_dict seen in
  let actions := known_pairs matched_set seen_map in
  match actions with
  | _ :: _ => Ok actions
  | [] => explore game matched_set seen_map
  end.

(** ** The planner *)

(** The three collections of the search; [came_from] maps the root to
    [None], the pair [(None, None)] of the program, and every other key to
    its [(parent_key, action)]. *)
Record search : Type := mk_search {
  frontier : list Node.t;
  came_from : gmap SearchState (option (SearchState * Action));
  gscore : gmap SearchState Z;
  expansions : Z
}.

(** [tentative_g < gscore.get(new_key, float("inf"))] *)
Definition improves (tentative_g : Z) (known : option Z) : bool :=
  match known with
  | Some g0 => bool_decide (tentative_g < g0)
  | None => true
  end.

(** The body of the loop over the successors of the node of key [key] and
    cost [g]. *)
Definition relax (total_pairs : Z) (key : SearchState) (g : Z)
    (σ : search) (s : successor) : search :=
  let '(action, new_state, cost) := s in
  let new_key := state_to_key new_state in
  let tentative_g := g + cost in
  if improves tentative_g (gscore σ !! new_key) then
    let gscore1 := <[new_key := tentative_g]> (gscore σ) in
    let h := heuristic_state new_state total_pairs in
    let f := tentative_g + h in
    mk_search
      (heappush (frontier σ) (Node.mk f tentative_g new_state (Some key) (Some action)))
      (<[new_key := Some (key, action)]> (came_from σ))
      gscore1
      (expansions σ)
  else σ.

(** The walk back along [came_from].  A walk that ends visits every key at
    most once, so it makes at most as many lookups as [came_from] has keys;
    [fuel] is set from that bound and a longer walk is [Diverged]. *)
Fixpoint reconstruct (fuel : nat)
    (came_from : gmap SearchState (option (SearchState * Action)))
    (cur_key : SearchState) (path : list Action) : result (list Action) :=
  match fuel with
  | O => Diverged
  | S fuel' =>
      match came_from !! cur_key with
      | None => Raise KeyError
      | Some None => Ok (reverse path)
      | Some (Some (parent_key, action)) =>
          reconstruct fuel' came_from parent_key (path ++ [action])
      end
  end.

Definition is_goal (total_pairs : Z) (st : SearchState) : bool :=
  bool_decide (Z.of_nat (length st.1) `div` 2 = total_pairs).

(** What one iteration of the [while frontier] loop does. *)
Inductive step_result : Type :=
  | Return (r : option (list Action))   (* a [return] statement *)
  | Continue (σ : search)               (* the next iteration *)
  | Throw (e : exn)
  | Loops.                              (* the walk back does not end *)

Definition astar_step (game : MemoriceGame.t) (max_expansions : Z)
    (σ : search) : step_result :=
  let total_pairs := MemoriceGame.total_pairs game in
  match heappop (frontier σ) with
  | None => Return None
  | Some (node, rest) =>
      let st := Node.state node in
      let key := state_to_key st in
      let g := Node.g node in
      if is_goal total_pairs st then
        match reconstruct (S (base.size (came_from σ))) (came_from σ) key [] with
        | Ok path => Return (Some path)
        | Raise e => Throw e
        | Diverged => Loops
        end
      else
        let expansions1 := expansions σ + 1 in
        if bool_decide (expansions1 > max_expansions) then Return None
        else
          match successors_state st game with
          | Ok succs =>
              Continue
                (fold_left (relax total_pairs key g) succs
                   (mk_search rest (came_from σ) (gscore σ) expansions1))
          | Raise e => Throw e
          | Diverged => Loops
          end
  end.

Fixpoint astar_loop (fuel : nat) (game : MemoriceGame.t) (max_expansions : Z)
    (σ : search) : result (option (list Action)) :=
  match fuel with
  | O => Diverged
  | S fuel' =>
      match astar_step game max_expansions σ with
      | Return r => Ok r
      | Continue σ' => astar_loop fuel' game max_expansions σ'
      | Throw e => Raise e
      | Loops => Diverged
      end
  end.

Definition astar_init (initial_state : SearchState) (game : MemoriceGame.t) : search :=
  let total_pairs := MemoriceGame.total_pairs game in
  let start_h := heuristic_state initial_state total_pairs in
  mk_search
    (heappush [] (Node.mk start_h 0 initial_state None None))
    {[state_to_key initial_state := None]}
    {[state_to_key initial_state := 0]}
    0.

(** Every iteration that goes on adds one to [expansions], and none goes on
    past [max_expansions]: the loop makes at most [max_expansions + 1]
    iterations, which is the fuel given. *)
Definition astar_plan (initial_state : SearchState) (game : MemoriceGame.t)
    (max_expansions : Z) : result (option (list Action)) :=
  astar_loop (S (Z.to_nat max_expansions)) game max_expansions
    (astar_init initial_state game).

(** ** Fallback policy *)

(** [random.choice(seq)] with the draw [r]. *)
Definition choice {A} (r : nat) (l : list A) : result A :=
  of_option IndexError (l !! (r `mod` length l)%nat).

(** The first entry with two positions or more, as its first two. *)
Fixpoint first_known_pair (seen_pairs : list entry) : option (pos * pos) :=
  match seen_pairs with
  | [] => None
  | (val, p1 :: p2 :: _) :: _ => Some (p1, p2)
  | _ :: rest => first_known_pair rest
  end.

Definition greedy_policy (game : MemoriceGame.t) (r1 r2 : nat) : result Action :=
  let seen_pairs := MemoriceGame.seen_pairs game in
  match first_known_pair seen_pairs with
  | Some (p1, p2) => Ok (Turn, (p1, p2))
  | None =>
      let unmatched :=
        filter (λ p, MemoriceGame.is_matched game p = false)
               (MemoriceGame.all_positions game) in
      let unseen :=
        filter (λ p, dict_mem (MemoriceGame.seen game) p = false) unmatched in
      let unseen := match unseen with [] => unmatched | _ => unseen end in
      p1 ←ᵣ choice r1 unseen;
      v1 ←ᵣ MemoriceGame.value_at game p1;
      match
        find (λ '(p, val), bool_decide (val = v1 ∧ p ≠ p1 ∧ p ∉ MemoriceGame.matched game))
             (MemoriceGame.seen game)
      with
      | Some (p, _) => Ok (Turn, (p1, p))
      | None =>
          let remaining := filter (λ p, p ≠ p1) unmatched in
          match remaining with
          | [] => Ok (Turn, (p1, p1))
          | _ => p2 ←ᵣ choice r2 remaining; Ok (Turn, (p1, p2))
          end
      end
  end.

(** ** The planning cycle of [main]: the snapshot of the live game *)

Definition snapshot (game : MemoriceGame.t) : SearchState :=
  let matched_tuple := sorted (elements (MemoriceGame.matched game)) in
  let seen_state := sorted (sort_entry <$> MemoriceGame.seen_pairs game) in
  (matched_tuple, seen_state).

(** Playing a plan on the live game, one [apply_turn] per action. *)
Fixpoint replay (game : MemoriceGame.t) (plan : list Action) : result MemoriceGame.t :=
  match plan with
  | [] => Ok game
  | (_, (p1, p2)) :: plan' =>
      r ←ᵣ MemoriceGame.apply_turn game p1 p2;
      replay r.1 plan'
  end.

(** ** A new game

    [random.shuffle] rearranges the list of values in place; which
    rearrangement it picks is the parameter [shuffle]. *)

(** The slice [l[lo:hi]] for indices that are not negative. *)
Definition slice {A} (lo hi : nat) (l : list A) : list A := drop lo (take hi l).

Definition _generate_board (size : nat) (shuffle : list value → list value) :
    list (list value) :=
  let vals := seqZ 1 (Z.of_nat (size * size) `div` 2)
              ++ seqZ 1 (Z.of_nat (size * size) `div` 2) in
  let vals := shuffle vals in
  (λ i, slice (i * size) ((i + 1) * size) vals) <$> seq 0 size.

Definition __init__ (size : nat) (shuffle : list value → list value) :
    MemoriceGame.t :=
  MemoriceGame.mk size (Z.of_nat (size * size) `div` 2)
                  (_generate_board size shuffle) ∅ 0 [].

(** ** The loop of [main]

    What the loop of [main] does to the game: the live game and the list
    [planned_actions] are the state it carries from one pass to the next.
    The window, the clock and the delays are left out.  Of the events of
    the window the model keeps whether a QUIT event is among those a pass
    reads; of [draw_board], what it reads from the game, the face of every
    card it shows, since reading a card can raise. *)

Definition BOARD_SIZE : nat := 6.

Definition draw_board (game : MemoriceGame.t) (reveal_preview : gset pos) :
    result (list (option value)) :=
  mapM (λ pos,
          if decide (pos ∈ MemoriceGame.matched game) then
            val ←ᵣ MemoriceGame.value_at game pos; Ok (Some val)
          else if decide (pos ∈ reveal_preview) then
            val ←ᵣ MemoriceGame.value_at game pos; Ok (Some val)
          else Ok None)
       (MemoriceGame.all_positions game).

(** The plan for the turns to come: the plan of [astar_plan] from the
    snapshot of the game, or the one action of [greedy_policy]. *)
Definition plan_cycle (game : MemoriceGame.t) (r1 r2 : nat) :
    result (list Action) :=
  let initial_state := snapshot game in
  plan ←ᵣ astar_plan initial_state game 150000;
  match plan with
  | None => action ←ᵣ greedy_policy game r1 r2; Ok [action]
  | Some plan => Ok plan
  end.

(** One pass of the loop while the game is not finished. *)
Definition main_turn (game : MemoriceGame.t) (planned_actions : list Action)
    (r1 r2 : nat) : result (MemoriceGame.t * list Action) :=
  planned_actions ←ᵣ
    match planned_actions with
    | [] => plan_cycle game r1 r2
    | _ :: _ => Ok planned_actions
    end;
  match planned_actions with
  | [] => Ok (game, [])
  | (act_type, (p1, p2)) :: planned_actions =>
      _ ←ᵣ draw_board game {[p1]};
      _ ←ᵣ draw_board game ({[p1]} ∪ {[p2]});
      r ←ᵣ MemoriceGame.apply_turn game p1 p2;
      _ ←ᵣ draw_board r.1 ({[p1]} ∪ {[p2]});
      Ok (r.1, planned_actions)
  end.

(** The loop.  Pass [i] first reads the events of the window: [events i]
    tells whether a QUIT event is among them, which sets [running] to
    [False]; the pass still runs to its end, and the loop ends after it.  A
    pass that finds the game finished draws the final board and ends the
    loop as well.  The draws of pass [i] are [draws i]; [fuel] bounds the
    passes. *)
Fixpoint main_loop (fuel : nat) (game : MemoriceGame.t)
    (planned_actions : list Action) (events : nat → bool)
    (draws : nat → nat * nat) : result MemoriceGame.t :=
  match fuel with
  | O => Diverged
  | S fuel' =>
      let running := negb (events O) in
      if MemoriceGame.is_finished game then
        _ ←ᵣ draw_board game ∅; Ok game
      else
        r ←ᵣ main_turn game planned_actions (draws O).1 (draws O).2;
        if running then
          main_loop fuel' r.1 r.2 (λ i, events (S i)) (λ i, draws (S i))
        else Ok r.1
  end.

Definition main (shuffle : list value → list value) (events : nat → bool)
    (draws : nat → nat * nat) (fuel : nat) : result MemoriceGame.t :=
  let game := __init__ BOARD_SIZE shuffle in
  main_loop fuel game [] events draws.

(** ** A small board *)

Definition game22 (b : list (list value)) : MemoriceGame.t :=
  MemoriceGame.mk 2 2 b ∅ 0 [].

Definition board_a : list (list value) := [[1; 2]; [2; 1]].

(** * The vocabulary of the properties *)

(** [iterate n σ]: the search after [n] iterations that all went on. *)
Fixpoint iterate (n : nat) (game : MemoriceGame.t) (max_expansions : Z)
    (σ : search) : option search :=
  match n with
  | O => Some σ
  | S n' =>
      match astar_step game max_expansions σ with
      | Continue σ' => iterate n' game max_expansions σ'
      | _ => None
      end
  end.

(** The two ways the loop gives up. *)
Definition frontier_empty (σ : search) : Prop := frontier σ = [].

Definition budget_exceeded (game : MemoriceGame.t) (max_expansions : Z)
    (σ : search) : Prop :=
  ∃ node rest,
    heappop (frontier σ) = Some (node, rest) ∧
    is_goal (MemoriceGame.total_pairs game) (Node.state node) = false ∧
    expansions σ + 1 > max_expansions.

(** The memory after a match of [p1] and [p2] in phase 1. *)
Definition forget_pair (p1 p2 : pos) (seen_map : list entry) : list entry :=
  filter (λ '(k, v), v ≠ [])
    ((λ '(k, v), (k, filter (not_in_pair p1 p2) v)) <$> seen_map).

(** The memory and the matched set after the turn of [c] and [d]. *)
Definition reveal_seen (seen_map : list entry) (v_c v_d : value) (c d : pos) :
    list entry :=
  let new_seen := remember (remember seen_map v_c c) v_d d in
  if decide (v_c = v_d ∧ c ≠ d) then
    let l := filter (not_in_pair c d) (default [] (dict_get new_seen v_c)) in
    let new_seen := dict_set new_seen v_c l in
    if decide (l = []) then dict_pop new_seen v_c else new_seen
  else new_seen.

Definition reveal_matched (ms : gset pos) (v_c v_d : value) (c d : pos) : gset pos :=
  if decide (v_c = v_d ∧ c ≠ d) then {[d]} ∪ ({[c]} ∪ ms) else ms.

(** The number of matched pairs of a state: [len(matched) // 2]. *)
Definition matched_pairs (st : SearchState) : Z := Z.of_nat (length st.1) `div` 2.

(** [path game s n s']: [n] generated transitions lead from [s] to [s']. *)
Inductive path (game : MemoriceGame.t) : SearchState → nat → SearchState → Prop :=
  | path_here s : path game s 0 s
  | path_step s succs a s1 c n s' :
      successors_state s game = Ok succs →
      (a, s1, c) ∈ succs →
      path game s1 n s' →
      path game s (S n) s'.

(** The entry has two unmatched positions or more. *)
Definition has_known_pair (ms : gset pos) (e : entry) : Prop :=
  (2 ≤ length (filter (λ p, p ∉ ms) e.2))%nat.

#[global] Instance has_known_pair_dec ms e : Decision (has_known_pair ms e).
Proof. unfold has_known_pair. apply _. Defined.

(** The successor [s] is a match of two unmatched positions of entry [e],
    at cost 1. *)
Definition is_match_of (ms : gset pos) (e : entry) (s : successor) : Prop :=
  ∃ p1 p2,
    s.1.1 = (Match, (p1, p2)) ∧ s.2 = 1 ∧
    p1 ≠ p2 ∧ p1 ∈ snd e ∧ p2 ∈ snd e ∧ (p1 ∉ ms) ∧ (p2 ∉ ms).

(** The turns of candidate [c], in order: first with the remembered
    positions, then with the blind partners. *)
Definition partners (game : MemoriceGame.t) (ms : gset pos) (sm : list entry)
    (c : pos) : list pos :=
  memory_partners ms sm c ++ blind_partners game ms c.

(** C6, as stated: in the exploration phase, every blind partner of a
    candidate is a position the state does not remember. *)
Definition blind_partners_unseen (game : MemoriceGame.t) (st : SearchState) : Prop :=
  let ms : gset pos := list_to_set st.1 in
  let sm := to_dict st.2 in
  known_pairs ms sm = [] →
  ∀ c d, c ∈ candidates_of game ms sm → d ∈ blind_partners game ms c →
         d ∉ memory_positions sm.

(** The live game after the turn of [(0, 0)] and [(0, 1)] on [board_a]. *)
Definition game_one_turn : MemoriceGame.t :=
  MemoriceGame.mk 2 2 board_a ∅ 1 [((0, 0)%nat, 1); ((0, 1)%nat, 2)].

(** Every node on the frontier has [f = g + h]. *)
Definition f_is_g_plus_h (total_pairs : Z) (x : Node.t) : Prop :=
  Node.f x = Node.g x + heuristic_state (Node.state x) total_pairs.

(** C9, as stated: the node popped is the first inserted among the nodes of
    least [f]; the frontier lists its nodes in insertion order. *)
Definition pops_fifo (heap : list Node.t) : Prop :=
  ∀ m rest,
    heappop heap = Some (m, rest) →
    ∃ l1 l2,
      heap = l1 ++ m :: l2 ∧ rest = l1 ++ l2 ∧
      (∀ x, x ∈ l1 → Node.f m < Node.f x) ∧
      (∀ x, x ∈ l2 → Node.f m ≤ Node.f x).

Definition board44 : list (list value) :=
  [[8; 7; 6; 5]; [4; 3; 2; 1]; [8; 7; 6; 5]; [4; 3; 2; 1]].

Definition game44 : MemoriceGame.t := MemoriceGame.mk 4 8 board44 ∅ 0 [].

(** The frontier of the search on [board44] after the expansion of the
    root. *)
Definition frontier44 : list Node.t :=
  match iterate 1 game44 150000 (astar_init ([], []) game44) with
  | Some σ => frontier σ
  | None => []
  end.

(** What [remember] leaves under each key. *)
Definition remembered (l : list pos) (p : pos) : list pos :=
  if decide (p ∈ l) then l else l ++ [p].

(** The two invariants of a search state: no position is both matched and
    remembered; every remembered list is non-empty and without duplicates. *)
Definition wf_state (st : SearchState) : Prop :=
  (∀ e p, e ∈ st.2 → p ∈ e.2 → p ∉ st.1) ∧
  (∀ e, e ∈ st.2 → e.2 ≠ [] ∧ NoDup e.2).

(** The memory agrees with the board: every remembered position is listed
    under the value the board has there. *)
Definition truthful (game : MemoriceGame.t) (seen : list entry) : Prop :=
  ∀ e p, e ∈ seen → p ∈ e.2 → MemoriceGame.value_at game p = Ok e.1.

(** Both together, for one entry and a set of matched positions. *)
Definition entry_ok (game : MemoriceGame.t) (M : gset pos) (e : entry) : Prop :=
  e.2 ≠ [] ∧ NoDup e.2 ∧
  ∀ p, p ∈ e.2 → (p ∉ M) ∧ MemoriceGame.value_at game p = Ok e.1.

Definition state_ok (game : MemoriceGame.t) (st : SearchState) : Prop :=
  ∀ e, e ∈ st.2 → entry_ok game (list_to_set st.1) e.

(** The same on the dictionary view of a memory. *)
Definition all_ok (game : MemoriceGame.t) (M : gset pos) (d : list entry) : Prop :=
  ∀ k l, dict_get d k = Some l → entry_ok game M (k, l).

(** What a turn does to the set of matched positions of the live game. *)
Definition turn_matched (game : MemoriceGame.t) (M : gset pos) (p1 p2 : pos) :
    result (gset pos) :=
  v1 ←ᵣ MemoriceGame.value_at game p1;
  v2 ←ᵣ MemoriceGame.value_at game p2;
  Ok (if decide (v1 = v2 ∧ p1 ≠ p2) then {[p2]} ∪ ({[p1]} ∪ M) else M).

(** The successors of a well-formed state are well formed. *)
Definition successors_keep_wf (game : MemoriceGame.t) (st : SearchState) : Prop :=
  wf_state st →
  ∀ succs a s' c,
    successors_state st game = Ok succs → (a, s', c) ∈ succs → wf_state s'.

(** The invariant of the live game: [total_pairs] is set from [size]; the
    board has a card at every position; the matched positions are positions
    of the board; a remembered card is a card of the board, remembered with
    its value. *)
Definition wf_game (game : MemoriceGame.t) : Prop :=
  MemoriceGame.total_pairs game
    = Z.of_nat (MemoriceGame.size game * MemoriceGame.size game) `div` 2 ∧
  (∀ p, p ∈ MemoriceGame.all_positions game →
        ∃ v, MemoriceGame.value_at game p = Ok v) ∧
  (∀ p, p ∈ MemoriceGame.matched game → p ∈ MemoriceGame.all_positions game) ∧
  NoDup (MemoriceGame.seen game).*1 ∧
  (∀ p v, (p, v) ∈ MemoriceGame.seen game →
          p ∈ MemoriceGame.all_positions game ∧
          MemoriceGame.value_at game p = Ok v).

(** The part of the invariant that concerns the memory alone: a card is
    remembered once, with the value the board has there.  An empty memory
    has it and [apply_turn] keeps it. *)
Definition memory_consistent (game : MemoriceGame.t) : Prop :=
  NoDup (MemoriceGame.seen game).*1 ∧
  ∀ p v, (p, v) ∈ MemoriceGame.seen game → MemoriceGame.value_at game p = Ok v.

(** What [seen_pairs] holds: under each value, without repetition, unmatched
    positions remembered with that value. *)
Definition seen_pair_ok (game : MemoriceGame.t) (e : entry) : Prop :=
  e.2 ≠ [] ∧ NoDup e.2 ∧
  ∀ p, p ∈ e.2 →
       (p, e.1) ∈ MemoriceGame.seen game ∧ p ∉ MemoriceGame.matched game.

(** [chain came_from k acts]: the walk back from [k] ends, and [acts] are the
    actions it meets, the last one first. *)
Inductive chain (came_from : gmap SearchState (option (SearchState * Action))) :
    SearchState → list Action → Prop :=
  | chain_root k : came_from !! k = Some None → chain came_from k []
  | chain_link k pk a acts :
      came_from !! k = Some (Some (pk, a)) →
      chain came_from pk acts →
      chain came_from k (a :: acts).

(** The invariant of the search, for the live game [game] and the key [k0]
    of the initial state. *)
Record search_inv (game : MemoriceGame.t) (k0 : SearchState) (σ : search) :
    Prop := mk_search_inv {
  inv_frontier x :
    x ∈ frontier σ →
    state_ok game (Node.state x) ∧ NoDup (Node.state x).1 ∧ 0 ≤ Node.g x;
  inv_root : came_from σ !! k0 = Some None ∧ gscore σ !! k0 = Some 0;
  inv_link k pk a :
    came_from σ !! k = Some (Some (pk, a)) →
    turn_matched game (list_to_set pk.1) a.2.1 a.2.2 = Ok (list_to_set k.1);
  inv_only_root k : came_from σ !! k = Some None → k = k0
}.

(** The costs recorded along [came_from]: the recorded cost of a parent is
    below that of its child, so the walk back cannot visit a key twice. *)
Record search_ranked (σ : search) : Prop := mk_search_ranked {
  rk_frontier x :
    x ∈ frontier σ →
    ∃ g0, gscore σ !! state_to_key (Node.state x) = Some g0 ∧ g0 ≤ Node.g x ∧
          is_Some (came_from σ !! state_to_key (Node.state x));
  rk_link k pk a :
    came_from σ !! k = Some (Some (pk, a)) →
    ∃ gk gp, gscore σ !! k = Some gk ∧ gscore σ !! pk = Some gp ∧ gp < gk ∧
             is_Some (came_from σ !! pk);
  rk_nonneg k g0 : gscore σ !! k = Some g0 → 0 ≤ g0
}.

(** [walk came_from k ks]: the walk back from [k] ends, and visits the keys
    [ks], [k] first. *)
Inductive walk (came_from : gmap SearchState (option (SearchState * Action))) :
    SearchState → list SearchState → Prop :=
  | walk_root k : came_from !! k = Some None → walk came_from k [k]
  | walk_link k pk a ks :
      came_from !! k = Some (Some (pk, a)) →
      walk came_from pk ks →
      walk came_from k (k :: ks).

(** The board has a card at every position. *)
Definition board_complete (game : MemoriceGame.t) : Prop :=
  ∀ p, p ∈ MemoriceGame.all_positions game →
       ∃ v, MemoriceGame.value_at game p = Ok v.

(** A memory read as a dictionary: distinct values, every list non-empty
    and without duplicates. *)
Definition dict_like (seen : list entry) : Prop :=
  NoDup seen.*1 ∧ ∀ e, e ∈ seen → e.2 ≠ [] ∧ NoDup e.2.

(** The memory lists position [p] under value [v]. *)
Definition remembers (seen : list entry) (v : value) (p : pos) : Prop :=
  ∃ ps, (v, ps) ∈ seen ∧ p ∈ ps.

(** No card is both remembered and matched. *)
Definition seen_unmatched (game : MemoriceGame.t) : Prop :=
  ∀ p, p ∈ MemoriceGame.matched game → dict_get (MemoriceGame.seen game) p = None.

(** What the properties assume of [random.shuffle]: the outcome is a
    rearrangement of the list. *)
Definition rearranges (shuffle : list value → list value) : Prop :=
  ∀ l, shuffle l ≡ₚ l.

#[global] Instance exn_eq_dec : EqDecision exn.
Proof. solve_decision. Defined.

#[global] Instance result_eq_dec `{EqDecision A} : EqDecision (result A).
Proof. solve_decision. Defined.

(** The positions of the board where the card has value [v]. *)
Definition cells_of (game : MemoriceGame.t) (v : value) : list pos :=
  filter (λ p, MemoriceGame.value_at game p = Ok v)
         (MemoriceGame.all_positions game).

(** The last position of the board, bottom right. *)
Definition last_cell (game : MemoriceGame.t) : pos :=
  (MemoriceGame.size game - 1, MemoriceGame.size game - 1)%nat.

(** Every link of [came_from] leads back to a state that was expanded: one
    that is not a goal, with its matched positions listed once. *)
Definition search_parents (total_pairs : Z) (σ : search) : Prop :=
  ∀ k pk a, came_from σ !! k = Some (Some (pk, a)) →
            is_goal total_pairs pk = false ∧ NoDup pk.1.

(** The cards lie on the board: there is none outside the positions
    [all_positions] lists. *)
Definition cards_on_board (game : MemoriceGame.t) : Prop :=
  ∀ p v, MemoriceGame.value_at game p = Ok v →
         p ∈ MemoriceGame.all_positions game.

Definition action_on_board (game : MemoriceGame.t) (a : Action) : Prop :=
  a.2.1 ∈ MemoriceGame.all_positions game ∧
  a.2.2 ∈ MemoriceGame.all_positions game.

(** What the loop of [main] keeps true from one pass to the next. *)
Definition main_inv (game : MemoriceGame.t) (planned_actions : list Action) :
    Prop :=
  wf_game game ∧ cards_on_board game ∧
  Forall (action_on_board game) planned_actions.

(** The bookkeeping behind the optimality of the plan.  A key with a
    recorded cost is open when a node of that state and cost waits on the
    frontier, closed when it was expanded at that cost, so that each of its
    successors has a recorded cost of at most one more; [pending] is the
    node being expanded. *)
Definition open_best (σ : search) (k : SearchState) (g : Z) : Prop :=
  ∃ x, x ∈ frontier σ ∧ Node.state x = k ∧ Node.g x = g.

Definition closed_best (game : MemoriceGame.t) (σ : search)
    (k : SearchState) (g : Z) : Prop :=
  is_goal (MemoriceGame.total_pairs game) k = false ∧
  ∀ succs a s' c,
    successors_state k game = Ok succs → (a, s', c) ∈ succs →
    ∃ g', gscore σ !! s' = Some g' ∧ g' ≤ g + 1.

Definition search_best (game : MemoriceGame.t)
    (pending : option (SearchState * Z)) (σ : search) : Prop :=
  (∀ x, x ∈ frontier σ →
        state_to_key (Node.state x) = Node.state x ∧
        f_is_g_plus_h (MemoriceGame.total_pairs game) x) ∧
  (∀ k g, gscore σ !! k = Some g →
          open_best σ k g ∨ closed_best game σ k g ∨ pending = Some (k, g)).

(** * Properties *)

(** ** The tuple order is a total order, and [sorted] is canonical *)

Section tuple_order_facts.
Context `{Lexico A, !StrictOrder (@lexico A _), !TrichotomyT (@lexico A _)}.

#[global] Instance tuple_le_total : Total (@tuple_le A _).
Proof.
  intros x y. unfold tuple_le.
  destruct (decide (lexico y x)) as [Hyx|Hyx]; [right|left; done].
  intros Hxy. by apply (irreflexivity lexico x); trans y.
Qed.

#[global] Instance tuple_le_trans : Transitive (@tuple_le A _).
Proof.
  intros x y z Hxy Hyz Hzx. unfold tuple_le in *.
  destruct (trichotomy lexico x y) as [Hlt|[->|Hgt]]; [|done..].
  apply Hyz. by trans x.
Qed.

#[global] Instance tuple_le_antisymm : AntiSymm (=) (@tuple_le A _).
Proof.
  intros x y Hxy Hyx. unfold tuple_le in *.
  by destruct (trichotomy lexico x y) as [?|[?|?]].
Qed.

Lemma sorted_Sorted (l : list A) : Sorted tuple_le (sorted l).
Proof. apply (Sorted_merge_sort tuple_le). Qed.

Lemma sorted_Permutation (l : list A) : sorted l ≡ₚ l.
Proof. apply merge_sort_Permutation. Qed.

Lemma sorted_perm_eq (l1 l2 : list A) : l1 ≡ₚ l2 → sorted l1 = sorted l2.
Proof.
  intros Hp. apply (Sorted_unique tuple_le); [apply sorted_Sorted..|].
  by rewrite !sorted_Permutation.
Qed.

Lemma sorted_idemp (l : list A) : sorted (sorted l) = sorted l.
Proof. apply sorted_perm_eq, sorted_Permutation. Qed.

Lemma elem_of_sorted (x : A) l : x ∈ sorted l ↔ x ∈ l.
Proof. by rewrite sorted_Permutation. Qed.

Lemma length_sorted (l : list A) : length (sorted l) = length l.
Proof. by rewrite sorted_Permutation. Qed.

Lemma NoDup_sorted (l : list A) : NoDup (sorted l) ↔ NoDup l.
Proof. by rewrite sorted_Permutation. Qed.
End tuple_order_facts.

(** ** Canonical keys *)

Lemma sort_entry_same e1 e2 : same_entry e1 e2 → sort_entry e1 = sort_entry e2.
Proof.
  destruct e1 as [v1 p1], e2 as [v2 p2]; intros [Hv Hp]; simpl in *.
  unfold sort_entry; simpl. subst v2. f_equal. by apply sorted_perm_eq.
Qed.

Lemma sort_entry_idemp e : sort_entry (sort_entry e) = sort_entry e.
Proof. unfold sort_entry; simpl. by rewrite sorted_idemp. Qed.

Lemma state_to_key_idemp s : state_to_key (state_to_key s) = state_to_key s.
Proof.
  destruct s as [m sn]. unfold state_to_key. f_equal; [apply sorted_idemp|].
  apply sorted_perm_eq. rewrite sorted_Permutation.
  rewrite <-list_fmap_compose.
  erewrite list_fmap_ext; [reflexivity|]. intros i e _. apply sort_entry_idemp.
Qed.

Lemma state_to_key_order m1 m2 seen1 seen2 :
  m1 ≡ₚ m2 → same_memory seen1 seen2 →
  state_to_key (m1, seen1) = state_to_key (m2, seen2).
Proof.
  intros Hm (sn & Hp & Hf). unfold state_to_key. f_equal.
  { by apply sorted_perm_eq. }
  apply sorted_perm_eq. rewrite Hp.
  assert (sort_entry <$> sn = sort_entry <$> seen2) as ->; [|done].
  clear Hp. induction Hf as [|e1 e2 l1 l2 He _ IH]; [done|].
  rewrite !fmap_cons. f_equal; [by apply sort_entry_same|done].
Qed.

(** ** The loop of the planner *)

Lemma relax_expansions tp key g succs σ :
  expansions (fold_left (relax tp key g) succs σ) = expansions σ.
Proof.
  revert σ. induction succs as [|[[a s] c] succs IH]; intros σ; [done|].
  simpl. rewrite IH. unfold relax. by destruct (improves _ _).
Qed.

Lemma astar_step_continue game mx σ σ' :
  astar_step game mx σ = Continue σ' →
  expansions σ' = expansions σ + 1 ∧ expansions σ + 1 ≤ mx.
Proof.
  unfold astar_step. destruct (heappop _) as [[node rest]|]; [|done].
  destruct (is_goal _ _).
  { by destruct (reconstruct _ _ _ _). }
  case_bool_decide as Hmx; [done|].
  destruct (successors_state _ _); [|done..].
  intros [= <-]. rewrite relax_expansions. simpl. lia.
Qed.

Lemma astar_step_none game mx σ :
  astar_step game mx σ = Return None ↔
  frontier_empty σ ∨ budget_exceeded game mx σ.
Proof.
  unfold astar_step, frontier_empty, budget_exceeded. split.
  - destruct (heappop (frontier σ)) as [[node rest]|] eqn:Hpop.
    + destruct (is_goal _ _) eqn:Hgoal.
      { by destruct (reconstruct _ _ _ _). }
      case_bool_decide as Hmx.
      * intros _. right. by exists node, rest.
      * by destruct (successors_state _ _).
    + intros _. left. by destruct (frontier σ) as [|x h]; [|simpl in Hpop; destruct (heappop h) as [[??]|]; [case_decide|]].
  - intros [Hnil|(node & rest & -> & -> & Hmx)].
    + by rewrite Hnil.
    + by rewrite bool_decide_eq_true_2.
Qed.

Lemma iterate_expansions n game mx σ σ' :
  iterate n game mx σ = Some σ' →
  expansions σ' = expansions σ + Z.of_nat n ∧
  ((0 < n)%nat → expansions σ' ≤ mx).
Proof.
  revert σ. induction n as [|n IH]; intros σ; simpl.
  { intros [= <-]. split; [lia|]. lia. }
  destruct (astar_step game mx σ) as [|σ1| |] eqn:Hstep; try done.
  intros Hit. apply astar_step_continue in Hstep as [He Hle].
  destruct (IH _ Hit) as [He' Hle']. split; [lia|].
  intros _. destruct n; [|apply Hle'; lia].
  simpl in Hit. injection Hit as <-. lia.
Qed.

Lemma astar_loop_iterate fuel game mx σ r :
  astar_loop fuel game mx σ = Ok r →
  ∃ n σ', (n < fuel)%nat ∧ iterate n game mx σ = Some σ' ∧
          astar_step game mx σ' = Return r.
Proof.
  revert σ. induction fuel as [|fuel IH]; intros σ; simpl; [done|].
  destruct (astar_step game mx σ) as [r'|σ1|e|] eqn:Hstep; try done.
  - intros [= ->]. exists O, σ. split; [lia|]. done.
  - intros Hl. destruct (IH _ Hl) as (n & σ' & Hn & Hit & Hr).
    exists (S n), σ'. split; [lia|]. simpl. by rewrite Hstep.
Qed.

Lemma iterate_astar_loop n fuel game mx σ σ' r :
  (n < fuel)%nat → iterate n game mx σ = Some σ' →
  astar_step game mx σ' = Return r →
  astar_loop fuel game mx σ = Ok r.
Proof.
  revert fuel σ. induction n as [|n IH]; intros fuel σ Hn; simpl.
  - intros [= <-] Hr. destruct fuel; [lia|]. simpl. by rewrite Hr.
  - destruct (astar_step game mx σ) as [|σ1| |] eqn:Hstep; try done.
    intros Hit Hr. destruct fuel; [lia|]. simpl. rewrite Hstep.
    apply IH; [lia|done..].
Qed.

Lemma iterate_within_budget n game mx init σ' :
  iterate n game mx (astar_init init game) = Some σ' →
  (n < S (Z.to_nat mx))%nat.
Proof.
  intros Hit. apply iterate_expansions in Hit as [He Hle].
  destruct n; [lia|]. simpl in He. lia.
Qed.

(** C10.  When the matched count of the initial state is already
    [total_pairs], [astar_plan] returns the empty plan, for every
    [max_expansions]: the goal test on the popped node comes before the
    budget check. *)
Theorem astar_plan_goal_at_start initial_state game max_expansions :
  is_goal (MemoriceGame.total_pairs game) initial_state = true →
  astar_plan initial_state game max_expansions = Ok (Some []).
Proof.
  intros Hgoal. unfold astar_plan. simpl. unfold astar_step. simpl.
  rewrite Hgoal. rewrite lookup_singleton_eq. done.
Qed.

Lemma astar_plan_goal_at_start_witness :
  let game := MemoriceGame.mk 2 2 board_a
                (list_to_set [(0, 0); (0, 1); (1, 0); (1, 1)]%nat) 2 [] in
  is_goal (MemoriceGame.total_pairs game) (snapshot game) = true ∧
  astar_plan (snapshot game) game 0 = Ok (Some []).
Proof.
  intros game.
  assert (Hg : is_goal (MemoriceGame.total_pairs game) (snapshot game) = true)
    by (vm_compute; reflexivity).
  split; [exact Hg|].
  exact (astar_plan_goal_at_start (snapshot game) game 0 Hg).
Defined.

(** C4.  [astar_plan] returns [None] exactly when, after some number of
    iterations, the frontier is empty or the node popped is not a goal and
    the expansion counter passes [max_expansions]; with [max_expansions = 0]
    and an initial state that is not a goal, the result is [None]. *)
Theorem astar_plan_failure initial_state game :
  (∀ max_expansions,
     astar_plan initial_state game max_expansions = Ok None ↔
     ∃ n σ,
       iterate n game max_expansions (astar_init initial_state game) = Some σ ∧
       (frontier_empty σ ∨ budget_exceeded game max_expansions σ)) ∧
  (is_goal (MemoriceGame.total_pairs game) initial_state = false →
   astar_plan initial_state game 0 = Ok None).
Proof.
  split.
  - intros mx. unfold astar_plan. split.
    + intros Hl. apply astar_loop_iterate in Hl as (n & σ & _ & Hit & Hr).
      exists n, σ. split; [done|]. by apply astar_step_none.
    + intros (n & σ & Hit & Hr). apply astar_step_none in Hr.
      eapply iterate_astar_loop; [|done..].
      by eapply iterate_within_budget.
  - intros Hgoal. unfold astar_plan. simpl. unfold astar_step. simpl.
    by rewrite Hgoal.
Qed.

Lemma astar_plan_failure_witness :
  is_goal (MemoriceGame.total_pairs (game22 board_a)) ([], []) = false ∧
  astar_plan ([], []) (game22 board_a) 0 = Ok None.
Proof.
  assert (Hg : is_goal (MemoriceGame.total_pairs (game22 board_a)) ([], []) = false)
    by reflexivity.
  split; [exact Hg|].
  exact (proj2 (astar_plan_failure ([], []) (game22 board_a)) Hg).
Defined.

(** ** The shape of the successors *)

Lemma mapM_Ok {A B} (k : A → result B) l bs :
  mapM k l = Ok bs → Forall2 (λ a b, k a = Ok b) l bs.
Proof.
  revert bs. induction l as [|a l IH]; intros bs; simpl.
  { intros [= <-]. constructor. }
  destruct (k a) as [b| |] eqn:Hk; simpl; try done.
  destruct (mapM k l) as [bs'| |]; simpl; try done.
  intros [= <-]. constructor; [done|]. by apply IH.
Qed.

Lemma mapM_Ok_elem {A B} (k : A → result B) l bs b :
  mapM k l = Ok bs → b ∈ bs → ∃ a, a ∈ l ∧ k a = Ok b.
Proof.
  intros Hm%mapM_Ok Hb. induction Hm as [|a b' l bs Hk _ IH].
  { by apply elem_of_nil in Hb. }
  apply elem_of_cons in Hb as [->|Hb].
  - exists a. split; [left|done].
  - destruct (IH Hb) as (a' & ? & ?). exists a'. split; [by right|done].
Qed.

Lemma mapM_total {A B} (k : A → result B) l :
  (∀ a, a ∈ l → ∃ b, k a = Ok b) → ∃ bs, mapM k l = Ok bs.
Proof.
  induction l as [|a l IH]; intros Hk; simpl; [by eexists|].
  destruct (Hk a) as [b ->]; [left|]. simpl.
  destruct IH as [bs ->]; [intros a' ?; apply Hk; by right|].
  simpl. by eexists.
Qed.

Lemma known_pair_spec ms sm e s :
  s ∈ known_pair ms sm e →
  ∃ p1 p2 rest,
    filter (λ p, p ∉ ms) e.2 = p1 :: p2 :: rest ∧
    s = ((Match, (p1, p2)), freeze ({[p2]} ∪ ({[p1]} ∪ ms)) (forget_pair p1 p2 sm), 1).
Proof.
  destruct e as [val poses]. unfold known_pair. case_decide; [|by intros ?%elem_of_nil].
  simpl. destruct (filter _ poses) as [|p1 [|p2 rest]] eqn:Hav;
    [by intros ?%elem_of_nil..|].
  intros ->%list_elem_of_singleton. by exists p1, p2, rest.
Qed.

Lemma reveal_spec game ms sm c d s :
  reveal game ms sm c d = Ok s →
  ∃ v_c v_d,
    MemoriceGame.value_at game c = Ok v_c ∧
    MemoriceGame.value_at game d = Ok v_d ∧
    s = ((Turn, (c, d)),
         freeze (reveal_matched ms v_c v_d c d) (reveal_seen sm v_c v_d c d), 1).
Proof.
  unfold reveal, reveal_matched, reveal_seen.
  destruct (MemoriceGame.value_at game c) as [v_c| |]; simpl; try done.
  destruct (MemoriceGame.value_at game d) as [v_d| |]; simpl; try done.
  intros Hs. exists v_c, v_d. split; [done|]. split; [done|].
  destruct (decide (v_c = v_d ∧ c ≠ d)); by injection Hs as <-.
Qed.

Lemma reveal_total game ms sm c d v_c v_d :
  MemoriceGame.value_at game c = Ok v_c →
  MemoriceGame.value_at game d = Ok v_d →
  ∃ s, reveal game ms sm c d = Ok s.
Proof.
  intros Hc Hd. unfold reveal. rewrite Hc, Hd. simpl.
  destruct (decide (v_c = v_d ∧ c ≠ d)); by eexists.
Qed.

Lemma explore_spec game ms sm succs s :
  explore game ms sm = Ok succs → s ∈ succs →
  ∃ c d,
    c ∈ candidates_of game ms sm ∧
    (d ∈ memory_partners ms sm c ∨ d ∈ blind_partners game ms c) ∧
    reveal game ms sm c d = Ok s.
Proof.
  unfold explore.
  destruct (mapM _ (candidates_of game ms sm)) as [per| |] eqn:Hper;
    simpl; try done.
  intros [= <-] Hs. apply list_elem_of_join in Hs as (l & Hs & Hl).
  destruct (mapM_Ok_elem _ _ _ _ Hper Hl) as (c & Hc & Hex).
  unfold explore_candidate in Hex.
  destruct (mapM _ (memory_partners ms sm c)) as [l1| |] eqn:H1; simpl in Hex; try done.
  destruct (mapM _ (blind_partners game ms c)) as [l2| |] eqn:H2; simpl in Hex; try done.
  injection Hex as <-. apply elem_of_app in Hs as [Hs|Hs].
  - destruct (mapM_Ok_elem _ _ _ _ H1 Hs) as (d & Hd & Hr).
    exists c, d. auto.
  - destruct (mapM_Ok_elem _ _ _ _ H2 Hs) as (d & Hd & Hr).
    exists c, d. auto.
Qed.

Lemma successors_state_spec matched seen game succs s :
  successors_state (matched, seen) game = Ok succs → s ∈ succs →
  let ms : gset pos := list_to_set matched in
  let sm := to_dict seen in
  (∃ e, e ∈ sm ∧ s ∈ known_pair ms sm e) ∨
  (known_pairs ms sm = [] ∧
   ∃ c d,
     c ∈ candidates_of game ms sm ∧
     (d ∈ memory_partners ms sm c ∨ d ∈ blind_partners game ms c) ∧
     reveal game ms sm c d = Ok s).
Proof.
  intros Hsucc Hs ms sm. unfold successors_state in Hsucc. fold ms sm in Hsucc.
  destruct (known_pairs ms sm) as [|s0 l] eqn:Hk.
  - right. split; [done|]. by eapply explore_spec.
  - left. injection Hsucc as <-. rewrite <-Hk in Hs. unfold known_pairs in Hs.
    apply list_elem_of_bind in Hs as (e & ? & ?). exists e. by split.
Qed.

(** ** The heuristic *)

Lemma size_list_to_set_le (l : list pos) :
  (base.size (list_to_set l : gset pos) ≤ length l)%nat.
Proof.
  induction l as [|x l IH].
  { rewrite list_to_set_nil, size_empty. done. }
  rewrite list_to_set_cons, size_union_alt, size_singleton. simpl.
  assert (base.size (list_to_set l ∖ {[x]} : gset pos)
          ≤ base.size (list_to_set l : gset pos))%nat; [|lia].
  by apply subseteq_size, subseteq_difference_l.
Qed.

Lemma size_add_pair (M : gset pos) p1 p2 :
  (base.size ({[p2]} ∪ ({[p1]} ∪ M)) ≤ base.size M + 2)%nat.
Proof.
  rewrite size_union_alt, size_singleton.
  assert (base.size (({[p1]} ∪ M) ∖ {[p2]}) ≤ base.size ({[p1]} ∪ M))%nat
    by (by apply subseteq_size, subseteq_difference_l).
  assert (base.size ({[p1]} ∪ M) ≤ 1 + base.size M)%nat; [|lia].
  rewrite size_union_alt, size_singleton.
  assert (base.size (M ∖ {[p1]}) ≤ base.size M)%nat; [|lia].
  by apply subseteq_size, subseteq_difference_l.
Qed.

Lemma length_freeze M new_seen : length (freeze M new_seen).1 = base.size M.
Proof. unfold freeze. simpl. by rewrite length_sorted. Qed.

Lemma successor_matched_bound matched seen game succs a s' c :
  successors_state (matched, seen) game = Ok succs → (a, s', c) ∈ succs →
  (length s'.1 ≤ length matched + 2)%nat ∧ c = 1.
Proof.
  intros Hsucc Hs. pose proof (size_list_to_set_le matched) as Hle.
  destruct (successors_state_spec _ _ _ _ _ Hsucc Hs)
    as [(e & _ & Hk)|(_ & c0 & d & _ & _ & Hr)].
  - apply known_pair_spec in Hk as (p1 & p2 & rest & _ & [= -> -> ->]).
    split; [|done]. rewrite length_freeze.
    pose proof (size_add_pair (list_to_set matched) p1 p2). lia.
  - apply reveal_spec in Hr as (v_c & v_d & _ & _ & [= -> -> ->]).
    split; [|done]. rewrite length_freeze. unfold reveal_matched.
    case_decide; [|lia].
    pose proof (size_add_pair (list_to_set matched) c0 d). lia.
Qed.

Lemma successor_matched_pairs s game succs a s' c :
  successors_state s game = Ok succs → (a, s', c) ∈ succs →
  matched_pairs s' ≤ matched_pairs s + 1.
Proof.
  destruct s as [matched seen]. intros Hsucc Hs.
  destruct (successor_matched_bound _ _ _ _ _ _ _ Hsucc Hs) as [Hlen _].
  unfold matched_pairs. simpl.
  replace (Z.of_nat (length matched) `div` 2 + 1)
    with ((Z.of_nat (length matched) + 1 * 2) `div` 2)
    by (rewrite Z.div_add; lia).
  apply Z.div_le_mono; lia.
Qed.

(** C3.  The heuristic is [total_pairs] minus the number of matched pairs;
    one generated transition raises the number of matched pairs by at most
    one; so every path of generated transitions from a state to a goal state
    has at least as many transitions as the heuristic of the state says. *)
Theorem heuristic_admissible game total_pairs s :
  heuristic_state s total_pairs = total_pairs - matched_pairs s ∧
  (∀ succs a s' c,
     successors_state s game = Ok succs → (a, s', c) ∈ succs →
     matched_pairs s' ≤ matched_pairs s + 1) ∧
  (∀ n goal,
     path game s n goal → is_goal total_pairs goal = true →
     heuristic_state s total_pairs ≤ Z.of_nat n).
Proof.
  assert (Hh : ∀ st, heuristic_state st total_pairs = total_pairs - matched_pairs st)
    by (by intros [??]).
  split; [apply Hh|]. split; [apply successor_matched_pairs|].
  intros n goal Hpath Hgoal. rewrite Hh.
  induction Hpath as [st|st succs a s1 c n s' Hsucc Hin _ IH].
  - unfold is_goal in Hgoal. apply bool_decide_eq_true_1 in Hgoal.
    unfold matched_pairs. lia.
  - specialize (IH Hgoal).
    pose proof (successor_matched_pairs _ _ _ _ _ _ Hsucc Hin). lia.
Qed.

Lemma heuristic_admissible_witness :
  let s : SearchState := ([], []) in
  let goal : SearchState := ([(0, 0); (0, 1); (1, 0); (1, 1)]%nat, []) in
  path (game22 board_a) s 2 goal ∧ is_goal 2 goal = true ∧
  heuristic_state s 2 ≤ 2.
Proof.
  intros s goal.
  assert (Hp : path (game22 board_a) s 2 goal).
  { eapply (path_step _ s _ (Turn, ((0, 0), (1, 1)))%nat
              ([(0, 0); (1, 1)]%nat, []) 1).
    - vm_compute. reflexivity.
    - do 2 right. left.
    - eapply (path_step _ _ _ (Turn, ((0, 1), (1, 0)))%nat goal 1).
      + vm_compute. reflexivity.
      + left.
      + apply path_here. }
  assert (Hg : is_goal 2 goal = true) by reflexivity.
  split; [exact Hp|]. split; [exact Hg|].
  exact (proj2 (proj2 (heuristic_admissible (game22 board_a) 2 s)) 2%nat goal Hp Hg).
Defined.

(** ** Phase 1: known pairs *)

Lemma dict_set_fresh {V} (d : list (value * V)) k v :
  k ∉ d.*1 → dict_set d k v = d ++ [(k, v)].
Proof.
  induction d as [|[k' v'] d IH]; simpl; [done|].
  intros Hk. apply not_elem_of_cons in Hk as [Hne Hk].
  rewrite decide_False by done. by rewrite IH.
Qed.

Lemma fold_dict_set_fresh (seen d : list entry) :
  NoDup (d ++ seen).*1 →
  fold_left (λ d '(val, poses), dict_set d val poses) seen d = d ++ seen.
Proof.
  revert d. induction seen as [|[k v] seen IH]; intros d Hnd; simpl.
  { by rewrite app_nil_r. }
  rewrite dict_set_fresh.
  - rewrite IH; rewrite <-app_assoc; done.
  - rewrite fmap_app in Hnd. apply NoDup_app in Hnd as (_ & Hd & _).
    intros Hk. apply (Hd k Hk). left.
Qed.

Lemma to_dict_NoDup seen : NoDup seen.*1 → to_dict seen = seen.
Proof. intros Hnd. by apply (fold_dict_set_fresh seen []). Qed.

Lemma filter_length_le {A} (P : A → Prop) `{∀ x, Decision (P x)} (l : list A) :
  (length (filter P l) ≤ length l)%nat.
Proof. apply length_filter. Qed.

Lemma known_pair_cases ms sm0 e :
  NoDup e.2 →
  (has_known_pair ms e ∧ ∃ s, known_pair ms sm0 e = [s] ∧ is_match_of ms e s) ∨
  (¬ has_known_pair ms e ∧ known_pair ms sm0 e = []).
Proof.
  destruct e as [val poses]. unfold has_known_pair, known_pair. simpl.
  intros Hnd.
  pose proof (filter_length_le (λ p, p ∉ ms) poses) as Hle.
  assert (Hsub : ∀ p, p ∈ filter (λ p, p ∉ ms) poses → p ∈ poses ∧ p ∉ ms).
  { intros p Hp. apply list_elem_of_filter in Hp. tauto. }
  assert (Hndf : NoDup (filter (λ p, p ∉ ms) poses)) by (by apply NoDup_filter).
  revert Hle Hsub Hndf.
  generalize (filter (λ p, p ∉ ms) poses). intros [|p1 [|p2 rest]] Hle Hsub Hndf.
  - right. simpl. split; [lia|]. by destruct (decide _).
  - right. simpl. split; [lia|]. by destruct (decide _).
  - left. simpl in *. split; [lia|]. rewrite decide_True by lia.
    eexists. split; [done|]. exists p1, p2. simpl.
    destruct (Hsub p1) as [??]; [left|].
    destruct (Hsub p2) as [??]; [right; left|].
    apply NoDup_cons in Hndf as [Hne _].
    repeat split; try done. intros ->. apply Hne. left.
Qed.

Lemma known_pair_matches ms sm0 sm :
  Forall (λ e, NoDup e.2) sm →
  Forall2 (is_match_of ms) (filter (has_known_pair ms) sm)
          (sm ≫= known_pair ms sm0).
Proof.
  induction sm as [|e sm IH]; intros Hnd; [constructor|].
  apply Forall_cons in Hnd as [Hnde Hnd]. specialize (IH Hnd).
  change ((e :: sm) ≫= known_pair ms sm0)
    with (known_pair ms sm0 e ++ (sm ≫= known_pair ms sm0)).
  destruct (known_pair_cases ms sm0 e Hnde) as [(HP & s & -> & Hs)|[HP ->]].
  - rewrite filter_cons_True by done. simpl. by constructor.
  - by rewrite filter_cons_False.
Qed.

(** C2.  When some remembered value has two unmatched positions or more,
    the successors are exactly one match per such value, in the order of the
    memory: each pairs two different unmatched positions of its value and
    costs 1; there is no exploratory turn among them. *)
Theorem known_pairs_only matched seen game :
  NoDup seen.*1 → Forall (λ e, NoDup e.2) seen →
  Exists (has_known_pair (list_to_set matched)) seen →
  ∃ succs,
    successors_state (matched, seen) game = Ok succs ∧
    Forall2 (is_match_of (list_to_set matched))
            (filter (has_known_pair (list_to_set matched)) seen) succs.
Proof.
  intros Hkeys Hnd Hex. unfold successors_state. rewrite to_dict_NoDup by done.
  pose proof (known_pair_matches (list_to_set matched) seen seen Hnd) as HF.
  change (seen ≫= known_pair (list_to_set matched) seen)
    with (known_pairs (list_to_set matched) seen) in HF.
  destruct (known_pairs (list_to_set matched) seen) as [|s l] eqn:Hk.
  - exfalso. apply Forall2_nil_inv_r in HF.
    apply Exists_exists in Hex as (e & He & HP).
    assert (e ∈ filter (has_known_pair (list_to_set matched)) seen) as Hin
      by (by apply list_elem_of_filter).
    rewrite HF in Hin. by apply elem_of_nil in Hin.
  - eexists. split; [reflexivity|exact HF].
Qed.

Lemma known_pairs_only_witness :
  let matched : list pos := [] in
  let seen : list entry := [(1, [(0, 0); (1, 1)]%nat); (2, [(0, 1)]%nat)] in
  NoDup seen.*1 ∧ Forall (λ e, NoDup e.2) seen ∧
  Exists (has_known_pair (list_to_set matched)) seen ∧
  ∃ succs,
    successors_state (matched, seen) (game22 board_a) = Ok succs ∧
    Forall2 (is_match_of (list_to_set matched))
            (filter (has_known_pair (list_to_set matched)) seen) succs.
Proof.
  intros matched seen.
  assert (H1 : NoDup seen.*1) by (apply (bool_decide_unpack _); vm_compute; exact I).
  assert (H2 : Forall (λ e, NoDup e.2) seen).
  { apply (bool_decide_unpack _). vm_compute. exact I. }
  assert (H3 : Exists (has_known_pair (list_to_set matched)) seen).
  { left. unfold has_known_pair. vm_compute. lia. }
  split; [exact H1|]. split; [exact H2|]. split; [exact H3|].
  exact (known_pairs_only matched seen (game22 board_a) H1 H2 H3).
Defined.

(** ** Phase 2: exploration *)

Lemma mapM_reveal_actions game ms sm c l bs :
  mapM (reveal game ms sm c) l = Ok bs →
  (λ s : successor, s.1.1) <$> bs = (λ d, (Turn, (c, d))) <$> l.
Proof.
  intros Hm%mapM_Ok. induction Hm as [|d s l bs Hr _ IH]; [done|].
  rewrite !fmap_cons, IH. f_equal.
  by apply reveal_spec in Hr as (v_c & v_d & _ & _ & ->).
Qed.

Lemma explore_actions game ms sm succs :
  explore game ms sm = Ok succs →
  (λ s : successor, s.1.1) <$> succs =
  c ← candidates_of game ms sm; (λ d, (Turn, (c, d))) <$> partners game ms sm c.
Proof.
  unfold explore.
  destruct (mapM _ (candidates_of game ms sm)) as [per| |] eqn:Hper;
    simpl; try done.
  intros [= <-]. apply mapM_Ok in Hper.
  induction Hper as [|c l cs per Hc _ IH]; [done|].
  change (mjoin (l :: per)) with (l ++ mjoin per). rewrite fmap_app, IH.
  change ((c :: cs) ≫= ?f) with (f c ++ (cs ≫= f)). f_equal.
  unfold explore_candidate in Hc.
  destruct (mapM _ (memory_partners ms sm c)) as [l1| |] eqn:H1; simpl in Hc; try done.
  destruct (mapM _ (blind_partners game ms c)) as [l2| |] eqn:H2; simpl in Hc; try done.
  injection Hc as <-. unfold partners. rewrite !fmap_app.
  by rewrite (mapM_reveal_actions _ _ _ _ _ _ H1), (mapM_reveal_actions _ _ _ _ _ _ H2).
Qed.

Lemma elem_of_take_1 {A} (x : A) n l : x ∈ take n l → x ∈ l.
Proof.
  intros (i & Hi & _)%elem_of_take. by apply list_elem_of_lookup_2 in Hi.
Qed.

Lemma blind_partners_take game ms c :
  blind_partners game ms c = take K (filter (λ p, p ≠ c) (unmatched_of game ms)).
Proof. unfold blind_partners, others. by rewrite take_take, Nat.min_id. Qed.

(** C6, counterexample.  On [board_a] with [(0, 0)] and [(0, 1)] remembered,
    candidate [(1, 0)] has the remembered [(0, 0)] among its blind
    partners. *)
Lemma blind_partners_unseen_counterexample :
  snapshot game_one_turn = ([], [(1, [(0, 0)%nat]); (2, [(0, 1)%nat])]) ∧
  ¬ blind_partners_unseen game_one_turn (snapshot game_one_turn).
Proof.
  split; [by vm_compute|]. intros Hclaim.
  apply (Hclaim eq_refl (1, 0)%nat (0, 0)%nat).
  - vm_compute. left.
  - vm_compute. left.
  - vm_compute. left.
Qed.

(** C6, amended.  In the exploration phase the actions are, candidate by
    candidate, the turns with the remembered unmatched positions followed by
    the turns with the blind partners; the blind partners of [c] are the
    first [K] unmatched positions of the board other than [c], remembered
    or not, so they are at most [K], unmatched and different from [c]. *)
Theorem blind_partners_unmatched game matched seen :
  let ms : gset pos := list_to_set matched in
  let sm := to_dict seen in
  (∀ succs,
     known_pairs ms sm = [] →
     successors_state (matched, seen) game = Ok succs →
     (λ s : successor, s.1.1) <$> succs =
     c ← candidates_of game ms sm; (λ d, (Turn, (c, d))) <$> partners game ms sm c) ∧
  (∀ c,
     blind_partners game ms c
       = take K (filter (λ p, p ≠ c) (unmatched_of game ms)) ∧
     (length (blind_partners game ms c) ≤ K)%nat ∧
     ∀ d, d ∈ blind_partners game ms c →
          d ≠ c ∧ (d ∉ ms) ∧ d ∈ MemoriceGame.all_positions game).
Proof.
  intros ms sm. split.
  - intros succs Hk Hsucc. unfold successors_state in Hsucc.
    fold ms sm in Hsucc. rewrite Hk in Hsucc. by apply explore_actions.
  - intros c. split; [apply blind_partners_take|]. split.
    + rewrite blind_partners_take, length_take. lia.
    + intros d. rewrite blind_partners_take. intros Hd%elem_of_take_1.
      apply list_elem_of_filter in Hd as [Hne Hd].
      apply list_elem_of_filter in Hd as [Hms Hd]. done.
Qed.

Lemma blind_partners_unmatched_witness :
  let st := snapshot game_one_turn in
  let ms : gset pos := list_to_set st.1 in
  let sm := to_dict st.2 in
  known_pairs ms sm = [] ∧
  (0, 0)%nat ∈ blind_partners game_one_turn ms (1, 0)%nat ∧
  (0, 0)%nat ≠ (1, 0)%nat ∧ ((0, 0)%nat ∉ ms) ∧
  (0, 0)%nat ∈ MemoriceGame.all_positions game_one_turn.
Proof.
  intros st ms sm.
  assert (Hd : (0, 0)%nat ∈ blind_partners game_one_turn ms (1, 0)%nat)
    by (vm_compute; left).
  split; [by vm_compute|]. split; [exact Hd|].
  exact (proj2 (proj2 (proj2 (blind_partners_unmatched game_one_turn st.1 st.2)
                         (1, 0)%nat)) (0, 0)%nat Hd).
Defined.

(** ** The order of the frontier *)

Lemma heappop_least heap m rest :
  heappop heap = Some (m, rest) →
  heap ≡ₚ m :: rest ∧ ∀ x, x ∈ rest → tuple_le m x.
Proof.
  revert m rest. induction heap as [|x heap IH]; intros m rest; simpl; [done|].
  destruct (heappop heap) as [[m' rest']|] eqn:Hpop.
  - destruct (IH _ _ eq_refl) as [Hperm Hle].
    destruct (decide (lexico m' x)) as [Hlt|Hge]; intros [= <- <-].
    + split; [by rewrite Hperm, Permutation_swap|].
      intros y [->|Hy]%elem_of_cons; [|by apply Hle].
      intros Hxm. by apply (irreflexivity lexico x); trans m'.
    + split; [done|]. intros y Hy. rewrite Hperm in Hy.
      apply elem_of_cons in Hy as [->|Hy]; [done|].
      trans m'; [done|by apply Hle].
  - intros [= <- <-]. destruct heap as [|y heap]; [|simpl in Hpop].
    + split; [done|]. by intros y ?%elem_of_nil.
    + by destruct (heappop heap) as [[??]|]; [case_decide|].
Qed.

Lemma node_le_fields (m x : Node.t) :
  tuple_le m x →
  Node.f m ≤ Node.f x ∧
  (Node.f x = Node.f m →
   Node.g m ≤ Node.g x ∧
   (Node.g x = Node.g m → tuple_le (Node.state m) (Node.state x))).
Proof.
  unfold tuple_le, lexico at 1, node_lexico, Node.as_tuple.
  unfold lexico at 1, prod_lexico. simpl. intros Hle.
  assert (¬ lexico (Node.f x) (Node.f m)) as Hf by tauto.
  unfold lexico, Z_lexico in Hf. split; [lia|]. intros Hfe.
  assert (¬ lexico (Node.g x) (Node.g m)) as Hg.
  { intros Hg. apply Hle. right. split; [done|]. by left. }
  unfold lexico, Z_lexico in Hg. split; [lia|]. intros Hge Hs.
  apply Hle. right. split; [done|]. right. split; [done|]. by left.
Qed.

Lemma relax_frontier_f tp key g succs σ :
  Forall (f_is_g_plus_h tp) (frontier σ) →
  Forall (f_is_g_plus_h tp) (frontier (fold_left (relax tp key g) succs σ)).
Proof.
  revert σ. induction succs as [|[[a s] c] succs IH]; intros σ Hσ; [done|].
  simpl. apply IH. unfold relax. destruct (improves _ _); [|done].
  simpl. unfold heappush. apply Forall_app. split; [done|].
  by repeat constructor.
Qed.

Lemma heappop_rest_subset heap m rest x :
  heappop heap = Some (m, rest) → x ∈ rest → x ∈ heap.
Proof.
  intros [Hperm _]%heappop_least Hx. rewrite Hperm. by right.
Qed.

Lemma astar_step_frontier_f game mx σ σ' :
  Forall (f_is_g_plus_h (MemoriceGame.total_pairs game)) (frontier σ) →
  astar_step game mx σ = Continue σ' →
  Forall (f_is_g_plus_h (MemoriceGame.total_pairs game)) (frontier σ').
Proof.
  intros Hσ. unfold astar_step.
  destruct (heappop (frontier σ)) as [[node rest]|] eqn:Hpop; [|done].
  destruct (is_goal _ _).
  { by destruct (reconstruct _ _ _ _). }
  case_bool_decide; [done|].
  destruct (successors_state _ _); [|done..].
  intros [= <-]. apply relax_frontier_f. simpl.
  apply Forall_forall. intros x Hx. rewrite Forall_forall in Hσ.
  apply Hσ. by eapply heappop_rest_subset.
Qed.

Lemma iterate_frontier_f n game mx σ σ' :
  Forall (f_is_g_plus_h (MemoriceGame.total_pairs game)) (frontier σ) →
  iterate n game mx σ = Some σ' →
  Forall (f_is_g_plus_h (MemoriceGame.total_pairs game)) (frontier σ').
Proof.
  revert σ. induction n as [|n IH]; intros σ Hσ; simpl.
  { by intros [= <-]. }
  destruct (astar_step game mx σ) as [|σ1| |] eqn:Hstep; try done.
  apply IH. by eapply astar_step_frontier_f.
Qed.

Lemma frontier44_pop :
  ∃ m rest x0 tl,
    frontier44 = x0 :: tl ∧ heappop frontier44 = Some (m, rest) ∧
    Node.f <$> frontier44 = replicate 21 9 ∧
    Node.action x0 = Some (Turn, ((0, 0), (0, 1))%nat) ∧
    Node.action m = Some (Turn, ((1, 1), (1, 2))%nat).
Proof. vm_compute. eexists _, _, _, _. repeat split. Qed.

(** C9, counterexample.  After the expansion of the root on [board44] all
    21 nodes of the frontier have [f = 9]; the first one inserted is the
    turn of [(0, 0)] and [(0, 1)], the one popped is the turn of [(1, 1)]
    and [(1, 2)], the least state tuple. *)
Lemma pops_fifo_counterexample :
  Node.action <$> head frontier44
    = Some (Some (Turn, ((0, 0), (0, 1))%nat)) ∧
  Node.f <$> frontier44 = replicate 21 9 ∧
  (Node.action ∘ fst) <$> heappop frontier44
    = Some (Some (Turn, ((1, 1), (1, 2))%nat)) ∧
  ¬ pops_fifo frontier44.
Proof.
  destruct frontier44_pop as (m & rest & x0 & tl & Hfr & Hpop & Hf & Ha0 & Ha).
  revert Hfr Hpop Hf. generalize frontier44 as heap. intros heap -> Hpop Hf.
  split; [simpl; by rewrite Ha0|]. split; [exact Hf|].
  split; [rewrite Hpop; simpl; by rewrite Ha|].
  intros Hfifo.
  destruct (Hfifo m rest Hpop) as (l1 & l2 & Hheap & _ & Hl1 & _).
  assert (Hfm : Node.f m = 9 ∧ Node.f x0 = 9).
  { assert (Hall : ∀ x, x ∈ x0 :: tl → Node.f x = 9).
    { intros x Hx. apply (list_elem_of_fmap_2 Node.f) in Hx.
      rewrite Hf in Hx. by apply elem_of_replicate in Hx as [? _]. }
    split; apply Hall; [|left].
    rewrite Hheap. apply elem_of_app. right. left. }
  destruct Hfm as [Hfm Hf0].
  destruct l1 as [|y l1]; simpl in Hheap; injection Hheap as -> _.
  - rewrite Ha in Ha0. discriminate.
  - specialize (Hl1 y). rewrite Hfm, Hf0 in Hl1.
    assert (9 < 9) by (apply Hl1; left). lia.
Qed.

(** C9, amended.  Every node on the frontier has [f = g + h], and the node
    popped is the least in the tuple order of the nodes: no other node has a
    smaller [f]; among the nodes of the same [f] none has a smaller [g]; and
    among those of the same [f] and [g] none has a smaller state tuple.
    The order of insertion plays no part. *)
Theorem frontier_order initial_state game max_expansions n σ :
  iterate n game max_expansions (astar_init initial_state game) = Some σ →
  Forall (f_is_g_plus_h (MemoriceGame.total_pairs game)) (frontier σ) ∧
  ∀ m rest,
    heappop (frontier σ) = Some (m, rest) →
    frontier σ ≡ₚ m :: rest ∧
    ∀ x, x ∈ rest →
      tuple_le m x ∧
      Node.f m ≤ Node.f x ∧
      (Node.f x = Node.f m →
       Node.g m ≤ Node.g x ∧
       (Node.g x = Node.g m → tuple_le (Node.state m) (Node.state x))).
Proof.
  intros Hit. split.
  - eapply iterate_frontier_f; [|done]. simpl. repeat constructor.
  - intros m rest Hpop. apply heappop_least in Hpop as [Hperm Hle].
    split; [done|]. intros x Hx. split; [by apply Hle|].
    by apply node_le_fields, Hle.
Qed.

Lemma frontier_order_witness :
  ∃ σ,
    iterate 1 (game22 board_a) 10 (astar_init ([], []) (game22 board_a)) = Some σ ∧
    Forall (f_is_g_plus_h 2) (frontier σ).
Proof.
  assert (Hit : ∃ σ, iterate 1 (game22 board_a) 10
                       (astar_init ([], []) (game22 board_a)) = Some σ).
  { vm_compute. eexists. reflexivity. }
  destruct Hit as [σ Hit]. exists σ. split; [exact Hit|].
  exact (proj1 (frontier_order ([], []) (game22 board_a) 10 1 σ Hit)).
Defined.

(** ** Dictionaries *)

Section dict_facts.
Context {K V : Type} `{EqDecision K}.
Implicit Types (d : list (K * V)) (k : K) (v : V).

Lemma dict_get_elem d k v : dict_get d k = Some v → (k, v) ∈ d.
Proof.
  induction d as [|[k' v'] d IH]; simpl; [done|].
  case_decide as Hk; [intros [= ->]; subst; left|intros ?; right; auto].
Qed.

Lemma dict_get_None d k : dict_get d k = None ↔ k ∉ d.*1.
Proof.
  induction d as [|[k' v'] d IH]; simpl.
  { split; [intros _ ?%elem_of_nil; done|done]. }
  rewrite not_elem_of_cons. case_decide as Hk; [subst|]; split; try done.
  - by intros [? _].
  - intros ?. split; [done|]. by apply IH.
  - intros [_ ?]. by apply IH.
Qed.

Lemma elem_dict_get d k v : NoDup d.*1 → (k, v) ∈ d → dict_get d k = Some v.
Proof.
  induction d as [|[k' v'] d IH]; simpl; [by intros _ ?%elem_of_nil|].
  intros [Hk' Hnd]%NoDup_cons [[= -> ->]|Hin]%elem_of_cons.
  { by rewrite decide_True. }
  rewrite decide_False; [by apply IH|].
  intros ->. apply Hk'. by apply (list_elem_of_fmap_2 fst) in Hin.
Qed.

Lemma dict_set_keys d k v x : x ∈ (dict_set d k v).*1 ↔ x = k ∨ x ∈ d.*1.
Proof.
  induction d as [|[k' v'] d IH]; simpl.
  { rewrite list_elem_of_singleton. split; [auto|]. by intros [?|?%elem_of_nil]. }
  case_decide as Hk; simpl; rewrite !elem_of_cons; [subst; tauto|].
  rewrite IH. tauto.
Qed.

Lemma dict_set_NoDup d k v : NoDup d.*1 → NoDup (dict_set d k v).*1.
Proof.
  induction d as [|[k' v'] d IH]; simpl.
  { intros _. apply NoDup_singleton. }
  intros [Hk' Hnd]%NoDup_cons. case_decide as Hk; simpl.
  - by apply NoDup_cons.
  - apply NoDup_cons. split; [|by apply IH].
    rewrite dict_set_keys. intros [?|?]; by subst.
Qed.

Lemma dict_set_get d k v k' :
  dict_get (dict_set d k v) k' = if decide (k = k') then Some v else dict_get d k'.
Proof.
  induction d as [|[k0 v0] d IH]; simpl.
  { by destruct (decide (k = k')). }
  destruct (decide (k0 = k)) as [->|Hk0]; simpl.
  - by destruct (decide (k = k')).
  - rewrite IH. destruct (decide (k0 = k')) as [->|?]; [|done].
    by rewrite decide_False by done.
Qed.

Lemma dict_set_elem d k v e : e ∈ dict_set d k v → e = (k, v) ∨ e ∈ d.
Proof.
  induction d as [|[k' v'] d IH]; simpl.
  { intros ->%list_elem_of_singleton. by left. }
  case_decide; intros [->|Hin]%elem_of_cons.
  - subst. by left.
  - right. by right.
  - right. left.
  - destruct (IH Hin); [by left|right; by right].
Qed.

Lemma dict_pop_keys d k x : x ∈ (dict_pop d k).*1 → x ∈ d.*1.
Proof.
  induction d as [|[k' v'] d IH]; simpl; [done|].
  case_decide; simpl; rewrite !elem_of_cons; [auto|].
  intros [?|?]; auto.
Qed.

Lemma dict_pop_NoDup d k : NoDup d.*1 → NoDup (dict_pop d k).*1.
Proof.
  induction d as [|[k' v'] d IH]; simpl; [done|].
  intros [Hk' Hnd]%NoDup_cons. case_decide; simpl; [done|].
  apply NoDup_cons. split; [|by apply IH].
  intros ?%dict_pop_keys. done.
Qed.

Lemma dict_pop_get d k k' :
  NoDup d.*1 →
  dict_get (dict_pop d k) k' = if decide (k = k') then None else dict_get d k'.
Proof.
  induction d as [|[k0 v0] d IH]; simpl.
  { by destruct (decide (k = k')). }
  intros [Hk0 Hnd]%NoDup_cons.
  destruct (decide (k0 = k)) as [->|Hne]; simpl.
  - destruct (decide (k = k')) as [<-|?]; [|done]. by apply dict_get_None.
  - rewrite IH by done. destruct (decide (k0 = k')) as [->|?]; [|done].
    by rewrite decide_False by done.
Qed.

Lemma dict_setdefault_NoDup d k v : NoDup d.*1 → NoDup (dict_setdefault d k v).*1.
Proof.
  unfold dict_setdefault. destruct (dict_get d k); [done|]. apply dict_set_NoDup.
Qed.

Lemma dict_setdefault_get d k v k' :
  dict_get (dict_setdefault d k v) k' =
  if decide (k = k') then Some (default v (dict_get d k)) else dict_get d k'.
Proof.
  unfold dict_setdefault. destruct (dict_get d k) as [v0|] eqn:Hg.
  - destruct (decide (k = k')) as [<-|?]; [by rewrite Hg|done].
  - by rewrite dict_set_get.
Qed.

Lemma dict_setdefault_get_eq d k v :
  dict_get (dict_setdefault d k v) k = Some (default v (dict_get d k)).
Proof. by rewrite dict_setdefault_get, decide_True. Qed.
End dict_facts.

(** The dictionary of a sequence of entries. *)
Lemma to_dict_spec seen :
  NoDup (to_dict seen).*1 ∧ ∀ e, e ∈ to_dict seen → e ∈ seen.
Proof.
  unfold to_dict.
  assert (∀ (d : list entry),
            NoDup d.*1 →
            NoDup (fold_left (λ d '(val, poses), dict_set d val poses) seen d).*1 ∧
            ∀ e, e ∈ fold_left (λ d '(val, poses), dict_set d val poses) seen d →
                 e ∈ d ∨ e ∈ seen) as Hgen.
  { induction seen as [|[k v] seen IH]; intros d Hd; simpl.
    { split; [done|]. auto. }
    destruct (IH (dict_set d k v)) as [Hnd Hin]; [by apply dict_set_NoDup|].
    split; [done|]. intros e He. destruct (Hin e He) as [Hs|Hs].
    - apply dict_set_elem in Hs as [->|?]; [right; left|by left].
    - right. by right. }
  destruct (Hgen []) as [Hnd Hin]; [constructor|].
  split; [done|]. intros e He. destruct (Hin e He) as [Hn|?]; [|done].
  by apply elem_of_nil in Hn.
Qed.

Lemma remember_NoDup (d : list entry) v p : NoDup d.*1 → NoDup (remember d v p).*1.
Proof.
  intros Hd. unfold remember. case_decide.
  - by apply dict_setdefault_NoDup.
  - by apply dict_set_NoDup, dict_setdefault_NoDup.
Qed.

Lemma remember_get (d : list entry) v p k :
  dict_get (remember d v p) k =
  if decide (v = k) then Some (remembered (default [] (dict_get d v)) p)
  else dict_get d k.
Proof.
  unfold remember, remembered. rewrite dict_setdefault_get_eq.
  simpl. case_decide as Hp.
  - rewrite dict_setdefault_get. by destruct (decide (v = k)).
  - rewrite dict_set_get, dict_setdefault_get. by destruct (decide (v = k)).
Qed.

Lemma reveal_seen_NoDup sm v_c v_d c d :
  NoDup sm.*1 → NoDup (reveal_seen sm v_c v_d c d).*1.
Proof.
  intros Hsm. unfold reveal_seen.
  assert (NoDup (remember (remember sm v_c c) v_d d).*1)
    by (by do 2 apply remember_NoDup).
  repeat case_decide; try done.
  - by apply dict_pop_NoDup, dict_set_NoDup.
  - by apply dict_set_NoDup.
Qed.

Lemma reveal_seen_get sm v_c v_d c d k :
  NoDup sm.*1 →
  dict_get (reveal_seen sm v_c v_d c d) k =
  let new_seen := remember (remember sm v_c c) v_d d in
  if decide (v_c = v_d ∧ c ≠ d) then
    if decide (v_c = k) then
      let l := filter (not_in_pair c d) (default [] (dict_get new_seen v_c)) in
      if decide (l = []) then None else Some l
    else dict_get new_seen k
  else dict_get new_seen k.
Proof.
  intros Hsm. unfold reveal_seen. simpl.
  assert (NoDup (remember (remember sm v_c c) v_d d).*1)
    by (by do 2 apply remember_NoDup).
  destruct (decide (v_c = v_d ∧ c ≠ d)); [|done].
  destruct (decide (filter _ _ = [])) as [Hl|Hl].
  - rewrite dict_pop_get by (by apply dict_set_NoDup).
    destruct (decide (v_c = k)); [done|]. rewrite dict_set_get.
    by rewrite decide_False.
  - rewrite dict_set_get. by destruct (decide (v_c = k)).
Qed.

(** ** Well-formed search states *)

Lemma state_ok_iff game st :
  state_ok game st ↔ wf_state st ∧ truthful game st.2.
Proof.
  unfold state_ok, wf_state, truthful, entry_ok. split.
  - intros Hok. repeat split.
    + intros e p He Hp. destruct (Hok e He) as (_ & _ & Hall).
      destruct (Hall p Hp) as [Hm _]. by rewrite elem_of_list_to_set in Hm.
    + by destruct (Hok e H) as (? & _ & _).
    + by destruct (Hok e H) as (_ & ? & _).
    + intros e p He Hp. destruct (Hok e He) as (_ & _ & Hall).
      by destruct (Hall p Hp).
  - intros [[Hdisj Hne] Htr] e He. destruct (Hne e He) as [? ?].
    repeat split; try done.
    + rewrite elem_of_list_to_set. by eapply Hdisj.
    + by apply Htr.
Qed.

Lemma not_elem_of_pair (M : gset pos) p1 p2 p :
  p ≠ p1 → p ≠ p2 → p ∉ M → p ∉ {[p2]} ∪ ({[p1]} ∪ M).
Proof.
  intros H1 H2 HM. rewrite !elem_of_union, !elem_of_singleton. tauto.
Qed.

Lemma forget_pair_ok game ms sm p1 p2 e :
  (∀ e, e ∈ sm → entry_ok game ms e) →
  e ∈ forget_pair p1 p2 sm → entry_ok game ({[p2]} ∪ ({[p1]} ∪ ms)) e.
Proof.
  intros Hsm. unfold forget_pair. intros [Hne He]%list_elem_of_filter.
  apply list_elem_of_fmap in He as ([k v] & -> & Hin). simpl in Hne.
  destruct (Hsm _ Hin) as (_ & Hnd & Hall). simpl in *.
  split; [done|]. split; [by apply NoDup_filter|].
  intros p [[Hp1 Hp2] Hp]%list_elem_of_filter.
  destruct (Hall p Hp) as [Hms Hv]. split; [by apply not_elem_of_pair|done].
Qed.

Lemma remember_ok game ms d v p :
  all_ok game ms d → p ∉ ms → MemoriceGame.value_at game p = Ok v →
  all_ok game ms (remember d v p).
Proof.
  intros Hd Hp Hv k l. rewrite remember_get.
  destruct (decide (v = k)) as [<-|Hne]; [|by apply Hd].
  intros [= <-]. unfold remembered.
  destruct (dict_get d v) as [l0|] eqn:Hg; simpl.
  - destruct (Hd _ _ Hg) as (Hne & Hnd & Hall). simpl in *.
    case_decide as Hin; [done|]. split; [by destruct l0|].
    split.
    + apply NoDup_app. split; [done|]. split; [|apply NoDup_singleton].
      intros x Hx ->%list_elem_of_singleton. done.
    + intros x [Hx| ->%list_elem_of_singleton]%elem_of_app; [by apply Hall|done].
  - split; [done|]. split; [apply NoDup_singleton|].
    by intros x ->%list_elem_of_singleton.
Qed.

Lemma reveal_seen_ok game ms sm c d v_c v_d :
  NoDup sm.*1 → all_ok game ms sm →
  c ∉ ms → d ∉ ms →
  MemoriceGame.value_at game c = Ok v_c →
  MemoriceGame.value_at game d = Ok v_d →
  all_ok game (reveal_matched ms v_c v_d c d) (reveal_seen sm v_c v_d c d).
Proof.
  intros Hnd Hsm Hc Hd Hvc Hvd k l. rewrite reveal_seen_get by done. simpl.
  assert (Hd2 : all_ok game ms (remember (remember sm v_c c) v_d d))
    by (apply remember_ok; [apply remember_ok|..]; done).
  unfold reveal_matched.
  destruct (decide (v_c = v_d ∧ c ≠ d)) as [[<- Hcd]|_]; [|by apply Hd2].
  destruct (decide (v_c = k)) as [<-|Hk].
  - destruct (decide (filter _ _ = [])) as [|Hne]; [done|]. intros [= <-].
    destruct (dict_get (remember (remember sm v_c c) v_c d) v_c) as [l2|] eqn:Hg;
      simpl in *; [|done].
    destruct (Hd2 _ _ Hg) as (_ & Hnd2 & Hall). simpl in *.
    split; [done|]. split; [by apply NoDup_filter|].
    intros p [[Hp1 Hp2] Hp]%list_elem_of_filter.
    destruct (Hall p Hp). split; [by apply not_elem_of_pair|done].
  - intros Hg. destruct (Hd2 _ _ Hg) as (? & ? & Hall). simpl in *.
    split; [done|]. split; [done|]. intros p Hp. destruct (Hall p Hp) as [? Hv].
    split; [|done].
    assert (p ≠ c) by (intros ->; rewrite Hvc in Hv; by injection Hv).
    assert (p ≠ d) by (intros ->; rewrite Hvd in Hv; by injection Hv).
    by apply not_elem_of_pair.
Qed.

Lemma all_ok_entries game M d :
  NoDup d.*1 → all_ok game M d → ∀ e, e ∈ d → entry_ok game M e.
Proof.
  intros Hnd Hd [k l] He. apply Hd. by apply elem_dict_get.
Qed.

Lemma entries_all_ok game M d :
  (∀ e, e ∈ d → entry_ok game M e) → all_ok game M d.
Proof. intros Hd k l Hg. by apply Hd, dict_get_elem. Qed.

Lemma list_to_set_freeze M new_seen :
  list_to_set (freeze M new_seen).1 = M.
Proof.
  unfold freeze. simpl. apply set_eq. intros p.
  by rewrite elem_of_list_to_set, elem_of_sorted, elem_of_elements.
Qed.

Lemma NoDup_freeze M new_seen : NoDup (freeze M new_seen).1.
Proof. unfold freeze. simpl. apply NoDup_sorted, NoDup_elements. Qed.

Lemma freeze_ok game M new_seen :
  (∀ e, e ∈ new_seen → entry_ok game M e) → state_ok game (freeze M new_seen).
Proof.
  intros Hok e. rewrite list_to_set_freeze. unfold freeze. simpl.
  rewrite elem_of_sorted. intros ([k l] & -> & Hin)%list_elem_of_fmap.
  destruct (Hok _ Hin) as (Hne & Hnd & Hall). unfold sort_entry. simpl in *.
  split; [|split].
  - intros Hnil. simpl in Hnil. apply Hne.
    assert (length (sorted l) = 0%nat) as Hlen by (by rewrite Hnil).
    rewrite length_sorted in Hlen. by destruct l.
  - by apply NoDup_sorted.
  - intros p Hp. simpl in Hp. apply Hall. by rewrite elem_of_sorted in Hp.
Qed.

Lemma candidates_unmatched game ms sm c :
  c ∈ candidates_of game ms sm → (c ∉ ms) ∧ c ∈ MemoriceGame.all_positions game.
Proof.
  unfold candidates_of, unseen_of. intros Hc%elem_of_take_1.
  assert (c ∈ unmatched_of game ms) as Hu.
  { destruct (filter _ (unmatched_of game ms)) as [|x l] eqn:Hf; [done|].
    rewrite <-Hf in Hc. by apply list_elem_of_filter in Hc as [_ ?]. }
  by apply list_elem_of_filter in Hu.
Qed.

Lemma partners_unmatched game ms sm c d :
  d ∈ memory_partners ms sm c ∨ d ∈ blind_partners game ms c → d ≠ c ∧ d ∉ ms.
Proof.
  intros [Hd|Hd].
  - apply list_elem_of_filter in Hd as [? Hd].
    by apply list_elem_of_filter in Hd as [? _].
  - rewrite blind_partners_take in Hd. apply elem_of_take_1 in Hd.
    apply list_elem_of_filter in Hd as [? Hd].
    by apply list_elem_of_filter in Hd as [? _].
Qed.

(** Every successor of a state that is well formed and agrees with the
    board is such a state again, and its action, played on the board,
    matches exactly what the successor state says. *)
Lemma successor_sound game matched seen succs a s' c :
  state_ok game (matched, seen) →
  successors_state (matched, seen) game = Ok succs → (a, s', c) ∈ succs →
  state_ok game s' ∧ NoDup s'.1 ∧
  turn_matched game (list_to_set matched) a.2.1 a.2.2 = Ok (list_to_set s'.1).
Proof.
  intros Hok Hsucc Hs. unfold state_ok in Hok. simpl in Hok.
  destruct (to_dict_spec seen) as [Hnd Hsub].
  assert (Hsm : ∀ e, e ∈ to_dict seen → entry_ok game (list_to_set matched) e)
    by (intros e He; by apply Hok, Hsub).
  destruct (successors_state_spec _ _ _ _ _ Hsucc Hs)
    as [(e & He & Hk)|(_ & c0 & d & Hc & Hd & Hr)].
  - apply known_pair_spec in Hk as (p1 & p2 & rest & Hav & [= -> -> ->]).
    split; [|split].
    + apply freeze_ok. intros e'. by apply forget_pair_ok.
    + apply NoDup_freeze.
    + rewrite list_to_set_freeze. simpl.
      destruct (Hsm e He) as (_ & Hnde & Hall).
      assert (∀ p, p ∈ p1 :: p2 :: rest → p ∈ e.2) as Hin.
      { intros p Hp. rewrite <-Hav in Hp.
        by apply list_elem_of_filter in Hp as [_ ?]. }
      assert (Hp1 : p1 ∈ e.2) by (apply Hin; left).
      assert (Hp2 : p2 ∈ e.2) by (apply Hin; right; left).
      assert (p1 ≠ p2).
      { assert (NoDup (p1 :: p2 :: rest)) as Hn
          by (rewrite <-Hav; by apply NoDup_filter).
        apply NoDup_cons in Hn as [Hn _]. intros ->. apply Hn. left. }
      unfold turn_matched. destruct (Hall p1 Hp1) as [_ ->].
      destruct (Hall p2 Hp2) as [_ ->]. simpl. by rewrite decide_True.
  - destruct (candidates_unmatched _ _ _ _ Hc) as [Hcm _].
    destruct (partners_unmatched _ _ _ _ _ Hd) as [_ Hdm].
    apply reveal_spec in Hr as (v_c & v_d & Hvc & Hvd & [= -> -> ->]).
    split; [|split].
    + apply freeze_ok. apply all_ok_entries; [by apply reveal_seen_NoDup|].
      apply reveal_seen_ok; try done. by apply entries_all_ok.
    + apply NoDup_freeze.
    + rewrite list_to_set_freeze. simpl. unfold turn_matched.
      by rewrite Hvc, Hvd.
Qed.

(** When the parent is well formed and its memory agrees with the board,
    every state the generator produces is well formed, and its memory agrees
    with the board again. *)
Lemma successors_keep_truthful game st succs a s' c :
  wf_state st → truthful game st.2 →
  successors_state st game = Ok succs → (a, s', c) ∈ succs →
  wf_state s' ∧ truthful game s'.2.
Proof.
  destruct st as [matched seen]. intros Hwf Htr Hsucc Hin.
  apply state_ok_iff.
  eapply successor_sound; [|done..]. by apply state_ok_iff.
Qed.

(** The states the planner meets: every state that generated transitions
    reach from a state that is well formed and agrees with the board is
    such a state. *)
Lemma path_state_ok game s n s' :
  state_ok game s → path game s n s' → state_ok game s'.
Proof.
  intros Hok Hpath.
  induction Hpath as [st|st succs a s1 c n s' Hsucc Hin _ IH]; [done|].
  apply IH. destruct st as [matched seen].
  by destruct (successor_sound _ _ _ _ _ _ _ Hok Hsucc Hin) as [? _].
Qed.

(** ** The live game *)

Lemma elem_of_all_positions game (p : pos) :
  p ∈ MemoriceGame.all_positions game ↔
  (p.1 < MemoriceGame.size game)%nat ∧ (p.2 < MemoriceGame.size game)%nat.
Proof.
  unfold MemoriceGame.all_positions. destruct p as [r c]. simpl.
  rewrite list_elem_of_bind. split.
  - intros (r' & (c' & Hp%list_elem_of_singleton & Hc%elem_of_seq)%list_elem_of_bind
               & Hr%elem_of_seq).
    injection Hp as -> ->. lia.
  - intros [Hr Hc]. exists r. split; [|apply elem_of_seq; lia].
    apply list_elem_of_bind. exists c. split; [left|apply elem_of_seq; lia].
Qed.

Lemma NoDup_all_positions game : NoDup (MemoriceGame.all_positions game).
Proof.
  unfold MemoriceGame.all_positions. apply NoDup_bind; [| |apply NoDup_seq].
  - intros r1 r2 p _ _
      (c1 & ->%list_elem_of_singleton & _)%list_elem_of_bind
      (c2 & [= -> _]%list_elem_of_singleton & _)%list_elem_of_bind.
    done.
  - intros r _. apply NoDup_bind; [| |apply NoDup_seq].
    + intros c1 c2 p _ _ ->%list_elem_of_singleton [= ->]%list_elem_of_singleton.
      done.
    + intros c _. apply NoDup_singleton.
Qed.

Lemma length_bind_const {A B} (f : A → list B) (l : list A) m :
  (∀ x, length (f x) = m) → length (l ≫= f) = (length l * m)%nat.
Proof.
  intros Hf. induction l as [|x l IH]; [done|].
  change ((x :: l) ≫= f) with (f x ++ (l ≫= f)).
  rewrite length_app, Hf, IH. simpl. lia.
Qed.

Lemma length_all_positions game :
  length (MemoriceGame.all_positions game)
    = (MemoriceGame.size game * MemoriceGame.size game)%nat.
Proof.
  unfold MemoriceGame.all_positions.
  rewrite (length_bind_const _ _ (MemoriceGame.size game)).
  - by rewrite length_seq.
  - intros r. rewrite (length_bind_const _ _ 1%nat); [|done].
    rewrite length_seq. lia.
Qed.

Lemma seen_pairs_fold game (l : list (pos * value)) (mp : list entry) :
  NoDup l.*1 → (∀ x, x ∈ l → x ∈ MemoriceGame.seen game) →
  NoDup mp.*1 →
  (∀ e, e ∈ mp → seen_pair_ok game e ∧ ∀ p, p ∈ e.2 → p ∉ l.*1) →
  let r := fold_left
    (λ mp '(p, val),
       if decide (p ∉ MemoriceGame.matched game) then dict_append mp val p else mp)
    l mp in
  NoDup r.*1 ∧ ∀ e, e ∈ r → seen_pair_ok game e.
Proof.
  revert mp. induction l as [|[p val] l IH]; intros mp Hl Hsub Hmp Hok; simpl.
  { split; [done|]. intros e He. by apply Hok. }
  rewrite fmap_cons in Hl. apply NoDup_cons in Hl as [Hp Hl]. simpl in Hp.
  apply IH; [done|intros x Hx; apply Hsub; by right| |].
  - case_decide; [|done]. by apply dict_set_NoDup.
  - intros e He. case_decide as Hm.
    + apply dict_set_elem in He as [->|He].
      * assert (Hold : (default [] (dict_get mp val) = [] ∨
                        (val, default [] (dict_get mp val)) ∈ mp)).
        { destruct (dict_get mp val) as [old|] eqn:Hg; [right|by left].
          by apply dict_get_elem. }
        simpl. destruct Hold as [->|Hin].
        { simpl. split.
          - split; [done|]. split; [apply NoDup_singleton|].
            intros q ->%list_elem_of_singleton. split; [|done].
            apply Hsub. left.
          - by intros q ->%list_elem_of_singleton. }
        destruct (Hok _ Hin) as [(Hne & Hnd & Hall) Hfresh]. simpl in *.
        split.
        -- split; [by destruct (default [] (dict_get mp val))|]. split.
           ++ apply NoDup_app. split; [done|]. split; [|apply NoDup_singleton].
              intros q Hq ->%list_elem_of_singleton.
              apply (Hfresh _ Hq). left.
           ++ intros q [Hq| ->%list_elem_of_singleton]%elem_of_app;
                [by apply Hall|].
              split; [apply Hsub; left|done].
        -- intros q [Hq| ->%list_elem_of_singleton]%elem_of_app; [|done].
           intros Hq'. apply (Hfresh _ Hq). by right.
      * destruct (Hok _ He) as [? Hfresh]. split; [done|].
        intros q Hq Hq'. apply (Hfresh _ Hq). by right.
    + destruct (Hok _ He) as [? Hfresh]. split; [done|].
      intros q Hq Hq'. apply (Hfresh _ Hq). by right.
Qed.

Lemma seen_pairs_spec game :
  NoDup (MemoriceGame.seen game).*1 →
  NoDup (MemoriceGame.seen_pairs game).*1 ∧
  ∀ e, e ∈ MemoriceGame.seen_pairs game → seen_pair_ok game e.
Proof.
  intros Hnd. unfold MemoriceGame.seen_pairs.
  apply seen_pairs_fold; [done|done|constructor|].
  by intros e ?%elem_of_nil.
Qed.

Lemma first_known_pair_Some sp p1 p2 :
  first_known_pair sp = Some (p1, p2) →
  ∃ val rest, (val, p1 :: p2 :: rest) ∈ sp.
Proof.
  induction sp as [|[val [|q1 [|q2 rest]]] sp IH]; simpl; try done.
  - intros (v & r & ?)%IH. exists v, r. by right.
  - intros (v & r & ?)%IH. exists v, r. by right.
  - intros [= -> ->]. exists val, rest. left.
Qed.

Lemma choice_Ok {A} (r : nat) (l : list A) :
  l ≠ [] → ∃ x, choice r l = Ok x ∧ x ∈ l.
Proof.
  intros Hl. unfold choice.
  destruct (l !! (r `mod` length l)%nat) as [x|] eqn:Hx.
  - exists x. split; [done|]. by eapply list_elem_of_lookup_2.
  - apply lookup_ge_None in Hx. destruct l; [done|]. simpl in Hx.
    pose proof (Nat.mod_upper_bound r (S (length l))). lia.
Qed.

Lemma unfinished_unmatched game :
  wf_game game → MemoriceGame.is_finished game = false →
  MemoriceGame.unmatched_positions game ≠ [].
Proof.
  intros (Htp & _ & Hsub & _) Hfin Hnil.
  unfold MemoriceGame.is_finished in Hfin.
  apply bool_decide_eq_false_1 in Hfin. apply Hfin. rewrite Htp.
  assert (MemoriceGame.matched game
          = list_to_set (MemoriceGame.all_positions game)) as ->.
  { apply set_eq. intros p. rewrite elem_of_list_to_set. split; [apply Hsub|].
    intros Hp. destruct (decide (p ∈ MemoriceGame.matched game)) as [|Hm]; [done|].
    exfalso. eapply (filter_nil_not_elem_of _ _ p Hnil); done. }
  rewrite size_list_to_set by apply NoDup_all_positions.
  by rewrite length_all_positions.
Qed.

(** C8.  On a live game that is not finished, [greedy_policy] returns, for
    every draw of the random source, a turn of two positions of the board
    that are both unmatched; the two differ, except when one unmatched
    position is all that remains, which the turn then repeats. *)
Theorem greedy_policy_usable game r1 r2 :
  wf_game game → MemoriceGame.is_finished game = false →
  ∃ p1 p2,
    greedy_policy game r1 r2 = Ok (Turn, (p1, p2)) ∧
    p1 ∈ MemoriceGame.all_positions game ∧
    p2 ∈ MemoriceGame.all_positions game ∧
    (p1 ∉ MemoriceGame.matched game) ∧
    (p2 ∉ MemoriceGame.matched game) ∧
    (p1 = p2 → MemoriceGame.unmatched_positions game = [p1]).
Proof.
  intros Hwf Hfin. pose proof (unfinished_unmatched _ Hwf Hfin) as Hun.
  destruct Hwf as (Htp & Hboard & Hsub & Hnd & Hseen).
  unfold greedy_policy.
  destruct (first_known_pair _) as [[p1 p2]|] eqn:Hfirst.
  { apply first_known_pair_Some in Hfirst as (val & rest & Hin).
    destruct (seen_pairs_spec game Hnd) as [_ Hsp].
    destruct (Hsp _ Hin) as (_ & Hnd' & Hall). simpl in *.
    destruct (Hall p1) as [Hs1 ?]; [left|].
    destruct (Hall p2) as [Hs2 ?]; [right; left|].
    apply NoDup_cons in Hnd' as [Hne _].
    exists p1, p2. split; [done|].
    split; [by apply (Hseen _ _ Hs1)|]. split; [by apply (Hseen _ _ Hs2)|].
    split; [done|]. split; [done|]. intros ->. exfalso. apply Hne. left. }
  set (unmatched := filter (λ p, MemoriceGame.is_matched game p = false)
                           (MemoriceGame.all_positions game)).
  assert (Hunm : ∀ p, p ∈ unmatched ↔
            p ∈ MemoriceGame.all_positions game ∧ p ∉ MemoriceGame.matched game).
  { intros p. unfold unmatched. rewrite list_elem_of_filter.
    unfold MemoriceGame.is_matched. rewrite bool_decide_eq_false. tauto. }
  assert (Heq : unmatched = MemoriceGame.unmatched_positions game).
  { unfold unmatched, MemoriceGame.unmatched_positions.
    apply list_filter_iff. intros p. unfold MemoriceGame.is_matched.
    by rewrite bool_decide_eq_false. }
  set (unseen := match filter _ unmatched with [] => unmatched | _ => _ end).
  assert (Hunseen : unseen ≠ [] ∧ ∀ p, p ∈ unseen → p ∈ unmatched).
  { unfold unseen.
    destruct (filter _ unmatched) as [|x l] eqn:Hf.
    - split; [by rewrite Heq|done].
    - split; [done|]. intros p Hp. rewrite <-Hf in Hp.
      by apply list_elem_of_filter in Hp as [_ ?]. }
  destruct Hunseen as [Hne Hunseen].
  destruct (choice_Ok r1 unseen Hne) as (p1 & -> & Hp1). simpl.
  apply Hunseen, Hunm in Hp1 as [Hp1 Hm1].
  destruct (Hboard p1 Hp1) as [v1 ->]. simpl.
  destruct (find _ (MemoriceGame.seen game)) as [[p v]|] eqn:Hfind.
  { apply find_some in Hfind as [Hin Hp]. apply list_elem_of_In in Hin.
    apply bool_decide_eq_true_1 in Hp as (_ & Hne' & Hm).
    exists p1, p. split; [done|]. split; [done|].
    split; [by apply (Hseen _ _ Hin)|]. split; [done|]. split; [done|].
    by intros ->. }
  destruct (filter (λ p, p ≠ p1) unmatched) as [|q rem] eqn:Hrem.
  - exists p1, p1. do 5 (split; [done|]). intros _. rewrite <-Heq.
    assert (Hall : ∀ p, p ∈ unmatched → p = p1).
    { intros p Hp. destruct (decide (p = p1)) as [|Hne']; [done|]. exfalso.
      by eapply (filter_nil_not_elem_of _ _ p Hrem). }
    assert (Hndu : NoDup unmatched)
      by (apply NoDup_filter, NoDup_all_positions).
    assert (Hin1 : p1 ∈ unmatched) by (by apply Hunm).
    destruct unmatched as [|a [|b l]]; [by apply elem_of_nil in Hin1| |].
    + f_equal. apply Hall. left.
    + exfalso. apply NoDup_cons in Hndu as [Hab _]. apply Hab.
      rewrite (Hall a), (Hall b); [left|right; left|left].
  - destruct (choice_Ok r2 (q :: rem)) as (p2 & -> & Hp2); [done|]. simpl.
    rewrite <-Hrem in Hp2. apply list_elem_of_filter in Hp2 as [Hne2 Hp2].
    apply Hunm in Hp2 as [? ?].
    exists p1, p2. do 5 (split; [done|]). by intros ->.
Qed.

Lemma greedy_policy_usable_witness :
  wf_game game_one_turn ∧ MemoriceGame.is_finished game_one_turn = false ∧
  ∃ p1 p2,
    greedy_policy game_one_turn 3 5 = Ok (Turn, (p1, p2)) ∧
    p1 ∈ MemoriceGame.all_positions game_one_turn ∧
    p2 ∈ MemoriceGame.all_positions game_one_turn ∧
    (p1 ∉ MemoriceGame.matched game_one_turn) ∧
    (p2 ∉ MemoriceGame.matched game_one_turn) ∧
    (p1 = p2 → MemoriceGame.unmatched_positions game_one_turn = [p1]).
Proof.
  assert (Hwf : wf_game game_one_turn).
  { split; [reflexivity|]. split; [|split; [|split]].
    - intros [r c] [Hr Hc]%elem_of_all_positions. simpl in *.
      destruct r as [|[|r]], c as [|[|c]]; try lia; by eexists.
    - intros p Hp. by apply elem_of_empty in Hp.
    - apply (bool_decide_unpack _). vm_compute. exact I.
    - intros p v Hin. simpl in Hin.
      apply elem_of_cons in Hin as [[= -> ->]|Hin];
        [split; [apply elem_of_all_positions; simpl; lia|reflexivity]|].
      apply list_elem_of_singleton in Hin as [= -> ->].
      split; [apply elem_of_all_positions; simpl; lia|reflexivity]. }
  assert (Hfin : MemoriceGame.is_finished game_one_turn = false)
    by (vm_compute; reflexivity).
  split; [exact Hwf|]. split; [exact Hfin|].
  exact (greedy_policy_usable game_one_turn 3 5 Hwf Hfin).
Defined.

(** ** Plans are valid *)

Lemma value_at_board game1 game2 p :
  MemoriceGame.board game1 = MemoriceGame.board game2 →
  MemoriceGame.value_at game1 p = MemoriceGame.value_at game2 p.
Proof. intros Hb. unfold MemoriceGame.value_at. by rewrite Hb. Qed.

Lemma apply_turn_matched game live p1 p2 M :
  MemoriceGame.board live = MemoriceGame.board game →
  turn_matched game (MemoriceGame.matched live) p1 p2 = Ok M →
  ∃ live' b,
    MemoriceGame.apply_turn live p1 p2 = Ok (live', b) ∧
    MemoriceGame.matched live' = M ∧
    MemoriceGame.board live' = MemoriceGame.board game ∧
    MemoriceGame.total_pairs live' = MemoriceGame.total_pairs live.
Proof.
  intros Hb. unfold turn_matched, MemoriceGame.apply_turn.
  rewrite <-!(value_at_board live game) by done.
  destruct (MemoriceGame.value_at live p1) as [v1| |]; simpl; try done.
  destruct (MemoriceGame.value_at live p2) as [v2| |]; simpl; try done.
  destruct (decide (v1 = v2 ∧ p1 ≠ p2)); intros [= <-]; by eexists _, _.
Qed.

Lemma replay_app game plan1 plan2 :
  replay game (plan1 ++ plan2) = (live ←ᵣ replay game plan1; replay live plan2).
Proof.
  revert game. induction plan1 as [|[k [p1 p2]] plan1 IH]; intros game; [done|].
  simpl. destruct (MemoriceGame.apply_turn game p1 p2) as [[live b]| |]; simpl;
    [apply IH|done..].
Qed.

Lemma key_matched_set (s : SearchState) :
  list_to_set (C := gset pos) (state_to_key s).1 = list_to_set s.1.
Proof.
  destruct s as [m sn]. simpl. apply set_eq. intros p.
  by rewrite !elem_of_list_to_set, elem_of_sorted.
Qed.

Lemma reconstruct_chain fuel cf k acc r :
  reconstruct fuel cf k acc = Ok r →
  ∃ acts, chain cf k acts ∧ r = reverse acts ++ reverse acc.
Proof.
  revert k acc. induction fuel as [|fuel IH]; intros k acc; simpl; [done|].
  destruct (cf !! k) as [[[pk a]|]|] eqn:Hk; [| |done].
  - intros (acts & Hch & ->)%IH. exists (a :: acts).
    split; [by eapply chain_link|].
    rewrite reverse_app, !reverse_cons, reverse_nil. simpl.
    by rewrite <-app_assoc.
  - intros [= <-]. exists []. split; [by apply chain_root|done].
Qed.

Lemma relax_inv game k0 tp key g σ a s' c :
  search_inv game k0 σ → 0 ≤ g → c = 1 →
  state_ok game s' → NoDup s'.1 →
  turn_matched game (list_to_set key.1) a.2.1 a.2.2 = Ok (list_to_set s'.1) →
  search_inv game k0 (relax tp key g σ (a, s', c)).
Proof.
  intros [Hfr [Hr1 Hr2] Hlink Honly] Hg -> Hok Hnd Hturn. unfold relax.
  destruct (improves (g + 1) (gscore σ !! state_to_key s')) eqn:Himp;
    [|by constructor].
  assert (Hne : state_to_key s' ≠ k0).
  { intros Heq. rewrite Heq, Hr2 in Himp. simpl in Himp.
    apply bool_decide_eq_true_1 in Himp. lia. }
  constructor; simpl.
  - intros x [Hx| ->%list_elem_of_singleton]%elem_of_app; [by apply Hfr|].
    simpl. split; [done|]. split; [done|lia].
  - by rewrite !lookup_insert_ne.
  - intros k pk a0. destruct (decide (state_to_key s' = k)) as [<-|Hk].
    + rewrite lookup_insert_eq. intros [= <- <-].
      by rewrite key_matched_set.
    + rewrite lookup_insert_ne by done. apply Hlink.
  - intros k. destruct (decide (state_to_key s' = k)) as [<-|Hk].
    + by rewrite lookup_insert_eq.
    + rewrite lookup_insert_ne by done. apply Honly.
Qed.

Lemma relax_fold_inv game k0 tp key g succs σ :
  search_inv game k0 σ → 0 ≤ g →
  (∀ a s' c, (a, s', c) ∈ succs →
     c = 1 ∧ state_ok game s' ∧ NoDup s'.1 ∧
     turn_matched game (list_to_set key.1) a.2.1 a.2.2 = Ok (list_to_set s'.1)) →
  search_inv game k0 (fold_left (relax tp key g) succs σ).
Proof.
  revert σ. induction succs as [|[[a s'] c] succs IH]; intros σ Hinv Hg Hs; [done|].
  simpl. apply IH; [|done|].
  - destruct (Hs a s' c) as (? & ? & ? & ?); [left|]. by apply relax_inv.
  - intros a0 s0 c0 Hin. apply Hs. by right.
Qed.

Lemma astar_step_inv game k0 mx σ σ' :
  search_inv game k0 σ →
  astar_step game mx σ = Continue σ' →
  search_inv game k0 σ'.
Proof.
  intros Hinv. unfold astar_step.
  destruct (heappop (frontier σ)) as [[node rest]|] eqn:Hpop; [|done].
  destruct (is_goal _ _).
  { by destruct (reconstruct _ _ _ _). }
  case_bool_decide; [done|].
  destruct (successors_state _ _) as [succs| |] eqn:Hsucc; [|done..].
  intros [= <-].
  destruct (heappop_least _ _ _ Hpop) as [Hperm _].
  destruct (inv_frontier _ _ _ Hinv node) as (Hok & Hnd & Hg).
  { rewrite Hperm. left. }
  apply relax_fold_inv; [|done|].
  - destruct Hinv as [Hfr Hroot Hlink Honly]. constructor; simpl; try done.
    intros x Hx. apply Hfr. rewrite Hperm. by right.
  - intros a s' c Hin. destruct (Node.state node) as [matched seen] eqn:Hst.
    destruct (successor_sound _ _ _ _ _ _ _ Hok Hsucc Hin) as (? & ? & Hturn).
    destruct (successor_matched_bound _ _ _ _ _ _ _ Hsucc Hin) as [_ ->].
    do 3 (split; [done|]). by rewrite (key_matched_set (matched, seen)).
Qed.

Lemma iterate_inv n game k0 mx σ σ' :
  search_inv game k0 σ →
  iterate n game mx σ = Some σ' →
  search_inv game k0 σ'.
Proof.
  revert σ. induction n as [|n IH]; intros σ Hinv; simpl.
  { by intros [= <-]. }
  destruct (astar_step game mx σ) as [|σ1| |] eqn:Hstep; try done.
  apply IH. by eapply astar_step_inv.
Qed.

Lemma astar_init_inv game initial_state :
  state_ok game initial_state → NoDup initial_state.1 →
  search_inv game (state_to_key initial_state) (astar_init initial_state game).
Proof.
  intros Hok Hnd. constructor; simpl.
  - intros x ->%list_elem_of_singleton. done.
  - by rewrite !lookup_singleton_eq.
  - intros k pk a. destruct (decide (state_to_key initial_state = k)) as [<-|?].
    + by rewrite lookup_singleton_eq.
    + by rewrite lookup_singleton_ne.
  - intros k. destruct (decide (state_to_key initial_state = k)) as [<-|?]; [done|].
    by rewrite lookup_singleton_ne.
Qed.

Lemma chain_replay game k0 σ k acts live :
  search_inv game k0 σ → chain (came_from σ) k acts →
  MemoriceGame.board live = MemoriceGame.board game →
  MemoriceGame.matched live = list_to_set k0.1 →
  ∃ live',
    replay live (reverse acts) = Ok live' ∧
    MemoriceGame.matched live' = list_to_set k.1 ∧
    MemoriceGame.board live' = MemoriceGame.board game ∧
    MemoriceGame.total_pairs live' = MemoriceGame.total_pairs live.
Proof.
  intros Hinv Hch Hb Hm. induction Hch as [k Hk|k pk a acts Hk _ IH].
  - apply (inv_only_root _ _ _ Hinv) in Hk as ->. by exists live.
  - destruct IH as (live1 & Hrep & Hm1 & Hb1 & Htp1).
    pose proof (inv_link _ _ _ Hinv _ _ _ Hk) as Hturn. rewrite <-Hm1 in Hturn.
    destruct (apply_turn_matched _ _ _ _ _ Hb1 Hturn)
      as (live2 & b & Hap & Hm2 & Hb2 & Htp2).
    exists live2. rewrite reverse_cons, replay_app, Hrep. simpl.
    destruct a as [kd [p1 p2]]. simpl in *. rewrite Hap. simpl.
    repeat split; try done. congruence.
Qed.

Lemma snapshot_ok game :
  memory_consistent game →
  state_ok game (snapshot game) ∧ NoDup (snapshot game).1 ∧
  list_to_set (snapshot game).1 = MemoriceGame.matched game.
Proof.
  intros [Hnd Hseen].
  change (snapshot game)
    with (freeze (MemoriceGame.matched game) (MemoriceGame.seen_pairs game)).
  split; [|split; [apply NoDup_freeze|apply list_to_set_freeze]].
  apply freeze_ok. intros e He.
  destruct (seen_pairs_spec game Hnd) as [_ Hsp].
  destruct (Hsp e He) as (? & ? & Hall). split; [done|]. split; [done|].
  intros p Hp. destruct (Hall p Hp) as [Hin ?]. split; [done|].
  by apply (Hseen _ _ Hin).
Qed.

Lemma wf_game_memory game : wf_game game → memory_consistent game.
Proof.
  intros (_ & _ & _ & Hnd & Hseen). split; [done|].
  intros p v Hin. by apply (Hseen _ _ Hin).
Qed.

Lemma memory_consistent_empty n tp b M mv :
  memory_consistent (MemoriceGame.mk n tp b M mv []).
Proof. split; simpl; [constructor|]. by intros p v ?%elem_of_nil. Qed.

(** C5.  The generator is called on the snapshot of a live game and on the
    states it produced itself.  Every such state, reached from the snapshot
    by generated transitions, is well formed, and every state the generator
    produces from it is well formed: no position is both matched and
    remembered, and every remembered list is non-empty and without
    duplicates. *)
Theorem successors_keep_wf_reachable game n st :
  memory_consistent game →
  path game (snapshot game) n st →
  wf_state st ∧ successors_keep_wf game st.
Proof.
  intros Hmem Hpath. destruct (snapshot_ok game Hmem) as (Hok & _ & _).
  pose proof (path_state_ok _ _ _ _ Hok Hpath) as Hst.
  apply state_ok_iff in Hst as [Hwf Htr]. split; [done|].
  intros _ succs a s' c Hsucc Hin.
  by destruct (successors_keep_truthful _ _ _ _ _ _ Hwf Htr Hsucc Hin).
Qed.

Lemma successors_keep_wf_reachable_witness :
  let st : SearchState := ([], [(1, [(0, 0)%nat]); (2, [(0, 1)%nat])]) in
  let s' : SearchState := ([(0, 0); (1, 1)]%nat, [(2, [(0, 1)%nat])]) in
  memory_consistent (game22 board_a) ∧
  path (game22 board_a) (snapshot (game22 board_a)) 1 st ∧
  (∃ succs,
     successors_state st (game22 board_a) = Ok succs ∧
     ((Turn, ((1, 1), (0, 0))%nat), s', 1) ∈ succs) ∧
  wf_state st ∧ wf_state s'.
Proof.
  intros st s'.
  assert (Hmem : memory_consistent (game22 board_a))
    by apply memory_consistent_empty.
  assert (Hp : path (game22 board_a) (snapshot (game22 board_a)) 1 st).
  { eapply (path_step _ _ _ (Turn, ((0, 0), (0, 1)))%nat st 1).
    - vm_compute. reflexivity.
    - left.
    - apply path_here. }
  assert (Hex : ∃ succs,
     successors_state st (game22 board_a) = Ok succs ∧
     ((Turn, ((1, 1), (0, 0))%nat), s', 1) ∈ succs).
  { vm_compute. eexists. split; [reflexivity|].
    repeat (first [left; reflexivity|right]). }
  split; [exact Hmem|]. split; [exact Hp|]. split; [exact Hex|].
  destruct Hex as (succs & Hsucc & Hin).
  destruct (successors_keep_wf_reachable (game22 board_a) 1 st Hmem Hp)
    as [Hwf Hkeep].
  split; [exact Hwf|]. exact (Hkeep Hwf succs _ s' 1 Hsucc Hin).
Defined.

Lemma dict_pop_elem {K V} `{EqDecision K} (d : list (K * V)) k e :
  e ∈ dict_pop d k → e ∈ d.
Proof.
  induction d as [|[k' v'] d IH]; simpl; [done|].
  case_decide; [by right|]. intros [->|?]%elem_of_cons; [left|right; auto].
Qed.

Lemma apply_turn_memory_consistent game p1 p2 game' b :
  memory_consistent game →
  MemoriceGame.apply_turn game p1 p2 = Ok (game', b) →
  memory_consistent game'.
Proof.
  intros [Hnd Hseen]. unfold MemoriceGame.apply_turn.
  destruct (MemoriceGame.value_at game p1) as [v1| |] eqn:Hv1; simpl; try done.
  destruct (MemoriceGame.value_at game p2) as [v2| |] eqn:Hv2; simpl; try done.
  set (seen1 := if decide (p1 ∉ MemoriceGame.matched game)
                then dict_set (MemoriceGame.seen game) p1 v1
                else MemoriceGame.seen game).
  set (seen2 := if decide (p2 ∉ MemoriceGame.matched game)
                then dict_set seen1 p2 v2 else seen1).
  assert (H1 : NoDup seen1.*1 ∧
               ∀ p v, (p, v) ∈ seen1 → MemoriceGame.value_at game p = Ok v).
  { unfold seen1. case_decide; [|done]. split; [by apply dict_set_NoDup|].
    intros p v [[= -> ->]|?]%dict_set_elem; [done|by apply Hseen]. }
  destruct H1 as [Hnd1 Hseen1].
  assert (H2 : NoDup seen2.*1 ∧
               ∀ p v, (p, v) ∈ seen2 → MemoriceGame.value_at game p = Ok v).
  { unfold seen2. case_decide; [|done]. split; [by apply dict_set_NoDup|].
    intros p v [[= -> ->]|?]%dict_set_elem; [done|by apply Hseen1]. }
  destruct H2 as [Hnd2 Hseen2].
  case_decide; intros [= <- <-]; split; simpl; try done.
  - by do 2 apply dict_pop_NoDup.
  - intros p v Hin. do 2 apply dict_pop_elem in Hin.
    rewrite <-(Hseen2 p v Hin). by apply value_at_board.
Qed.

Lemma apply_turn_frame game p1 p2 game' b :
  MemoriceGame.apply_turn game p1 p2 = Ok (game', b) →
  MemoriceGame.size game' = MemoriceGame.size game ∧
  MemoriceGame.total_pairs game' = MemoriceGame.total_pairs game ∧
  MemoriceGame.board game' = MemoriceGame.board game ∧
  (∀ p, p ∈ MemoriceGame.matched game' →
        p ∈ MemoriceGame.matched game ∨ p = p1 ∨ p = p2) ∧
  (∀ p v, (p, v) ∈ MemoriceGame.seen game' →
          (p, v) ∈ MemoriceGame.seen game ∨ p = p1 ∨ p = p2).
Proof.
  unfold MemoriceGame.apply_turn.
  destruct (MemoriceGame.value_at game p1) as [v1| |]; simpl; try done.
  destruct (MemoriceGame.value_at game p2) as [v2| |]; simpl; try done.
  set (seen1 := if decide (p1 ∉ MemoriceGame.matched game)
                then dict_set (MemoriceGame.seen game) p1 v1
                else MemoriceGame.seen game).
  set (seen2 := if decide (p2 ∉ MemoriceGame.matched game)
                then dict_set seen1 p2 v2 else seen1).
  assert (Hseen2 : ∀ p v, (p, v) ∈ seen2 →
            (p, v) ∈ MemoriceGame.seen game ∨ p = p1 ∨ p = p2).
  { intros p v Hin. unfold seen2, seen1 in Hin.
    repeat case_decide;
      repeat (apply dict_set_elem in Hin as [[= -> ->]|Hin]; [tauto|]); tauto. }
  case_decide; intros [= <- <-]; simpl; do 3 (split; [done|]); split.
  - intros p. rewrite !elem_of_union, !elem_of_singleton. tauto.
  - intros p v Hin. do 2 apply dict_pop_elem in Hin. by apply Hseen2.
  - tauto.
  - done.
Qed.

(** [apply_turn] on two positions of the board keeps the invariant of the
    live game. *)
Lemma apply_turn_wf_game game p1 p2 game' b :
  wf_game game →
  p1 ∈ MemoriceGame.all_positions game → p2 ∈ MemoriceGame.all_positions game →
  MemoriceGame.apply_turn game p1 p2 = Ok (game', b) →
  wf_game game'.
Proof.
  intros Hwf Hp1 Hp2 Hturn.
  destruct (apply_turn_memory_consistent _ _ _ _ _ (wf_game_memory _ Hwf) Hturn)
    as [Hnd' Hval'].
  destruct (apply_turn_frame _ _ _ _ _ Hturn) as (Hsz & Htp & Hb & Hm & Hs).
  destruct Hwf as (Htotal & Hboard & Hsub & _ & Hseen).
  assert (Hpos : ∀ p, p ∈ MemoriceGame.all_positions game' ↔
                      p ∈ MemoriceGame.all_positions game)
    by (intros p; by rewrite !elem_of_all_positions, Hsz).
  split; [by rewrite Htp, Hsz|]. split; [|split; [|split; [done|]]].
  - intros p Hp%Hpos. rewrite (value_at_board game' game) by done.
    by apply Hboard.
  - intros p Hp. apply Hpos. destruct (Hm p Hp) as [?|[->| ->]]; auto.
  - intros p v Hin. split; [|by apply Hval'].
    apply Hpos. destruct (Hs p v Hin) as [Hold|[->| ->]]; [|done..].
    by apply (Hseen _ _ Hold).
Qed.

(** C1.  When [astar_plan], called on the snapshot of a live game, returns a
    plan, playing the actions of the plan in order on that live game with
    [apply_turn] ends in a game where [is_finished] holds.  The live game is
    any game whose memory holds cards of its board, as every game reached by
    [apply_turn] from an empty memory does. *)
Theorem plan_valid game max_expansions plan :
  memory_consistent game →
  astar_plan (snapshot game) game max_expansions = Ok (Some plan) →
  ∃ final,
    replay game plan = Ok final ∧ MemoriceGame.is_finished final = true.
Proof.
  intros Hwf Hplan. destruct (snapshot_ok game Hwf) as (Hok & Hnd & Hm).
  unfold astar_plan in Hplan.
  apply astar_loop_iterate in Hplan as (n & σ & _ & Hit & Hstep).
  pose proof (iterate_inv _ _ _ _ _ _ (astar_init_inv _ _ Hok Hnd) Hit) as Hinv.
  unfold astar_step in Hstep.
  destruct (heappop (frontier σ)) as [[node rest]|] eqn:Hpop; [|done].
  destruct (heappop_least _ _ _ Hpop) as [Hperm _].
  destruct (inv_frontier _ _ _ Hinv node) as (_ & Hndn & _).
  { rewrite Hperm. left. }
  destruct (is_goal _ _) eqn:Hgoal.
  2:{ case_bool_decide; [done|]. by destruct (successors_state _ _). }
  destruct (reconstruct _ _ _ _) as [path| |] eqn:Hrec; [|done..].
  injection Hstep as ->.
  apply reconstruct_chain in Hrec as (acts & Hch & ->). rewrite app_nil_r.
  destruct (chain_replay game _ σ _ acts game Hinv Hch eq_refl)
    as (final & Hrep & Hmf & _ & Htp).
  { by rewrite key_matched_set. }
  exists final. split; [done|].
  unfold MemoriceGame.is_finished. apply bool_decide_eq_true_2.
  rewrite Hmf, Htp, key_matched_set, size_list_to_set by done.
  unfold is_goal in Hgoal. by apply bool_decide_eq_true_1 in Hgoal.
Qed.

Lemma plan_valid_witness :
  let plan := [(Turn, ((0, 0), (1, 1))%nat); (Turn, ((0, 1), (1, 0))%nat)] in
  memory_consistent (game22 board_a) ∧
  astar_plan (snapshot (game22 board_a)) (game22 board_a) 150000 = Ok (Some plan) ∧
  ∃ final,
    replay (game22 board_a) plan = Ok final ∧
    MemoriceGame.is_finished final = true.
Proof.
  intros plan.
  assert (Hmem : memory_consistent (game22 board_a))
    by apply memory_consistent_empty.
  assert (Hplan : astar_plan (snapshot (game22 board_a)) (game22 board_a) 150000
                  = Ok (Some plan)) by (vm_compute; reflexivity).
  split; [exact Hmem|]. split; [exact Hplan|].
  exact (plan_valid (game22 board_a) 150000 plan Hmem Hplan).
Defined.

(** ** The planner returns *)

Lemma relax_ranked tp key g gkey σ a s' :
  search_ranked σ →
  gscore σ !! key = Some gkey → gkey ≤ g → is_Some (came_from σ !! key) →
  let σ' := relax tp key g σ (a, s', 1) in
  search_ranked σ' ∧ gscore σ' !! key = Some gkey ∧ is_Some (came_from σ' !! key).
Proof.
  intros [Hfr Hlink Hnn] Hkey Hle Hcf. simpl. unfold relax.
  destruct (improves (g + 1) (gscore σ !! state_to_key s')) eqn:Himp;
    [|split; [by constructor|done]].
  pose proof (Hnn _ _ Hkey) as Hgk0.
  assert (Hne : state_to_key s' ≠ key).
  { intros Heq. rewrite Heq, Hkey in Himp. simpl in Himp.
    apply bool_decide_eq_true_1 in Himp. lia. }
  assert (Hold : ∀ g0, gscore σ !! state_to_key s' = Some g0 → g + 1 < g0).
  { intros g0 Hg0. rewrite Hg0 in Himp. simpl in Himp.
    by apply bool_decide_eq_true_1 in Himp. }
  assert (Hsome : ∀ k, is_Some (came_from σ !! k) →
            is_Some (<[state_to_key s' := Some (key, a)]> (came_from σ) !! k)).
  { intros k Hk. destruct (decide (state_to_key s' = k)) as [<-|?].
    - rewrite lookup_insert_eq. by eexists.
    - by rewrite lookup_insert_ne. }
  simpl. split; [|split; [by rewrite lookup_insert_ne|by apply Hsome]].
  constructor; simpl.
  - intros x [Hx| ->%list_elem_of_singleton]%elem_of_app.
    + destruct (Hfr x Hx) as (g0 & Hg0 & Hle0 & Hc0).
      destruct (decide (state_to_key s' = state_to_key (Node.state x))) as [Heq|?].
      * rewrite <-Heq in *. rewrite lookup_insert_eq. exists (g + 1).
        split; [done|]. split; [|by apply Hsome].
        specialize (Hold _ Hg0). lia.
      * rewrite lookup_insert_ne by done. exists g0. auto.
    + simpl. rewrite !lookup_insert_eq. exists (g + 1).
      split; [done|]. split; [lia|by eexists].
  - intros k pk a0. destruct (decide (state_to_key s' = k)) as [<-|Hk].
    + rewrite !lookup_insert_eq. intros [= <- <-]. exists (g + 1), gkey.
      rewrite lookup_insert_ne by done.
      split; [done|]. split; [done|]. split; [lia|by apply Hsome].
    + rewrite !lookup_insert_ne by done. intros Hl.
      destruct (Hlink _ _ _ Hl) as (gk & gp & Hgk & Hgp & Hlt & Hc).
      destruct (decide (state_to_key s' = pk)) as [<-|?].
      * rewrite lookup_insert_eq. exists gk, (g + 1).
        specialize (Hold _ Hgp).
        split; [done|]. split; [done|]. split; [lia|by apply Hsome].
      * rewrite lookup_insert_ne by done. exists gk, gp. auto.
  - intros k g0. destruct (decide (state_to_key s' = k)) as [<-|?].
    + rewrite lookup_insert_eq. intros [= <-]. lia.
    + rewrite lookup_insert_ne by done. apply Hnn.
Qed.

Lemma relax_fold_ranked tp key g gkey succs σ :
  search_ranked σ →
  gscore σ !! key = Some gkey → gkey ≤ g → is_Some (came_from σ !! key) →
  (∀ a s' c, (a, s', c) ∈ succs → c = 1) →
  search_ranked (fold_left (relax tp key g) succs σ).
Proof.
  revert σ. induction succs as [|[[a s'] c] succs IH];
    intros σ Hrk Hkey Hle Hcf Hc; [done|].
  simpl. rewrite (Hc a s' c) by left.
  destruct (relax_ranked tp key g gkey σ a s' Hrk Hkey Hle Hcf) as (? & ? & ?).
  apply IH; try done. intros a0 s0 c0 Hin. eapply Hc. by right.
Qed.

Lemma astar_step_ranked game mx σ σ' :
  search_ranked σ →
  astar_step game mx σ = Continue σ' →
  search_ranked σ'.
Proof.
  intros Hrk. unfold astar_step.
  destruct (heappop (frontier σ)) as [[node rest]|] eqn:Hpop; [|done].
  destruct (is_goal _ _).
  { by destruct (reconstruct _ _ _ _). }
  case_bool_decide; [done|].
  destruct (successors_state _ _) as [succs| |] eqn:Hsucc; [|done..].
  intros [= <-].
  destruct (heappop_least _ _ _ Hpop) as [Hperm _].
  destruct (rk_frontier _ Hrk node) as (gkey & Hkey & Hle & Hcf).
  { rewrite Hperm. left. }
  eapply relax_fold_ranked; [|done..|].
  - destruct Hrk as [Hfr Hlink Hnn]. constructor; simpl; try done.
    intros x Hx. apply Hfr. rewrite Hperm. by right.
  - intros a s' c Hin. destruct (Node.state node) as [matched seen].
    by destruct (successor_matched_bound _ _ _ _ _ _ _ Hsucc Hin) as [_ ->].
Qed.

Lemma iterate_ranked n game mx σ σ' :
  search_ranked σ → iterate n game mx σ = Some σ' → search_ranked σ'.
Proof.
  revert σ. induction n as [|n IH]; intros σ Hrk; simpl.
  { by intros [= <-]. }
  destruct (astar_step game mx σ) as [|σ1| |] eqn:Hstep; try done.
  apply IH. by eapply astar_step_ranked.
Qed.

Lemma astar_init_ranked initial_state game :
  search_ranked (astar_init initial_state game).
Proof.
  constructor; simpl.
  - intros x ->%list_elem_of_singleton. simpl. rewrite !lookup_singleton_eq.
    exists 0. split; [done|]. split; [done|by eexists].
  - intros k pk a. destruct (decide (state_to_key initial_state = k)) as [<-|?].
    + by rewrite lookup_singleton_eq.
    + by rewrite lookup_singleton_ne.
  - intros k g0. destruct (decide (state_to_key initial_state = k)) as [<-|?].
    + rewrite lookup_singleton_eq. by intros [= <-].
    + by rewrite lookup_singleton_ne.
Qed.

Lemma walk_exists σ n k gk :
  search_ranked σ →
  gscore σ !! k = Some gk → gk < Z.of_nat n → is_Some (came_from σ !! k) →
  ∃ ks,
    walk (came_from σ) k ks ∧ NoDup ks ∧
    ∀ k', k' ∈ ks →
      is_Some (came_from σ !! k') ∧ ∃ g', gscore σ !! k' = Some g' ∧ g' ≤ gk.
Proof.
  intros Hrk. revert k gk. induction n as [|n IH]; intros k gk Hgk Hlt Hcf.
  { pose proof (rk_nonneg _ Hrk _ _ Hgk). lia. }
  destruct Hcf as [[[pk a]|] Hk].
  - destruct (rk_link _ Hrk _ _ _ Hk) as (gk' & gp & Hgk' & Hgp & Hlt' & Hcp).
    rewrite Hgk in Hgk'. injection Hgk' as <-.
    destruct (IH pk gp Hgp) as (ks & Hw & Hnd & Hall); [lia|done|].
    exists (k :: ks). split; [by eapply walk_link|]. split.
    + apply NoDup_cons. split; [|done]. intros Hin.
      destruct (Hall _ Hin) as (_ & g' & Hg' & Hle).
      rewrite Hgk in Hg'. injection Hg' as <-. lia.
    + intros k' [->|Hin]%elem_of_cons.
      * split; [by eexists|]. exists gk. split; [done|lia].
      * destruct (Hall _ Hin) as (? & g' & ? & ?). split; [done|].
        exists g'. split; [done|lia].
  - exists [k]. split; [by apply walk_root|]. split; [apply NoDup_singleton|].
    intros k' ->%list_elem_of_singleton. split; [by eexists|].
    exists gk. split; [done|lia].
Qed.

Lemma walk_reconstruct cf k ks fuel acc :
  walk cf k ks → (length ks ≤ fuel)%nat →
  ∃ path, reconstruct fuel cf k acc = Ok path.
Proof.
  intros Hw. revert fuel acc.
  induction Hw as [k Hk|k pk a ks Hk _ IH]; intros fuel acc Hlen;
    (destruct fuel as [|fuel]; [simpl in Hlen; lia|]); simpl; rewrite Hk.
  - by eexists.
  - apply IH. simpl in Hlen. lia.
Qed.

Lemma walk_length (cf : gmap SearchState (option (SearchState * Action))) ks :
  NoDup ks → (∀ k, k ∈ ks → is_Some (cf !! k)) → (length ks ≤ base.size cf)%nat.
Proof.
  intros Hnd Hall. rewrite <-size_dom, <-(size_list_to_set (C := gset SearchState) ks Hnd).
  apply subseteq_size. intros k Hk%elem_of_list_to_set.
  by apply elem_of_dom, Hall.
Qed.

Lemma reconstruct_total σ k gk :
  search_ranked σ →
  gscore σ !! k = Some gk → is_Some (came_from σ !! k) →
  ∃ path, reconstruct (S (base.size (came_from σ))) (came_from σ) k [] = Ok path.
Proof.
  intros Hrk Hgk Hcf.
  destruct (walk_exists σ (S (Z.to_nat gk)) k gk Hrk Hgk) as (ks & Hw & Hnd & Hall);
    [lia|done|].
  eapply walk_reconstruct; [done|].
  assert (length ks ≤ base.size (came_from σ))%nat; [|lia].
  apply walk_length; [done|]. intros k' Hk'. by apply Hall.
Qed.

Lemma successors_total game st :
  board_complete game → state_ok game st →
  ∃ succs, successors_state st game = Ok succs.
Proof.
  intros Hboard Hok. destruct st as [matched seen]. unfold successors_state.
  destruct (known_pairs _ _) as [|s l]; [|by eexists].
  set (ms := list_to_set matched). set (sm := to_dict seen).
  destruct (to_dict_spec seen) as [_ Hsub].
  assert (Hmem : ∀ d, d ∈ memory_positions sm →
            ∃ v, MemoriceGame.value_at game d = Ok v).
  { intros d (e & Hd & He)%list_elem_of_bind.
    destruct (Hok e (Hsub e He)) as (_ & _ & Hall).
    destruct (Hall d Hd) as [_ ?]. by eexists. }
  unfold explore.
  destruct (mapM_total (explore_candidate game ms sm) (candidates_of game ms sm))
    as [per ->]; [|by eexists].
  intros c Hc. destruct (candidates_unmatched _ _ _ _ Hc) as [_ Hcp].
  destruct (Hboard c Hcp) as [v_c Hvc]. unfold explore_candidate.
  destruct (mapM_total (reveal game ms sm c) (memory_partners ms sm c))
    as [l1 ->].
  { intros d Hd. apply list_elem_of_filter in Hd as [_ Hd].
    apply list_elem_of_filter in Hd as [_ Hd].
    destruct (Hmem d Hd) as [v_d Hvd]. by eapply reveal_total. }
  destruct (mapM_total (reveal game ms sm c) (blind_partners game ms c))
    as [l2 ->].
  { intros d Hd. rewrite blind_partners_take in Hd. apply elem_of_take_1 in Hd.
    apply list_elem_of_filter in Hd as [_ Hd].
    apply list_elem_of_filter in Hd as [_ Hd].
    destruct (Hboard d Hd) as [v_d Hvd]. by eapply reveal_total. }
  by eexists.
Qed.

Lemma astar_step_total game k0 mx σ :
  board_complete game → search_inv game k0 σ → search_ranked σ →
  (∃ r, astar_step game mx σ = Return r) ∨
  (∃ σ', astar_step game mx σ = Continue σ').
Proof.
  intros Hboard Hinv Hrk. unfold astar_step.
  destruct (heappop (frontier σ)) as [[node rest]|] eqn:Hpop;
    [|left; by eexists].
  destruct (heappop_least _ _ _ Hpop) as [Hperm _].
  assert (Hin : node ∈ frontier σ) by (rewrite Hperm; left).
  destruct (is_goal _ _).
  - destruct (rk_frontier _ Hrk node Hin) as (gk & Hgk & _ & Hcf).
    destruct (reconstruct_total σ _ gk Hrk Hgk Hcf) as [path ->].
    left. by eexists.
  - case_bool_decide; [left; by eexists|].
    destruct (inv_frontier _ _ _ Hinv node Hin) as (Hok & _ & _).
    destruct (successors_total game _ Hboard Hok) as [succs ->].
    right. by eexists.
Qed.

Lemma astar_loop_total game k0 mx fuel σ :
  board_complete game → search_inv game k0 σ → search_ranked σ →
  (0 < fuel)%nat → mx - expansions σ < Z.of_nat fuel →
  ∃ r, astar_loop fuel game mx σ = Ok r.
Proof.
  intros Hboard. revert σ. induction fuel as [|fuel IH];
    intros σ Hinv Hrk Hpos Hfuel; [lia|]. simpl.
  destruct (astar_step_total game k0 mx σ Hboard Hinv Hrk) as [[r ->]|[σ' Hstep]];
    [by eexists|].
  rewrite Hstep. pose proof (astar_step_continue _ _ _ _ Hstep) as [He Hle].
  apply IH; [by eapply astar_step_inv|by eapply astar_step_ranked|lia..].
Qed.

(** On the snapshot of a live game whose board is complete, [astar_plan]
    returns: a plan or [None], no exception, and no loop without end. *)
Theorem astar_plan_total game max_expansions :
  board_complete game → memory_consistent game →
  ∃ r, astar_plan (snapshot game) game max_expansions = Ok r.
Proof.
  intros Hboard Hmem. destruct (snapshot_ok game Hmem) as (Hok & Hnd & _).
  unfold astar_plan. eapply astar_loop_total; [done| | |lia|simpl; lia].
  - by apply astar_init_inv.
  - apply astar_init_ranked.
Qed.

(** ** Canonical keys of equal knowledge *)

Lemma same_content_incl seen1 seen2 e :
  dict_like seen1 → dict_like seen2 →
  (∀ v p, remembers seen1 v p ↔ remembers seen2 v p) →
  e ∈ sort_entry <$> seen1 → e ∈ sort_entry <$> seen2.
Proof.
  intros [Hk1 Hl1] [Hk2 Hl2] Hsame ([v ps1] & -> & Hin1)%list_elem_of_fmap.
  destruct (Hl1 _ Hin1) as [Hne1 Hnd1]. simpl in *.
  destruct ps1 as [|p0 ps1'] eqn:Hps; [done|]. rewrite <-Hps in *. clear Hne1.
  assert (Hr : remembers seen1 v p0) by (exists ps1; split; [done|rewrite Hps; left]).
  apply Hsame in Hr as (ps2 & Hin2 & _).
  destruct (Hl2 _ Hin2) as [_ Hnd2]. simpl in *.
  apply list_elem_of_fmap. exists (v, ps2). split; [|done].
  unfold sort_entry. simpl. f_equal. apply sorted_perm_eq.
  apply NoDup_Permutation; [done..|]. intros q. split.
  - intros Hq. assert (remembers seen1 v q) as Hq1 by (by exists ps1).
    apply Hsame in Hq1 as (ps & Hin & Hq2).
    apply (elem_dict_get _ _ _ Hk2) in Hin, Hin2. congruence.
  - intros Hq. assert (remembers seen2 v q) as Hq2 by (by exists ps2).
    apply Hsame in Hq2 as (ps & Hin & Hq1).
    apply (elem_dict_get _ _ _ Hk1) in Hin, Hin1. congruence.
Qed.

Lemma same_content_key m1 m2 seen1 seen2 :
  NoDup m1 → NoDup m2 → dict_like seen1 → dict_like seen2 →
  (∀ p, p ∈ m1 ↔ p ∈ m2) →
  (∀ v p, remembers seen1 v p ↔ remembers seen2 v p) →
  state_to_key (m1, seen1) = state_to_key (m2, seen2).
Proof.
  intros Hm1 Hm2 Hd1 Hd2 Hm Hs. unfold state_to_key. f_equal.
  { apply sorted_perm_eq. by apply NoDup_Permutation. }
  apply sorted_perm_eq.
  assert (Hnd : ∀ seen, dict_like seen → NoDup (sort_entry <$> seen)).
  { intros seen [Hk _]. apply (NoDup_fmap_1 fst).
    rewrite <-list_fmap_compose.
    by erewrite list_fmap_ext. }
  apply NoDup_Permutation; [by apply Hnd..|]. intros e. split.
  - by apply same_content_incl.
  - apply same_content_incl; [done..|]. intros v p. by rewrite Hs.
Qed.

(** C7.  Canonicalization is idempotent, [state_to_key (state_to_key s)] is
    [state_to_key s] for every state, and it does not depend on order: two
    snapshots whose matched tuples are rearrangements of each other and
    whose memories hold the same entries up to the order of the entries
    and of the positions inside each entry have the same key; so do two
    snapshots, each without repetition, that have the same set of matched
    positions and remember the same positions under the same values. *)
Theorem state_to_key_canonical :
  (∀ s, state_to_key (state_to_key s) = state_to_key s) ∧
  (∀ m1 m2 seen1 seen2,
     m1 ≡ₚ m2 → same_memory seen1 seen2 →
     state_to_key (m1, seen1) = state_to_key (m2, seen2)) ∧
  (∀ m1 m2 seen1 seen2,
     NoDup m1 → NoDup m2 → dict_like seen1 → dict_like seen2 →
     (∀ p, p ∈ m1 ↔ p ∈ m2) →
     (∀ v p, remembers seen1 v p ↔ remembers seen2 v p) →
     state_to_key (m1, seen1) = state_to_key (m2, seen2)).
Proof.
  split; [apply state_to_key_idemp|].
  split; [apply state_to_key_order|apply same_content_key].
Qed.

Lemma state_to_key_canonical_witness :
  let m1 : list pos := [(1, 1); (0, 0)]%nat in
  let m2 : list pos := [(0, 0); (1, 1)]%nat in
  let seen1 : list entry := [(2, [(1, 0); (0, 1)]%nat); (1, [(0, 2)]%nat)] in
  let seen2 : list entry := [(1, [(0, 2)]%nat); (2, [(0, 1); (1, 0)]%nat)] in
  m1 ≡ₚ m2 ∧ same_memory seen1 seen2 ∧
  state_to_key (m1, seen1) = state_to_key (m2, seen2).
Proof.
  intros m1 m2 seen1 seen2.
  assert (Hm : m1 ≡ₚ m2) by apply Permutation_swap.
  assert (Hs : same_memory seen1 seen2).
  { exists [(1, [(0, 2)]%nat); (2, [(1, 0); (0, 1)]%nat)].
    split; [apply Permutation_swap|].
    repeat constructor. }
  split; [exact Hm|]. split; [exact Hs|].
  exact (proj1 (proj2 state_to_key_canonical) m1 m2 seen1 seen2 Hm Hs).
Defined.

(** * Further properties of the program *)

(** ** The successor generator *)

Lemma state_to_key_freeze M new_seen :
  state_to_key (freeze M new_seen) = freeze M new_seen.
Proof. apply (state_to_key_idemp (elements M, new_seen)). Qed.

Lemma successor_frozen matched seen game succs s :
  successors_state (matched, seen) game = Ok succs → s ∈ succs →
  ∃ M new_seen,
    s.1.2 = freeze M new_seen ∧
    (M = list_to_set matched ∨
     M = {[(s.1.1).2.2]} ∪ ({[(s.1.1).2.1]} ∪ list_to_set matched)).
Proof.
  intros Hsucc Hs.
  destruct (successors_state_spec _ _ _ _ _ Hsucc Hs)
    as [(e & _ & Hk)|(_ & c0 & d & _ & _ & Hr)].
  - apply known_pair_spec in Hk as (p1 & p2 & rest & _ & ->). simpl.
    eexists _, _. split; [done|]. by right.
  - apply reveal_spec in Hr as (v_c & v_d & _ & _ & ->). simpl.
    eexists _, _. split; [done|]. unfold reveal_matched.
    case_decide; [by right|by left].
Qed.

(** X1.  Every state the generator produces is in canonical form: it is its
    own key. *)
Theorem successors_canonical st game succs a s' c :
  successors_state st game = Ok succs → (a, s', c) ∈ succs →
  state_to_key s' = s'.
Proof.
  destruct st as [matched seen]. intros Hsucc Hs.
  destruct (successor_frozen _ _ _ _ _ Hsucc Hs) as (M & ns & Hfr & _).
  simpl in Hfr. rewrite Hfr. apply state_to_key_freeze.
Qed.

Lemma successors_canonical_witness :
  let s' : SearchState := ([(0, 0); (1, 1)]%nat, []) in
  (∃ succs,
     successors_state ([], []) (game22 board_a) = Ok succs ∧
     ((Turn, ((0, 0), (1, 1))%nat), s', 1) ∈ succs) ∧
  state_to_key s' = s'.
Proof.
  intros s'.
  assert (Hex : ∃ succs,
     successors_state ([], []) (game22 board_a) = Ok succs ∧
     ((Turn, ((0, 0), (1, 1))%nat), s', 1) ∈ succs).
  { vm_compute. eexists. split; [reflexivity|]. do 2 right. left. }
  split; [exact Hex|]. destruct Hex as (succs & Hsucc & Hin).
  exact (successors_canonical _ _ _ _ _ _ Hsucc Hin).
Defined.

(** X2.  The matched positions never shrink along a transition: the child
    has every matched position of its parent, has no other than those and
    the two positions of the action, and lists each once. *)
Theorem successors_matched_grows st game succs a s' c :
  successors_state st game = Ok succs → (a, s', c) ∈ succs →
  (∀ p, p ∈ st.1 → p ∈ s'.1) ∧
  (∀ p, p ∈ s'.1 → p ∈ st.1 ∨ p = a.2.1 ∨ p = a.2.2) ∧
  NoDup s'.1.
Proof.
  destruct st as [matched seen]. intros Hsucc Hs.
  destruct (successor_frozen _ _ _ _ _ Hsucc Hs) as (M & ns & Hfr & HM).
  simpl in *. subst s'.
  assert (Hel : ∀ p, p ∈ (freeze M ns).1 ↔ p ∈ M).
  { intros p. unfold freeze. simpl. by rewrite elem_of_sorted, elem_of_elements. }
  split; [|split; [|apply NoDup_freeze]].
  - intros p Hp. apply Hel. apply (elem_of_list_to_set (C := gset pos)) in Hp.
    destruct HM as [->| ->]; [done|].
    rewrite !elem_of_union. auto.
  - intros p Hp%Hel. destruct HM as [->| ->].
    + left. by apply (elem_of_list_to_set (C := gset pos)).
    + rewrite !elem_of_union, !elem_of_singleton, elem_of_list_to_set in Hp. tauto.
Qed.

Lemma successors_matched_grows_witness :
  let st : SearchState := ([(0, 1); (1, 0)]%nat, []) in
  let s' : SearchState := ([(0, 0); (0, 1); (1, 0); (1, 1)]%nat, []) in
  (∃ succs,
     successors_state st (game22 board_a) = Ok succs ∧
     ((Turn, ((0, 0), (1, 1))%nat), s', 1) ∈ succs) ∧
  (∀ p, p ∈ st.1 → p ∈ s'.1) ∧ NoDup s'.1.
Proof.
  intros st s'.
  assert (Hex : ∃ succs,
     successors_state st (game22 board_a) = Ok succs ∧
     ((Turn, ((0, 0), (1, 1))%nat), s', 1) ∈ succs).
  { vm_compute. eexists. split; [reflexivity|]. left. }
  split; [exact Hex|]. destruct Hex as (succs & Hsucc & Hin).
  pose proof (successors_matched_grows _ _ _ _ _ _ Hsucc Hin) as (H1 & _ & H3).
  exact (conj H1 H3).
Defined.

(** X3.  The generator never proposes a matched position: both positions of
    every action are unmatched in the parent; a [Turn] pairs a candidate of
    the board with a different position, and a [Match] comes only from the
    memory. *)
Theorem successors_actions_unmatched st game succs a s' c :
  successors_state st game = Ok succs → (a, s', c) ∈ succs →
  (a.2.1 ∉ st.1) ∧ (a.2.2 ∉ st.1) ∧
  (a.1 = Turn →
   a.2.1 ≠ a.2.2 ∧ a.2.1 ∈ MemoriceGame.all_positions game) ∧
  (a.1 = Match →
   ∃ e, e ∈ st.2 ∧ a.2.1 ∈ e.2 ∧ a.2.2 ∈ e.2).
Proof.
  destruct st as [matched seen]. intros Hsucc Hs. simpl.
  destruct (successors_state_spec _ _ _ _ _ Hsucc Hs)
    as [(e & He & Hk)|(_ & c0 & d & Hc & Hd & Hr)].
  - apply known_pair_spec in Hk as (p1 & p2 & rest & Hav & [= -> -> ->]). simpl.
    assert (Hin : ∀ p, p ∈ p1 :: p2 :: rest → p ∈ e.2 ∧ p ∉ matched).
    { intros p Hp. rewrite <-Hav in Hp.
      apply list_elem_of_filter in Hp as [Hm ?].
      by rewrite elem_of_list_to_set in Hm. }
    destruct (Hin p1) as [? ?]; [left|].
    destruct (Hin p2) as [? ?]; [right; left|].
    split; [done|]. split; [done|]. split; [done|].
    intros _. exists e. split; [|done]. by apply to_dict_spec.
  - destruct (candidates_unmatched _ _ _ _ Hc) as [Hcm Hcp].
    destruct (partners_unmatched _ _ _ _ _ Hd) as [Hne Hdm].
    apply reveal_spec in Hr as (v_c & v_d & _ & _ & [= -> -> ->]). simpl.
    rewrite elem_of_list_to_set in Hcm, Hdm.
    split; [done|]. split; [done|]. split; [|done].
    intros _. split; [by intros <-|done].
Qed.

Lemma successors_actions_unmatched_witness :
  let st : SearchState := ([(0, 1); (1, 0)]%nat, []) in
  let a : Action := (Turn, ((0, 0), (1, 1))%nat) in
  (∃ succs s',
     successors_state st (game22 board_a) = Ok succs ∧ (a, s', 1) ∈ succs) ∧
  (a.2.1 ∉ st.1) ∧ (a.2.2 ∉ st.1).
Proof.
  intros st a.
  assert (Hex : ∃ succs s',
     successors_state st (game22 board_a) = Ok succs ∧ (a, s', 1) ∈ succs).
  { vm_compute. eexists _, _. split; [reflexivity|]. left. }
  split; [exact Hex|]. destruct Hex as (succs & s' & Hsucc & Hin).
  pose proof (successors_actions_unmatched _ _ _ _ _ _ Hsucc Hin) as (H1 & H2 & _).
  exact (conj H1 H2).
Defined.

Lemma mapM_length {A B} (k : A → result B) l bs :
  mapM k l = Ok bs → length bs = length l.
Proof. intros Hm%mapM_Ok. symmetry. by eapply Forall2_length. Qed.

Lemma length_join_bound {A} (ls : list (list A)) b :
  Forall (λ l, length l ≤ b)%nat ls → (length (mjoin ls) ≤ length ls * b)%nat.
Proof.
  induction 1 as [|l ls Hl _ IH]; [done|].
  change (mjoin (l :: ls)) with (l ++ mjoin ls). rewrite length_app. simpl. lia.
Qed.

Lemma length_known_pairs ms sm0 sm :
  (length (sm ≫= known_pair ms sm0) ≤ length sm)%nat.
Proof.
  induction sm as [|[val poses] sm IH]; [done|].
  change (((val, poses) :: sm) ≫= known_pair ms sm0)
    with (known_pair ms sm0 (val, poses) ++ (sm ≫= known_pair ms sm0)).
  rewrite length_app. change (length ((val, poses) :: sm)) with (S (length sm)).
  assert (length (known_pair ms sm0 (val, poses)) ≤ 1)%nat; [|lia].
  unfold known_pair. case_decide; [|simpl; lia].
  destruct (filter _ poses) as [|p1 [|p2 rest]]; simpl; lia.
Qed.

Lemma length_to_dict seen : (length (to_dict seen) ≤ length seen)%nat.
Proof.
  unfold to_dict.
  assert (∀ d : list entry,
    length (fold_left (λ d '(val, poses), dict_set d val poses) seen d)
    ≤ length d + length seen)%nat as Hgen.
  { induction seen as [|[k v] seen IH]; intros d; simpl; [unfold entry; lia|].
    etrans; [apply IH|].
    assert (length (dict_set d k v) ≤ S (length d))%nat; [|unfold entry in *; lia].
    clear. induction d as [|[k' v'] d IH]; simpl; [lia|].
    case_decide; simpl; unfold entry in *; lia. }
  apply (Hgen []).
Qed.

(** X4.  The branching is bounded.  With a known pair the generator returns
    at most one action per remembered value; otherwise at most [K]
    candidates, each with at most the remembered unmatched positions plus
    [K] blind partners. *)
Theorem successors_branching matched seen game succs :
  successors_state (matched, seen) game = Ok succs →
  let ms : gset pos := list_to_set matched in
  let sm := to_dict seen in
  (known_pairs ms sm ≠ [] → length succs ≤ length seen)%nat ∧
  (known_pairs ms sm = [] →
   length succs ≤ K * (length (seen_positions_of ms sm) + K))%nat.
Proof.
  intros Hsucc ms sm. unfold successors_state in Hsucc. fold ms sm in Hsucc.
  split.
  - intros Hne. destruct (known_pairs ms sm) as [|s l] eqn:Hk; [done|].
    injection Hsucc as <-. rewrite <-Hk. unfold known_pairs.
    etrans; [apply length_known_pairs|apply length_to_dict].
  - intros Hk. rewrite Hk in Hsucc. unfold explore in Hsucc.
    destruct (mapM _ (candidates_of game ms sm)) as [per| |] eqn:Hper;
      simpl in Hsucc; try done.
    injection Hsucc as <-.
    assert (Hlen : (length per ≤ K)%nat).
    { rewrite (mapM_length _ _ _ Hper). unfold candidates_of.
      rewrite length_take. lia. }
    etrans; [apply (length_join_bound per (length (seen_positions_of ms sm) + K))|].
    + apply Forall_forall. intros l Hl.
      destruct (mapM_Ok_elem _ _ _ _ Hper Hl) as (c & _ & Hex).
      unfold explore_candidate in Hex.
      destruct (mapM _ (memory_partners ms sm c)) as [l1| |] eqn:H1;
        simpl in Hex; try done.
      destruct (mapM _ (blind_partners game ms c)) as [l2| |] eqn:H2;
        simpl in Hex; try done.
      injection Hex as <-. rewrite length_app.
      rewrite (mapM_length _ _ _ H1), (mapM_length _ _ _ H2).
      assert (length (memory_partners ms sm c)
              ≤ length (seen_positions_of ms sm))%nat by apply length_filter.
      assert (length (blind_partners game ms c) ≤ K)%nat
        by (unfold blind_partners; rewrite length_take; lia).
      lia.
    + apply Nat.mul_le_mono_r. done.
Qed.

Lemma successors_branching_witness :
  ∃ succs,
    successors_state ([], []) (game22 board_a) = Ok succs ∧
    (length succs ≤ K * (0 + K))%nat.
Proof.
  assert (Hex : ∃ succs, successors_state ([], []) (game22 board_a) = Ok succs).
  { vm_compute. eexists. reflexivity. }
  destruct Hex as [succs Hsucc]. exists succs. split; [exact Hsucc|].
  exact (proj2 (successors_branching [] [] (game22 board_a) succs Hsucc) eq_refl).
Defined.

(** ** The game container *)

Lemma bind_singleton_fmap {A B} (f : A → B) (l : list A) :
  l ≫= (λ x, [f x]) = f <$> l.
Proof. induction l as [|x l IH]; [done|]. csimpl. by rewrite IH. Qed.

Lemma all_positions_join game :
  MemoriceGame.all_positions game
  = mjoin ((λ r, pair r <$> seq 0 (MemoriceGame.size game))
             <$> seq 0 (MemoriceGame.size game)).
Proof.
  unfold MemoriceGame.all_positions.
  rewrite list_join_bind, list_fmap_bind. apply list_bind_ext; [|done].
  intros r. simpl. apply bind_singleton_fmap.
Qed.

Lemma all_positions_lookup game r c :
  (r < MemoriceGame.size game)%nat → (c < MemoriceGame.size game)%nat →
  MemoriceGame.all_positions game !! (r * MemoriceGame.size game + c)%nat
  = Some (r, c).
Proof.
  intros Hr Hc. rewrite all_positions_join.
  apply (join_lookup_Some_same_length' (MemoriceGame.size game)); [|done|].
  - apply Forall_forall. intros l (r' & -> & _)%list_elem_of_fmap.
    by rewrite length_fmap, length_seq.
  - exists (pair r <$> seq 0 (MemoriceGame.size game)). split.
    + rewrite list_lookup_fmap, lookup_seq_lt by done. done.
    + rewrite list_lookup_fmap, lookup_seq_lt by done. done.
Qed.

(** X5.  [all_positions] lists the positions of the board in row-major
    order, each once: position [(r, c)] is at index [r * size + c], and
    there are [size * size] of them. *)
Theorem all_positions_row_major game :
  length (MemoriceGame.all_positions game)
    = (MemoriceGame.size game * MemoriceGame.size game)%nat ∧
  NoDup (MemoriceGame.all_positions game) ∧
  ∀ r c, (r < MemoriceGame.size game)%nat → (c < MemoriceGame.size game)%nat →
    MemoriceGame.all_positions game !! (r * MemoriceGame.size game + c)%nat
      = Some (r, c).
Proof.
  split; [apply length_all_positions|]. split; [apply NoDup_all_positions|].
  intros r c Hr Hc. by apply all_positions_lookup.
Qed.

Lemma all_positions_row_major_witness :
  (1 < MemoriceGame.size (game22 board_a))%nat ∧
  (0 < MemoriceGame.size (game22 board_a))%nat ∧
  MemoriceGame.all_positions (game22 board_a) !! (1 * 2 + 0)%nat = Some (1, 0)%nat.
Proof.
  assert (H1 : (1 < MemoriceGame.size (game22 board_a))%nat) by (simpl; lia).
  assert (H0 : (0 < MemoriceGame.size (game22 board_a))%nat) by (simpl; lia).
  split; [exact H1|]. split; [exact H0|].
  exact (proj2 (proj2 (all_positions_row_major (game22 board_a))) 1%nat 0%nat H1 H0).
Defined.

Lemma matched_positions_count game :
  (∀ p, p ∈ MemoriceGame.matched game → p ∈ MemoriceGame.all_positions game) →
  length (filter (λ p, p ∈ MemoriceGame.matched game)
                 (MemoriceGame.all_positions game))
  = base.size (MemoriceGame.matched game).
Proof.
  intros Hsub. unfold base.size, set_size. simpl.
  apply Permutation_length, NoDup_Permutation.
  - apply NoDup_filter, NoDup_all_positions.
  - apply NoDup_elements.
  - intros p. rewrite list_elem_of_filter, elem_of_elements.
    split; [tauto|]. intros Hp. split; [done|by apply Hsub].
Qed.

Lemma length_filter_complement {A} (P : A → Prop) `{∀ x, Decision (P x)} (l : list A) :
  (length (filter P l) + length (filter (λ x, ¬ P x) l) = length l)%nat.
Proof. by rewrite <-length_app, filter_app_complement. Qed.

Lemma unmatched_length game :
  (∀ p, p ∈ MemoriceGame.matched game → p ∈ MemoriceGame.all_positions game) →
  (length (MemoriceGame.unmatched_positions game)
   + base.size (MemoriceGame.matched game)
   = MemoriceGame.size game * MemoriceGame.size game)%nat.
Proof.
  intros Hsub.
  rewrite <-(matched_positions_count game Hsub), <-length_all_positions.
  unfold MemoriceGame.unmatched_positions.
  rewrite Nat.add_comm.
  apply (length_filter_complement (λ p, p ∈ MemoriceGame.matched game)).
Qed.

(** X6.  The unmatched and the matched positions partition the board:
    when every matched position is a position of the board, their numbers
    add up to [size * size]. *)
Theorem unmatched_count game :
  (∀ p, p ∈ MemoriceGame.matched game → p ∈ MemoriceGame.all_positions game) →
  (length (MemoriceGame.unmatched_positions game)
   + base.size (MemoriceGame.matched game)
   = MemoriceGame.size game * MemoriceGame.size game)%nat ∧
  ∀ p, p ∈ MemoriceGame.unmatched_positions game ↔
       p ∈ MemoriceGame.all_positions game ∧ p ∉ MemoriceGame.matched game.
Proof.
  intros Hsub. split; [by apply unmatched_length|].
  intros p. unfold MemoriceGame.unmatched_positions.
  rewrite list_elem_of_filter. tauto.
Qed.

Lemma unmatched_count_witness :
  let game := MemoriceGame.mk 2 2 board_a {[(0, 0)%nat; (1, 1)%nat]} 1 [] in
  (∀ p, p ∈ MemoriceGame.matched game → p ∈ MemoriceGame.all_positions game) ∧
  (length (MemoriceGame.unmatched_positions game)
   + base.size (MemoriceGame.matched game) = 2 * 2)%nat.
Proof.
  intros game.
  assert (Hsub : ∀ p, p ∈ MemoriceGame.matched game →
                      p ∈ MemoriceGame.all_positions game).
  { intros p Hp. apply elem_of_all_positions. simpl in *.
    apply elem_of_union in Hp as [->%elem_of_singleton| ->%elem_of_singleton];
      simpl; lia. }
  split; [exact Hsub|]. exact (proj1 (unmatched_count game Hsub)).
Defined.

(** X7.  On a board of even size, with [total_pairs] set from [size] and
    every matched position on the board, [is_finished] holds exactly when no
    position is left unmatched. *)
Theorem is_finished_iff_all_matched game :
  Nat.Even (MemoriceGame.size game) →
  MemoriceGame.total_pairs game
    = Z.of_nat (MemoriceGame.size game * MemoriceGame.size game) `div` 2 →
  (∀ p, p ∈ MemoriceGame.matched game → p ∈ MemoriceGame.all_positions game) →
  MemoriceGame.is_finished game = true ↔
  MemoriceGame.unmatched_positions game = [].
Proof.
  intros [k Hk] Htp Hsub. pose proof (unmatched_length game Hsub) as Hcount.
  unfold MemoriceGame.is_finished. rewrite bool_decide_eq_true, Htp.
  rewrite Hk in *.
  assert (MemoriceGame.unmatched_positions game = [] ↔
          length (MemoriceGame.unmatched_positions game) = 0%nat) as ->
    by (by destruct (MemoriceGame.unmatched_positions game)).
  set (u := length (MemoriceGame.unmatched_positions game)) in *.
  set (m := base.size (MemoriceGame.matched game)) in *.
  assert (Z.of_nat (2 * k * (2 * k)) = 2 * (2 * Z.of_nat k * Z.of_nat k)) as -> by lia.
  rewrite (Z.mul_comm 2 (2 * Z.of_nat k * Z.of_nat k)), Z.div_mul by lia.
  split.
  - intros Hdiv. assert (2 * (2 * Z.of_nat k * Z.of_nat k) ≤ Z.of_nat m)
      by (Z.to_euclidean_division_equations; lia).
    nia.
  - intros Hu. assert (Z.of_nat m = (2 * Z.of_nat k * Z.of_nat k) * 2) as -> by nia.
    by rewrite Z.div_mul.
Qed.

Lemma is_finished_iff_all_matched_witness :
  Nat.Even (MemoriceGame.size (game22 board_a)) ∧
  (MemoriceGame.is_finished (game22 board_a) = true ↔
   MemoriceGame.unmatched_positions (game22 board_a) = []).
Proof.
  assert (He : Nat.Even (MemoriceGame.size (game22 board_a)))
    by (exists 1%nat; reflexivity).
  split; [exact He|].
  apply (is_finished_iff_all_matched (game22 board_a) He); [reflexivity|].
  intros p Hp. by apply elem_of_empty in Hp.
Defined.

Lemma dict_append_get (mp : list entry) val p k :
  dict_get (dict_append mp val p) k =
  if decide (val = k) then Some (default [] (dict_get mp val) ++ [p])
  else dict_get mp k.
Proof. unfold dict_append. apply dict_set_get. Qed.

Lemma seen_pairs_fold_lookup (M : gset pos) (l : list (pos * value))
    (mp : list entry) v p :
  (∃ ps, dict_get
           (fold_left
              (λ mp '(q, val), if decide (q ∉ M) then dict_append mp val q else mp)
              l mp) v = Some ps ∧ p ∈ ps) ↔
  (∃ ps, dict_get mp v = Some ps ∧ p ∈ ps) ∨ ((p, v) ∈ l ∧ p ∉ M).
Proof.
  revert mp. induction l as [|[q val] l IH]; intros mp; simpl.
  { split; [by left|]. intros [?|[?%elem_of_nil _]]; done. }
  rewrite IH, elem_of_cons. clear IH.
  assert ((∃ ps, dict_get (if decide (q ∉ M) then dict_append mp val q else mp) v
                 = Some ps ∧ p ∈ ps) ↔
          (∃ ps, dict_get mp v = Some ps ∧ p ∈ ps) ∨
          ((p, v) = (q, val) ∧ p ∉ M)) as ->; [|tauto].
  destruct (decide (q ∉ M)) as [Hq|Hq].
  - split.
    + intros (ps & Hg & Hp). rewrite dict_append_get in Hg.
      destruct (decide (val = v)) as [->|?]; [|left; eauto].
      injection Hg as <-. apply elem_of_app in Hp as [Hp| ->%list_elem_of_singleton].
      * left. destruct (dict_get mp v) as [ps|]; [eauto|].
        by apply elem_of_nil in Hp.
      * by right.
    + intros [(ps & Hg & Hp)|[[= -> ->] _]].
      * destruct (decide (val = v)) as [->|?].
        -- eexists. rewrite dict_append_get, decide_True by done.
           split; [done|]. rewrite Hg. simpl. apply elem_of_app. by left.
        -- exists ps. by rewrite dict_append_get, decide_False.
      * eexists. rewrite dict_append_get, decide_True by done.
        split; [done|]. apply elem_of_app. right. left.
  - split; [by left|]. intros [?|[[= -> ->] ?]]; done.
Qed.

(** X8.  [seen_pairs] groups the memory by value: the list under value [v]
    holds position [p] exactly when [p] is remembered with value [v] and is
    not matched. *)
Theorem seen_pairs_lookup game v p :
  (∃ ps, dict_get (MemoriceGame.seen_pairs game) v = Some ps ∧ p ∈ ps) ↔
  (p, v) ∈ MemoriceGame.seen game ∧ p ∉ MemoriceGame.matched game.
Proof.
  unfold MemoriceGame.seen_pairs. rewrite seen_pairs_fold_lookup.
  split; [|by right]. intros [(ps & Hg & _)|?]; done.
Qed.

Lemma dict_pop_absent {K V} `{EqDecision K} (d : list (K * V)) k :
  dict_get d k = None → dict_pop d k = d.
Proof.
  induction d as [|[k' v'] d IH]; simpl; [done|].
  case_decide; [done|]. intros Hg. by rewrite IH.
Qed.

(** X9.  Turning again two different cards of equal value that are already
    matched returns [True] and changes nothing but the move counter. *)
Theorem apply_turn_rematch game p1 p2 v :
  seen_unmatched game →
  p1 ∈ MemoriceGame.matched game → p2 ∈ MemoriceGame.matched game →
  p1 ≠ p2 →
  MemoriceGame.value_at game p1 = Ok v → MemoriceGame.value_at game p2 = Ok v →
  MemoriceGame.apply_turn game p1 p2
  = Ok (MemoriceGame.mk (MemoriceGame.size game) (MemoriceGame.total_pairs game)
          (MemoriceGame.board game) (MemoriceGame.matched game)
          (MemoriceGame.moves game + 1) (MemoriceGame.seen game), true).
Proof.
  intros Hdis Hm1 Hm2 Hne Hv1 Hv2. unfold MemoriceGame.apply_turn.
  rewrite Hv1, Hv2. simpl.
  rewrite !(decide_False (P := _ ∉ _)) by (intros Hn; by apply Hn).
  rewrite decide_True by done.
  rewrite (dict_pop_absent _ p1) by (by apply Hdis).
  rewrite (dict_pop_absent _ p2) by (by apply Hdis).
  do 3 f_equal. apply set_eq. intros p.
  rewrite !elem_of_union, !elem_of_singleton. split; [|tauto].
  intros [->|[->|?]]; done.
Qed.

Lemma apply_turn_rematch_witness :
  let game := MemoriceGame.mk 2 2 board_a {[(0, 0)%nat; (1, 1)%nat]} 1 [] in
  seen_unmatched game ∧
  MemoriceGame.apply_turn game (0, 0)%nat (1, 1)%nat
  = Ok (MemoriceGame.mk 2 2 board_a {[(0, 0)%nat; (1, 1)%nat]} 2 [], true).
Proof.
  intros game.
  assert (Hdis : seen_unmatched game) by (intros p _; reflexivity).
  split; [exact Hdis|].
  apply (apply_turn_rematch game (0, 0)%nat (1, 1)%nat 1 Hdis).
  - apply elem_of_union. left. by apply elem_of_singleton.
  - apply elem_of_union. right. by apply elem_of_singleton.
  - discriminate.
  - reflexivity.
  - reflexivity.
Defined.

Lemma dict_pop_not_key {K V} `{EqDecision K} (d : list (K * V)) k :
  NoDup d.*1 → dict_get (dict_pop d k) k = None.
Proof. intros Hnd. by rewrite dict_pop_get, decide_True. Qed.

(** X10.  [apply_turn] on two positions of the board keeps the invariants of
    the live game: the game stays well formed, no card is both remembered
    and matched, the matched set only grows, and the move counter goes up
    by one. *)
Theorem apply_turn_keeps_invariants game p1 p2 game' b :
  wf_game game → seen_unmatched game →
  p1 ∈ MemoriceGame.all_positions game → p2 ∈ MemoriceGame.all_positions game →
  MemoriceGame.apply_turn game p1 p2 = Ok (game', b) →
  wf_game game' ∧ seen_unmatched game' ∧
  MemoriceGame.matched game ⊆ MemoriceGame.matched game' ∧
  MemoriceGame.moves game' = MemoriceGame.moves game + 1.
Proof.
  intros Hwf Hdis Hp1 Hp2 Hturn.
  split; [exact (apply_turn_wf_game _ _ _ _ _ Hwf Hp1 Hp2 Hturn)|].
  destruct (wf_game_memory _ Hwf) as [Hnd _]. revert Hturn.
  unfold MemoriceGame.apply_turn.
  destruct (MemoriceGame.value_at game p1) as [v1| |]; simpl; try done.
  destruct (MemoriceGame.value_at game p2) as [v2| |]; simpl; try done.
  set (seen1 := if decide (p1 ∉ MemoriceGame.matched game)
                then dict_set (MemoriceGame.seen game) p1 v1
                else MemoriceGame.seen game).
  set (seen2 := if decide (p2 ∉ MemoriceGame.matched game)
                then dict_set seen1 p2 v2 else seen1).
  assert (Hnd1 : NoDup seen1.*1)
    by (unfold seen1; case_decide; [by apply dict_set_NoDup|done]).
  assert (Hnd2 : NoDup seen2.*1)
    by (unfold seen2; case_decide; [by apply dict_set_NoDup|done]).
  assert (Hdis2 : ∀ p, p ∈ MemoriceGame.matched game → dict_get seen2 p = None).
  { intros p Hp. unfold seen2, seen1.
    repeat case_decide; rewrite ?dict_set_get;
      repeat (rewrite decide_False by (intros <-; done)); by apply Hdis. }
  case_decide; intros [= <- <-]; simpl.
  - split; [|split; [intros q Hq; rewrite !elem_of_union; auto|done]].
    intros p. unfold seen_unmatched. simpl.
    rewrite !elem_of_union, !elem_of_singleton. intros Hp.
    destruct (decide (p2 = p)) as [<-|?].
    { by apply dict_pop_not_key, dict_pop_NoDup. }
    rewrite dict_pop_get, decide_False by (done || by apply dict_pop_NoDup).
    destruct (decide (p1 = p)) as [<-|?].
    { by apply dict_pop_not_key. }
    rewrite dict_pop_get, decide_False by done.
    apply Hdis2. by destruct Hp as [?|[?|?]].
  - split; [done|]. split; done.
Qed.

Lemma apply_turn_keeps_invariants_witness :
  wf_game game_one_turn ∧ seen_unmatched game_one_turn ∧
  ∃ game' b,
    MemoriceGame.apply_turn game_one_turn (1, 1)%nat (0, 0)%nat = Ok (game', b) ∧
    wf_game game' ∧ seen_unmatched game' ∧
    MemoriceGame.moves game' = MemoriceGame.moves game_one_turn + 1.
Proof.
  assert (Hwf : wf_game game_one_turn).
  { split; [reflexivity|]. split; [|split; [|split]].
    - intros [r c] [Hr Hc]%elem_of_all_positions. simpl in *.
      destruct r as [|[|r]], c as [|[|c]]; try lia; by eexists.
    - intros p Hp. by apply elem_of_empty in Hp.
    - apply (bool_decide_unpack _). vm_compute. exact I.
    - intros p v Hin. simpl in Hin.
      apply elem_of_cons in Hin as [[= -> ->]|Hin];
        [split; [apply elem_of_all_positions; simpl; lia|reflexivity]|].
      apply list_elem_of_singleton in Hin as [= -> ->].
      split; [apply elem_of_all_positions; simpl; lia|reflexivity]. }
  assert (Hdis : seen_unmatched game_one_turn).
  { intros p Hp. by apply elem_of_empty in Hp. }
  assert (H1 : (1, 1)%nat ∈ MemoriceGame.all_positions game_one_turn)
    by (apply elem_of_all_positions; simpl; lia).
  assert (H2 : (0, 0)%nat ∈ MemoriceGame.all_positions game_one_turn)
    by (apply elem_of_all_positions; simpl; lia).
  assert (Hex : ∃ game' b,
    MemoriceGame.apply_turn game_one_turn (1, 1)%nat (0, 0)%nat = Ok (game', b)).
  { eexists _, _. reflexivity. }
  split; [exact Hwf|]. split; [exact Hdis|].
  destruct Hex as (game' & b & Hturn). exists game', b. split; [exact Hturn|].
  pose proof (apply_turn_keeps_invariants _ _ _ _ _ Hwf Hdis H1 H2 Hturn)
    as (Ha & Hb & _ & Hd).
  exact (conj Ha (conj Hb Hd)).
Defined.

(** ** Keys and node identity *)

Lemma fmap_Permutation_inv {A B} (f : A → B) (l : list A) (k : list B) :
  f <$> l ≡ₚ k → ∃ l', l ≡ₚ l' ∧ f <$> l' = k.
Proof.
  intros Hp. remember (f <$> l) as m eqn:Hm. revert l Hm.
  induction Hp as [|x m k _ IH|x y m|m1 m2 m3 _ IH1 _ IH2]; intros l Hm.
  - destruct l; [|done]. by exists [].
  - destruct l as [|a l]; [done|]. injection Hm as -> ->.
    destruct (IH l eq_refl) as (l' & Hl & <-).
    exists (a :: l'). split; [by constructor|done].
  - destruct l as [|a [|b l]]; [done..|]. injection Hm as -> -> ->.
    exists (b :: a :: l). split; [apply Permutation_swap|done].
  - destruct (IH1 l Hm) as (l1 & Hl1 & Hf1).
    destruct (IH2 l1 (eq_sym Hf1)) as (l2 & Hl2 & Hf2).
    exists l2. split; [by trans l1|done].
Qed.

Lemma sort_entry_same_inv e1 e2 : sort_entry e1 = sort_entry e2 → same_entry e1 e2.
Proof.
  destruct e1 as [v1 p1], e2 as [v2 p2]. unfold sort_entry, same_entry. simpl.
  intros [= -> Hs]. split; [done|].
  by rewrite <-(sorted_Permutation p1), <-(sorted_Permutation p2), Hs.
Qed.

(** X11.  Two states have the same key exactly when they hold the same
    knowledge in a different order: the matched tuples are rearrangements
    of each other and so are the memories, entry by entry. *)
Theorem state_to_key_eq_iff m1 m2 seen1 seen2 :
  state_to_key (m1, seen1) = state_to_key (m2, seen2) ↔
  m1 ≡ₚ m2 ∧ same_memory seen1 seen2.
Proof.
  split; [|intros [??]; by apply state_to_key_order].
  unfold state_to_key. intros [= Hm Hs]. split.
  - by rewrite <-(sorted_Permutation m1), <-(sorted_Permutation m2), Hm.
  - assert (sort_entry <$> seen1 ≡ₚ sort_entry <$> seen2) as Hp.
    { by rewrite <-(sorted_Permutation (sort_entry <$> seen1)),
                 <-(sorted_Permutation (sort_entry <$> seen2)), Hs. }
    apply fmap_Permutation_inv in Hp as (seen & Hperm & Hf).
    exists seen. split; [done|]. clear Hperm Hs Hm.
    revert seen2 Hf. induction seen as [|e seen IH]; intros [|e2 seen2] Hf;
      try done.
    rewrite !fmap_cons in Hf.
    assert (sort_entry e = sort_entry e2 ∧ sort_entry <$> seen = sort_entry <$> seen2)
      as [He Hf'] by (split; congruence).
    constructor; [by apply sort_entry_same_inv|by apply IH].
Qed.

(** ** The planner: budget and length of the plan *)

Lemma astar_step_budget_continue game mx mx' σ σ' :
  mx ≤ mx' →
  astar_step game mx σ = Continue σ' → astar_step game mx' σ = Continue σ'.
Proof.
  intros Hle. unfold astar_step.
  destruct (heappop (frontier σ)) as [[node rest]|]; [|done].
  destruct (is_goal _ _); [done|].
  case_bool_decide as H1; [done|]. rewrite bool_decide_eq_false_2 by lia. done.
Qed.

Lemma astar_step_budget_found game mx mx' σ plan :
  astar_step game mx σ = Return (Some plan) →
  astar_step game mx' σ = Return (Some plan).
Proof.
  unfold astar_step.
  destruct (heappop (frontier σ)) as [[node rest]|]; [|done].
  destruct (is_goal _ _); [done|].
  case_bool_decide; [done|]. by destruct (successors_state _ _).
Qed.

Lemma iterate_budget n game mx mx' σ σ' :
  mx ≤ mx' →
  iterate n game mx σ = Some σ' → iterate n game mx' σ = Some σ'.
Proof.
  intros Hle. revert σ. induction n as [|n IH]; intros σ; simpl; [done|].
  destruct (astar_step game mx σ) as [|σ1| |] eqn:Hstep; try done.
  rewrite (astar_step_budget_continue _ _ _ _ _ Hle Hstep). apply IH.
Qed.

(** X12.  A larger budget never loses a plan: when [astar_plan] finds a plan
    within [max_expansions], it finds the same plan within any larger
    budget. *)
Theorem astar_plan_budget_monotone initial_state game max_expansions budget plan :
  max_expansions ≤ budget →
  astar_plan initial_state game max_expansions = Ok (Some plan) →
  astar_plan initial_state game budget = Ok (Some plan).
Proof.
  intros Hle Hplan. unfold astar_plan in *.
  apply astar_loop_iterate in Hplan as (n & σ & Hn & Hit & Hstep).
  apply (iterate_astar_loop n _ _ _ _ σ).
  - assert (Z.to_nat max_expansions ≤ Z.to_nat budget)%nat by lia. lia.
  - by eapply iterate_budget.
  - by eapply astar_step_budget_found.
Qed.

Lemma astar_plan_budget_monotone_witness :
  let plan := [(Turn, ((0, 0), (1, 1))%nat); (Turn, ((0, 1), (1, 0))%nat)] in
  3 ≤ 150000 ∧
  astar_plan ([], []) (game22 board_a) 3 = Ok (Some plan) ∧
  astar_plan ([], []) (game22 board_a) 150000 = Ok (Some plan).
Proof.
  intros plan.
  assert (Hle : 3 ≤ 150000) by lia.
  assert (Hplan : astar_plan ([], []) (game22 board_a) 3 = Ok (Some plan))
    by (vm_compute; reflexivity).
  split; [exact Hle|]. split; [exact Hplan|].
  exact (astar_plan_budget_monotone _ _ _ _ _ Hle Hplan).
Defined.

Lemma apply_turn_step game p1 p2 game' b :
  MemoriceGame.apply_turn game p1 p2 = Ok (game', b) →
  MemoriceGame.moves game' = MemoriceGame.moves game + 1 ∧
  MemoriceGame.matched game ⊆ MemoriceGame.matched game' ∧
  (base.size (MemoriceGame.matched game')
   ≤ base.size (MemoriceGame.matched game) + 2)%nat.
Proof.
  unfold MemoriceGame.apply_turn.
  destruct (MemoriceGame.value_at game p1) as [v1| |]; simpl; try done.
  destruct (MemoriceGame.value_at game p2) as [v2| |]; simpl; try done.
  case_decide; intros [= <- <-]; simpl.
  - split; [done|]. split; [|apply size_add_pair].
    intros q Hq. rewrite !elem_of_union. auto.
  - split; [done|]. split; [done|lia].
Qed.

Lemma replay_frame game plan final :
  replay game plan = Ok final →
  MemoriceGame.moves final = MemoriceGame.moves game + Z.of_nat (length plan) ∧
  MemoriceGame.matched game ⊆ MemoriceGame.matched final ∧
  (base.size (MemoriceGame.matched final)
   ≤ base.size (MemoriceGame.matched game) + 2 * length plan)%nat ∧
  MemoriceGame.board final = MemoriceGame.board game ∧
  MemoriceGame.total_pairs final = MemoriceGame.total_pairs game.
Proof.
  revert game. induction plan as [|[k [p1 p2]] plan IH]; intros game; simpl.
  { intros [= <-]. split; [lia|]. split; [done|]. split; [lia|done]. }
  destruct (MemoriceGame.apply_turn game p1 p2) as [[game1 b]| |] eqn:Hturn;
    simpl; try done.
  intros Hrep. destruct (IH _ Hrep) as (Hmv & Hsub & Hsz & Hb & Htp).
  destruct (apply_turn_step _ _ _ _ _ Hturn) as (Hmv1 & Hsub1 & Hsz1).
  destruct (apply_turn_frame _ _ _ _ _ Hturn) as (_ & Htp1 & Hb1 & _).
  split; [lia|]. split; [by trans (MemoriceGame.matched game1)|].
  split; [lia|]. split; congruence.
Qed.

(** X13.  Playing a list of actions costs one move each, never removes a
    matched position, and matches at most two positions per action; the
    board and [total_pairs] stay as they are. *)
Theorem replay_accounting game plan final :
  replay game plan = Ok final →
  MemoriceGame.moves final = MemoriceGame.moves game + Z.of_nat (length plan) ∧
  MemoriceGame.matched game ⊆ MemoriceGame.matched final ∧
  (base.size (MemoriceGame.matched final)
   ≤ base.size (MemoriceGame.matched game) + 2 * length plan)%nat ∧
  MemoriceGame.board final = MemoriceGame.board game ∧
  MemoriceGame.total_pairs final = MemoriceGame.total_pairs game.
Proof.
  revert game. induction plan as [|[k [p1 p2]] plan IH]; intros game; simpl.
  { intros [= <-]. split; [lia|]. split; [done|]. split; [lia|done]. }
  destruct (MemoriceGame.apply_turn game p1 p2) as [[game1 b]| |] eqn:Hturn;
    simpl; try done.
  intros Hrep. destruct (IH _ Hrep) as (Hmv & Hsub & Hsz & Hb & Htp).
  destruct (apply_turn_step _ _ _ _ _ Hturn) as (Hmv1 & Hsub1 & Hsz1).
  destruct (apply_turn_frame _ _ _ _ _ Hturn) as (_ & Htp1 & Hb1 & _).
  split; [lia|]. split; [by trans (MemoriceGame.matched game1)|].
  split; [lia|]. split; congruence.
Qed.

Lemma replay_accounting_witness :
  let plan := [(Turn, ((0, 0), (1, 1))%nat); (Turn, ((0, 1), (1, 0))%nat)] in
  ∃ final,
    replay (game22 board_a) plan = Ok final ∧
    MemoriceGame.moves final = 0 + 2.
Proof.
  intros plan.
  assert (Hex : ∃ final, replay (game22 board_a) plan = Ok final)
    by (eexists; reflexivity).
  destruct Hex as [final Hrep]. exists final. split; [exact Hrep|].
  exact (proj1 (replay_accounting (game22 board_a) plan final Hrep)).
Defined.

(** The plan [astar_plan] returns, replayed: the helper behind the bounds
    on its length. *)
Lemma plan_replay_finished game max_expansions plan :
  memory_consistent game →
  astar_plan (snapshot game) game max_expansions = Ok (Some plan) →
  ∃ final,
    replay game plan = Ok final ∧
    Z.of_nat (base.size (MemoriceGame.matched final)) `div` 2
      = MemoriceGame.total_pairs game.
Proof.
  intros Hmem Hplan. destruct (snapshot_ok game Hmem) as (Hok & Hnd & Hm).
  unfold astar_plan in Hplan.
  apply astar_loop_iterate in Hplan as (n & σ & _ & Hit & Hstep).
  pose proof (iterate_inv _ _ _ _ _ _ (astar_init_inv _ _ Hok Hnd) Hit) as Hinv.
  unfold astar_step in Hstep.
  destruct (heappop (frontier σ)) as [[node rest]|] eqn:Hpop; [|done].
  destruct (heappop_least _ _ _ Hpop) as [Hperm _].
  destruct (inv_frontier _ _ _ Hinv node) as (_ & Hndn & _).
  { rewrite Hperm. left. }
  destruct (is_goal _ _) eqn:Hgoal;
    [|case_bool_decide; [done|]; by destruct (successors_state _ _)].
  destruct (reconstruct _ _ _ _) as [path| |] eqn:Hrec; [|done..].
  injection Hstep as ->.
  apply reconstruct_chain in Hrec as (acts & Hch & ->). rewrite app_nil_r.
  destruct (chain_replay game _ σ _ acts game Hinv Hch eq_refl)
    as (final & Hrep & Hmf & _ & _); [by rewrite key_matched_set|].
  exists final. split; [done|].
  rewrite Hmf, key_matched_set, size_list_to_set by done.
  unfold is_goal in Hgoal. by apply bool_decide_eq_true_1 in Hgoal.
Qed.

(** X14.  A plan is never shorter than the number of pairs still to find:
    when [astar_plan] returns a plan for the snapshot of a live game, the
    plan has at least [total_pairs] minus the matched pairs of the game
    actions, and playing it costs exactly one move per action. *)
Theorem plan_length_bound game max_expansions plan :
  memory_consistent game →
  astar_plan (snapshot game) game max_expansions = Ok (Some plan) →
  MemoriceGame.total_pairs game
    - Z.of_nat (base.size (MemoriceGame.matched game)) `div` 2
    ≤ Z.of_nat (length plan) ∧
  ∃ final,
    replay game plan = Ok final ∧
    MemoriceGame.moves final = MemoriceGame.moves game + Z.of_nat (length plan).
Proof.
  intros Hmem Hplan.
  destruct (plan_replay_finished _ _ _ Hmem Hplan) as (final & Hrep & Hfin).
  destruct (replay_frame _ _ _ Hrep) as (Hmv & _ & Hsz & _).
  split; [|by exists final].
  rewrite <-Hfin.
  assert (Z.of_nat (base.size (MemoriceGame.matched final)) `div` 2
          ≤ (Z.of_nat (base.size (MemoriceGame.matched game))
             + Z.of_nat (length plan) * 2) `div` 2)
    by (apply Z.div_le_mono; lia).
  rewrite Z.div_add in H by lia. lia.
Qed.

Lemma plan_length_bound_witness :
  let plan := [(Turn, ((0, 0), (1, 1))%nat); (Turn, ((0, 1), (1, 0))%nat)] in
  memory_consistent (game22 board_a) ∧
  astar_plan (snapshot (game22 board_a)) (game22 board_a) 150000 = Ok (Some plan) ∧
  2 - 0 ≤ Z.of_nat (length plan).
Proof.
  intros plan.
  assert (Hmem : memory_consistent (game22 board_a))
    by apply memory_consistent_empty.
  assert (Hplan : astar_plan (snapshot (game22 board_a)) (game22 board_a) 150000
                  = Ok (Some plan)) by (vm_compute; reflexivity).
  split; [exact Hmem|]. split; [exact Hplan|].
  exact (proj1 (plan_length_bound (game22 board_a) 150000 plan Hmem Hplan)).
Defined.

(** ** The greedy policy and the turn it asks for *)

Lemma first_known_pair_None sp val poses :
  first_known_pair sp = None → (val, poses) ∈ sp → (length poses < 2)%nat.
Proof.
  induction sp as [|[v [|q1 [|q2 rest]]] sp IH]; simpl; try done.
  - by intros _ ?%elem_of_nil.
  - intros Hn [[= -> ->]|Hin]%elem_of_cons; [simpl; lia|by apply IH].
  - intros Hn [[= -> ->]|Hin]%elem_of_cons; [simpl; lia|by apply IH].
Qed.

Lemma apply_turn_pair game p1 p2 v :
  MemoriceGame.value_at game p1 = Ok v →
  MemoriceGame.value_at game p2 = Ok v → p1 ≠ p2 →
  ∃ game', MemoriceGame.apply_turn game p1 p2 = Ok (game', true) ∧
           MemoriceGame.matched game'
           = {[p2]} ∪ ({[p1]} ∪ MemoriceGame.matched game).
Proof.
  intros H1 H2 Hne. unfold MemoriceGame.apply_turn. rewrite H1, H2. simpl.
  rewrite decide_True by done. by eexists.
Qed.

(** X15.  Memory first: when the memory of the live game holds two unmatched
    positions of one value, [greedy_policy] asks, whatever the random draws,
    for a turn of two distinct unmatched positions, and [apply_turn] on that
    turn pairs them. *)
Theorem greedy_known_pair_matches game val poses :
  memory_consistent game →
  (val, poses) ∈ MemoriceGame.seen_pairs game → (2 ≤ length poses)%nat →
  ∃ p1 p2 game',
    (∀ r1 r2, greedy_policy game r1 r2 = Ok (Turn, (p1, p2))) ∧
    p1 ≠ p2 ∧ (p1 ∉ MemoriceGame.matched game) ∧
    (p2 ∉ MemoriceGame.matched game) ∧
    MemoriceGame.apply_turn game p1 p2 = Ok (game', true) ∧
    MemoriceGame.matched game' = {[p2]} ∪ ({[p1]} ∪ MemoriceGame.matched game).
Proof.
  intros [Hnd Hseen] Hin Hlen.
  destruct (first_known_pair (MemoriceGame.seen_pairs game))
    as [[p1 p2]|] eqn:Hfirst;
    [|pose proof (first_known_pair_None _ _ _ Hfirst Hin); lia].
  pose proof Hfirst as Hf.
  apply first_known_pair_Some in Hf as (v & rest & Hin').
  destruct (seen_pairs_spec game Hnd) as [_ Hsp].
  destruct (Hsp _ Hin') as (_ & Hnd' & Hall). simpl in *.
  destruct (Hall p1) as [Hs1 Hm1]; [left|].
  destruct (Hall p2) as [Hs2 Hm2]; [right; left|].
  assert (p1 ≠ p2) as Hne.
  { intros ->. apply NoDup_cons in Hnd' as [Hn _]. apply Hn. left. }
  destruct (apply_turn_pair game p1 p2 v (Hseen _ _ Hs1) (Hseen _ _ Hs2) Hne)
    as (game' & Hturn & Hm).
  exists p1, p2, game'. split; [|done].
  intros r1 r2. unfold greedy_policy. by rewrite Hfirst.
Qed.

Lemma greedy_known_pair_matches_witness :
  let game := MemoriceGame.mk 2 2 board_a ∅ 1 [((0, 0)%nat, 1); ((1, 1)%nat, 1)] in
  memory_consistent game ∧
  ∃ p1 p2 game',
    (∀ r1 r2, greedy_policy game r1 r2 = Ok (Turn, (p1, p2))) ∧
    p1 ≠ p2 ∧ (p1 ∉ MemoriceGame.matched game) ∧
    (p2 ∉ MemoriceGame.matched game) ∧
    MemoriceGame.apply_turn game p1 p2 = Ok (game', true) ∧
    MemoriceGame.matched game' = {[p2]} ∪ ({[p1]} ∪ MemoriceGame.matched game).
Proof.
  intros game.
  assert (Hmem : memory_consistent game).
  { split.
    - apply (bool_decide_unpack _). vm_compute. exact I.
    - intros p v Hin. simpl in Hin.
      apply elem_of_cons in Hin as [[= -> ->]|Hin]; [reflexivity|].
      apply list_elem_of_singleton in Hin as [= -> ->]. reflexivity. }
  assert (Hin : (1, [(0, 0); (1, 1)]%nat) ∈ MemoriceGame.seen_pairs game)
    by (vm_compute; left).
  split; [exact Hmem|].
  apply (greedy_known_pair_matches game 1 [(0, 0); (1, 1)]%nat Hmem Hin).
  simpl. lia.
Defined.

(** X16.  A remembered partner is used: when no pair is known and the card
    [greedy_policy] draws first has its value remembered at another
    unmatched position, the second position of the turn is such a
    remembered position, and [apply_turn] pairs the two. *)
Theorem greedy_recalls_partner game r1 r2 p1 p2 v1 q :
  memory_consistent game →
  first_known_pair (MemoriceGame.seen_pairs game) = None →
  greedy_policy game r1 r2 = Ok (Turn, (p1, p2)) →
  MemoriceGame.value_at game p1 = Ok v1 →
  (q, v1) ∈ MemoriceGame.seen game → q ≠ p1 →
  q ∉ MemoriceGame.matched game →
  (p2, v1) ∈ MemoriceGame.seen game ∧ p2 ≠ p1 ∧
  (p2 ∉ MemoriceGame.matched game) ∧
  ∃ game', MemoriceGame.apply_turn game p1 p2 = Ok (game', true).
Proof.
  intros [Hnd Hseen] Hfirst Hg Hv1 Hq Hne Hqm.
  unfold greedy_policy in Hg. rewrite Hfirst in Hg.
  destruct (choice r1 _) as [p| |]; simpl in Hg; try done.
  destruct (MemoriceGame.value_at game p) as [v| |] eqn:Hv; simpl in Hg;
    try done.
  destruct (find _ (MemoriceGame.seen game)) as [[p' v']|] eqn:Hfind.
  - injection Hg as -> ->. rewrite Hv in Hv1. injection Hv1 as ->.
    apply find_some in Hfind as [Hin Hp]. apply list_elem_of_In in Hin.
    apply bool_decide_eq_true_1 in Hp as (-> & Hne' & Hm).
    do 3 (split; [done|]).
    destruct (apply_turn_pair game p1 p2 v1 Hv (Hseen _ _ Hin))
      as (game' & Hturn & _); [done|]. by exists game'.
  - exfalso.
    assert (p = p1) as ->.
    { destruct (filter _ _); [|destruct (choice r2 _); simpl in Hg];
        congruence. }
    rewrite Hv in Hv1. injection Hv1 as ->.
    apply list_elem_of_In in Hq.
    pose proof (find_none _ _ Hfind _ Hq) as Hb. simpl in Hb.
    apply bool_decide_eq_false_1 in Hb. by apply Hb.
Qed.

Lemma greedy_recalls_partner_witness :
  let game := MemoriceGame.mk 2 2 board_a ∅ 1 [((0, 0)%nat, 1); ((0, 1)%nat, 2)] in
  memory_consistent game ∧
  greedy_policy game 0 0 = Ok (Turn, ((1, 0), (0, 1))%nat) ∧
  ∃ game', MemoriceGame.apply_turn game (1, 0)%nat (0, 1)%nat = Ok (game', true).
Proof.
  intros game.
  assert (Hmem : memory_consistent game).
  { split.
    - apply (bool_decide_unpack _). vm_compute. exact I.
    - intros p v Hin. simpl in Hin.
      apply elem_of_cons in Hin as [[= -> ->]|Hin]; [reflexivity|].
      apply list_elem_of_singleton in Hin as [= -> ->]. reflexivity. }
  assert (Hfirst : first_known_pair (MemoriceGame.seen_pairs game) = None)
    by reflexivity.
  assert (Hg : greedy_policy game 0 0 = Ok (Turn, ((1, 0), (0, 1))%nat))
    by (vm_compute; reflexivity).
  assert (Hv : MemoriceGame.value_at game (1, 0)%nat = Ok 2) by reflexivity.
  assert (Hq : ((0, 1)%nat, 2) ∈ MemoriceGame.seen game) by (right; left).
  assert (Hne : (0, 1)%nat ≠ (1, 0)%nat) by discriminate.
  assert (Hqm : (0, 1)%nat ∉ MemoriceGame.matched game) by apply not_elem_of_empty.
  split; [exact Hmem|]. split; [exact Hg|].
  exact (proj2 (proj2 (proj2
    (greedy_recalls_partner game 0 0 _ _ _ _ Hmem Hfirst Hg Hv Hq Hne Hqm)))).
Defined.

(** ** A new game: the board [_generate_board] deals *)

Lemma half_even n :
  Nat.Even n → 2 * (Z.of_nat (n * n) `div` 2) = Z.of_nat (n * n).
Proof.
  intros [m ->].
  rewrite <-(Z.div_unique (Z.of_nat (2 * m * (2 * m))) 2
                          (Z.of_nat (2 * m * m)) 0); lia.
Qed.

Lemma half_odd n :
  Nat.Odd n → 2 * (Z.of_nat (n * n) `div` 2) + 1 = Z.of_nat (n * n).
Proof.
  intros [m ->].
  rewrite <-(Z.div_unique (Z.of_nat ((2 * m + 1) * (2 * m + 1))) 2
                          (Z.of_nat (2 * m * m + 2 * m)) 1); lia.
Qed.

Lemma length_shuffled size shuffle :
  rearranges shuffle →
  Z.of_nat (length (shuffle (seqZ 1 (Z.of_nat (size * size) `div` 2)
                             ++ seqZ 1 (Z.of_nat (size * size) `div` 2))))
  = 2 * (Z.of_nat (size * size) `div` 2).
Proof.
  intros Hsh. rewrite (Permutation_length (Hsh _)), length_app, length_seqZ.
  assert (0 ≤ Z.of_nat (size * size) `div` 2) by (apply Z.div_pos; lia). lia.
Qed.

Lemma new_game_value_at size shuffle r c :
  (r < size)%nat → (c < size)%nat →
  MemoriceGame.value_at (__init__ size shuffle) (r, c)
  = of_option IndexError
      (shuffle (seqZ 1 (Z.of_nat (size * size) `div` 2)
                ++ seqZ 1 (Z.of_nat (size * size) `div` 2))
       !! (r * size + c)%nat).
Proof.
  intros Hr Hc. unfold MemoriceGame.value_at. simpl. unfold _generate_board.
  rewrite list_lookup_fmap, lookup_seq_lt by done. simpl.
  unfold slice. rewrite lookup_drop, lookup_take_lt by lia. done.
Qed.

Lemma new_game_value_at_on_board size shuffle p v :
  MemoriceGame.value_at (__init__ size shuffle) p = Ok v →
  p ∈ MemoriceGame.all_positions (__init__ size shuffle) ∧
  v ∈ shuffle (seqZ 1 (Z.of_nat (size * size) `div` 2)
               ++ seqZ 1 (Z.of_nat (size * size) `div` 2)).
Proof.
  destruct p as [r c]. unfold MemoriceGame.value_at. simpl.
  unfold _generate_board. rewrite list_lookup_fmap.
  destruct (seq 0 size !! r) as [i|] eqn:Hi; simpl; [|done].
  apply lookup_seq in Hi as [-> Hr]. simpl in *. unfold slice.
  rewrite lookup_drop.
  destruct (take _ _ !! _) as [x|] eqn:Hx; simpl; [|done]. intros [= ->].
  apply lookup_take_Some in Hx as [Hx Hlt].
  split; [apply elem_of_all_positions; simpl; lia|].
  by eapply list_elem_of_lookup_2.
Qed.

Lemma length_filter_fmap {A B} (f : A → B) (P : B → Prop) (Q : A → Prop)
    `{∀ y, Decision (P y)} `{∀ x, Decision (Q x)} (l : list A) :
  (∀ x, Q x ↔ P (f x)) →
  length (filter Q l) = length (filter P (f <$> l)).
Proof.
  intros HQ. induction l as [|x l IH]; [done|].
  rewrite fmap_cons, !filter_cons.
  destruct (decide (Q x)) as [Hx|Hx], (decide (P (f x))) as [Hy|Hy]; simpl;
    rewrite ?IH; try done; by apply HQ in Hx || apply HQ in Hy.
Qed.

Lemma length_filter_eq_NoDup `{EqDecision A} (l : list A) (x : A) :
  NoDup l → x ∈ l → length (filter (λ y, y = x) l) = 1%nat.
Proof.
  induction 1 as [|y l Hy Hnd IH]; [by intros ?%elem_of_nil|].
  rewrite filter_cons. intros [->|Hin]%elem_of_cons.
  - rewrite decide_True by done. simpl. f_equal.
    destruct (filter (λ z, z = y) l) as [|z fl] eqn:Hf; [done|].
    assert (z ∈ filter (λ z, z = y) l) as [-> Hz]%list_elem_of_filter
      by (rewrite Hf; left).
    done.
  - rewrite decide_False by (by intros ->). by apply IH.
Qed.

Lemma new_game_values size shuffle :
  rearranges shuffle → Nat.Even size →
  MemoriceGame.value_at (__init__ size shuffle)
    <$> MemoriceGame.all_positions (__init__ size shuffle)
  = Ok <$> shuffle (seqZ 1 (Z.of_nat (size * size) `div` 2)
                    ++ seqZ 1 (Z.of_nat (size * size) `div` 2)).
Proof.
  intros Hsh Hev.
  pose proof (length_shuffled size shuffle Hsh) as Hlen.
  rewrite (half_even _ Hev) in Hlen. apply Nat2Z.inj in Hlen.
  apply (list_eq_same_length _ _ (size * size)).
  { by rewrite length_fmap. }
  { by rewrite length_fmap, length_all_positions. }
  intros i x y Hi.
  assert (∃ r c, (r < size)%nat ∧ (c < size)%nat ∧ i = (r * size + c)%nat)
    as (r & c & Hr & Hc & ->).
  { assert (size ≠ 0)%nat as Hn by lia.
    pose proof (Nat.div_mod i size Hn).
    pose proof (Nat.mod_upper_bound i size Hn).
    exists (i `div` size)%nat, (i `mod` size)%nat.
    split; [apply Nat.Div0.div_lt_upper_bound; lia|]. split; lia. }
  pose proof (all_positions_lookup (__init__ size shuffle) r c Hr Hc) as Hl.
  intros (p & -> & Hp)%list_lookup_fmap_Some_1.
  pose proof (eq_trans (eq_sym Hp) Hl) as [= ->].
  rewrite new_game_value_at, list_lookup_fmap by done.
  destruct (shuffle _ !! _); simpl; congruence.
Qed.

Lemma new_game_wf size shuffle :
  rearranges shuffle → Nat.Even size → wf_game (__init__ size shuffle).
Proof.
  intros Hsh Hev.
  pose proof (length_shuffled size shuffle Hsh) as Hlen.
  rewrite (half_even _ Hev) in Hlen. apply Nat2Z.inj in Hlen.
  split; [done|]. split; [|split; [|split]].
  - intros [r c] [Hr Hc]%elem_of_all_positions. simpl in Hr, Hc.
    rewrite new_game_value_at by done.
    destruct (lookup_lt_is_Some_2
                (shuffle (seqZ 1 (Z.of_nat (size * size) `div` 2)
                          ++ seqZ 1 (Z.of_nat (size * size) `div` 2)))
                (r * size + c)%nat) as [v ->]; [nia|].
    by exists v.
  - by intros p ?%elem_of_empty.
  - constructor.
  - by intros p v ?%elem_of_nil.
Qed.

Lemma new_game_cards_on_board size shuffle :
  cards_on_board (__init__ size shuffle).
Proof. intros p v Hv. by apply new_game_value_at_on_board in Hv as [? _]. Qed.

(** X17.  A new game of even size is well formed: every position of the
    board holds a card, the cards lie on the board alone, every card has a
    value between 1 and [total_pairs], and each of those values is on
    exactly two cards; nothing is matched or remembered yet, and no move
    was made. *)
Theorem new_game_even size shuffle :
  rearranges shuffle → Nat.Even size →
  let game := __init__ size shuffle in
  wf_game game ∧ seen_unmatched game ∧
  MemoriceGame.matched game = ∅ ∧ MemoriceGame.seen game = [] ∧
  MemoriceGame.moves game = 0 ∧
  (∀ p v, MemoriceGame.value_at game p = Ok v →
          p ∈ MemoriceGame.all_positions game ∧
          1 ≤ v ≤ MemoriceGame.total_pairs game) ∧
  (∀ v, 1 ≤ v ≤ MemoriceGame.total_pairs game →
        length (cells_of game v) = 2%nat).
Proof.
  intros Hsh Hev game.
  pose proof (length_shuffled size shuffle Hsh) as Hlen.
  rewrite (half_even _ Hev) in Hlen. apply Nat2Z.inj in Hlen.
  split; [|split; [|do 3 (split; [done|]); split]].
  - by apply new_game_wf.
  - by intros p ?%elem_of_empty.
  - intros p v Hv. apply new_game_value_at_on_board in Hv as [Hp Hin].
    split; [done|]. rewrite (Hsh _) in Hin.
    assert (v ∈ seqZ 1 (Z.of_nat (size * size) `div` 2)) as Hin'
      by (by apply elem_of_app in Hin as [?|?]).
    apply elem_of_seqZ in Hin'. simpl. lia.
  - intros v Hv. simpl in Hv. unfold cells_of.
    rewrite (length_filter_fmap (MemoriceGame.value_at game)
               (λ x : result value, x = Ok v) _
               (H := λ y, decide (y = Ok v))) by done.
    unfold game. rewrite (new_game_values _ _ Hsh Hev).
    rewrite <-(length_filter_fmap Ok (λ x : result value, x = Ok v)
                 (λ y : value, y = v) (H := λ y, decide (y = Ok v))
                 (H0 := λ y, decide_rel (=) y v))
      by (intros y; simpl; split; [by intros ->|by intros [= ->]]).
    rewrite (Permutation_length (filter_Permutation _ _ _ (Hsh _))).
    rewrite filter_app, length_app.
    rewrite !length_filter_eq_NoDup; [done|apply NoDup_seqZ|];
      apply elem_of_seqZ; lia.
Qed.

Lemma new_game_even_witness :
  rearranges reverse ∧ Nat.Even 2 ∧
  length (cells_of (__init__ 2 reverse) 1) = 2%nat.
Proof.
  assert (Hsh : rearranges reverse) by (intros l; apply reverse_Permutation).
  assert (Hev : Nat.Even 2) by (exists 1%nat; reflexivity).
  split; [exact Hsh|]. split; [exact Hev|].
  apply (proj2 (proj2 (proj2 (proj2 (proj2 (proj2
           (new_game_even 2 reverse Hsh Hev))))))).
  change (1 ≤ 1 ≤ 2). lia.
Defined.

(** X18.  A new game of odd size lacks its last card: the values come in
    pairs, so the bottom right position, which [all_positions] lists, is
    outside the last row of the board and [value_at] raises [IndexError]
    there; every other position holds a card. *)
Theorem new_game_odd size shuffle :
  rearranges shuffle → Nat.Odd size →
  let game := __init__ size shuffle in
  last_cell game ∈ MemoriceGame.all_positions game ∧
  MemoriceGame.value_at game (last_cell game) = Raise IndexError ∧
  ∀ p, p ∈ MemoriceGame.all_positions game → p ≠ last_cell game →
       ∃ v, MemoriceGame.value_at game p = Ok v.
Proof.
  intros Hsh Hodd game.
  pose proof (length_shuffled size shuffle Hsh) as Hlen.
  pose proof (half_odd _ Hodd) as Hhalf.
  assert (0 < size)%nat as Hpos by (destruct Hodd as [m ->]; lia).
  unfold last_cell. change (MemoriceGame.size game) with size.
  split; [|split].
  - apply elem_of_all_positions. simpl. lia.
  - unfold game. rewrite new_game_value_at by lia.
    rewrite lookup_ge_None_2; [done|]. nia.
  - intros [r c] [Hr Hc]%elem_of_all_positions Hne. simpl in Hr, Hc.
    unfold game. rewrite new_game_value_at by done.
    destruct (lookup_lt_is_Some_2
                (shuffle (seqZ 1 (Z.of_nat (size * size) `div` 2)
                          ++ seqZ 1 (Z.of_nat (size * size) `div` 2)))
                (r * size + c)%nat) as [v ->]; [|by exists v].
    assert (r ≠ size - 1 ∨ c ≠ size - 1)%nat as Hrc.
    { destruct (decide (r = size - 1)%nat) as [->|]; [|by left].
      right. intros ->. by apply Hne. }
    nia.
Qed.

Lemma new_game_odd_witness :
  rearranges reverse ∧ Nat.Odd 3 ∧
  MemoriceGame.value_at (__init__ 3 reverse) (2, 2)%nat = Raise IndexError.
Proof.
  assert (Hsh : rearranges reverse) by (intros l; apply reverse_Permutation).
  assert (Hodd : Nat.Odd 3) by (exists 1%nat; reflexivity).
  split; [exact Hsh|]. split; [exact Hodd|].
  exact (proj1 (proj2 (new_game_odd 3 reverse Hsh Hodd))).
Defined.

(** X19.  A new game is finished from the start exactly when its size is 0
    or 1: there is then no pair to find, and the loop of [main] never asks
    for a move. *)
Theorem new_game_finished size shuffle :
  MemoriceGame.is_finished (__init__ size shuffle) = true ↔ (size ≤ 1)%nat.
Proof.
  unfold MemoriceGame.is_finished. rewrite bool_decide_eq_true.
  change (MemoriceGame.matched (__init__ size shuffle)) with (∅ : gset pos).
  change (MemoriceGame.total_pairs (__init__ size shuffle))
    with (Z.of_nat (size * size) `div` 2).
  rewrite size_empty. change (Z.of_nat 0 `div` 2) with 0.
  split.
  - intros Heq. symmetry in Heq. apply Z.div_small_iff in Heq; [|lia]. nia.
  - intros Hle. symmetry. apply Z.div_small. nia.
Qed.

(** ** The plan ends the game with its last action, not before *)

Lemma is_goal_key tp st : is_goal tp (state_to_key st) = is_goal tp st.
Proof. destruct st as [m sn]. unfold is_goal. simpl. by rewrite length_sorted. Qed.

Lemma relax_parents tp key g σ s :
  is_goal tp key = false → NoDup key.1 →
  search_parents tp σ → search_parents tp (relax tp key g σ s).
Proof.
  intros Hg Hnd Hσ. destruct s as [[a s'] c]. unfold relax.
  destruct (improves _ _); [|done].
  intros k pk a'. simpl.
  destruct (decide (state_to_key s' = k)) as [->|Hne].
  - rewrite lookup_insert_eq. by intros [= <- <-].
  - rewrite lookup_insert_ne by done. apply Hσ.
Qed.

Lemma relax_fold_parents tp key g succs σ :
  is_goal tp key = false → NoDup key.1 →
  search_parents tp σ → search_parents tp (fold_left (relax tp key g) succs σ).
Proof.
  intros Hg Hnd. revert σ. induction succs as [|s succs IH]; intros σ Hσ; [done|].
  simpl. apply IH. by apply relax_parents.
Qed.

Lemma astar_step_parents game k0 mx σ σ' :
  search_inv game k0 σ →
  search_parents (MemoriceGame.total_pairs game) σ →
  astar_step game mx σ = Continue σ' →
  search_parents (MemoriceGame.total_pairs game) σ'.
Proof.
  intros Hinv Hσ. unfold astar_step.
  destruct (heappop (frontier σ)) as [[node rest]|] eqn:Hpop; [|done].
  destruct (heappop_least _ _ _ Hpop) as [Hperm _].
  destruct (inv_frontier _ _ _ Hinv node) as (_ & Hnd & _).
  { rewrite Hperm. left. }
  destruct (is_goal _ _) eqn:Hgoal.
  { by destruct (reconstruct _ _ _ _). }
  case_bool_decide; [done|].
  destruct (successors_state _ _) as [succs| |]; [|done..].
  intros [= <-]. apply relax_fold_parents; [by rewrite is_goal_key| |done].
  destruct (Node.state node) as [m sn]. simpl in *. by apply NoDup_sorted.
Qed.

Lemma iterate_parents n game k0 mx σ σ' :
  search_inv game k0 σ →
  search_parents (MemoriceGame.total_pairs game) σ →
  iterate n game mx σ = Some σ' →
  search_parents (MemoriceGame.total_pairs game) σ'.
Proof.
  revert σ. induction n as [|n IH]; intros σ Hinv Hσ; simpl.
  { by intros [= <-]. }
  destruct (astar_step game mx σ) as [|σ1| |] eqn:Hstep; try done.
  apply IH; [by eapply astar_step_inv|by eapply astar_step_parents].
Qed.

Lemma astar_init_parents tp initial_state game :
  search_parents tp (astar_init initial_state game).
Proof.
  intros k pk a. simpl.
  destruct (decide (state_to_key initial_state = k)) as [->|Hne].
  - by rewrite lookup_singleton_eq.
  - by rewrite lookup_singleton_ne.
Qed.

(** The plan [astar_plan] returns, as a walk back along [came_from]. *)
Lemma astar_plan_chain game max_expansions plan :
  memory_consistent game →
  astar_plan (snapshot game) game max_expansions = Ok (Some plan) →
  ∃ σ k acts,
    search_inv game (state_to_key (snapshot game)) σ ∧
    search_parents (MemoriceGame.total_pairs game) σ ∧
    chain (came_from σ) k acts ∧ plan = reverse acts.
Proof.
  intros Hmem Hplan. destruct (snapshot_ok game Hmem) as (Hok & Hnd & Hm).
  unfold astar_plan in Hplan.
  apply astar_loop_iterate in Hplan as (n & σ & _ & Hit & Hstep).
  pose proof (astar_init_inv _ _ Hok Hnd) as Hinv0.
  pose proof (iterate_inv _ _ _ _ _ _ Hinv0 Hit) as Hinv.
  pose proof (iterate_parents _ _ _ _ _ _ Hinv0
                (astar_init_parents _ _ _) Hit) as Hpar.
  unfold astar_step in Hstep.
  destruct (heappop (frontier σ)) as [[node rest]|] eqn:Hpop; [|done].
  destruct (is_goal _ _) eqn:Hgoal;
    [|case_bool_decide; [done|]; by destruct (successors_state _ _)].
  destruct (reconstruct _ _ _ _) as [path| |] eqn:Hrec; [|done..].
  injection Hstep as ->.
  apply reconstruct_chain in Hrec as (acts & Hch & ->). rewrite app_nil_r.
  by exists σ, (state_to_key (Node.state node)), acts.
Qed.

Lemma chain_prefix_unfinished game k0 σ k acts live i :
  search_inv game k0 σ →
  search_parents (MemoriceGame.total_pairs game) σ →
  chain (came_from σ) k acts →
  MemoriceGame.board live = MemoriceGame.board game →
  MemoriceGame.total_pairs live = MemoriceGame.total_pairs game →
  MemoriceGame.matched live = list_to_set k0.1 →
  (i < length acts)%nat →
  ∃ mid, replay live (take i (reverse acts)) = Ok mid ∧
         MemoriceGame.is_finished mid = false.
Proof.
  intros Hinv Hpar Hch Hb Htp Hm. revert i.
  induction Hch as [k Hk|k pk a acts Hk Hch IH]; intros i Hi; simpl in Hi;
    [lia|].
  rewrite reverse_cons.
  destruct (decide (i < length acts)%nat) as [Hlt|Hge].
  - rewrite take_app_le by (rewrite length_reverse; lia). by apply IH.
  - rewrite take_app_ge by (rewrite length_reverse; lia).
    rewrite length_reverse. replace (i - length acts)%nat with 0%nat by lia.
    rewrite take_0, app_nil_r.
    destruct (chain_replay game k0 σ pk acts live Hinv Hch Hb Hm)
      as (mid & Hrep & Hmm & _ & Htpm).
    exists mid. split; [done|].
    destruct (Hpar _ _ _ Hk) as [Hgoal Hnd].
    unfold MemoriceGame.is_finished.
    rewrite Hmm, size_list_to_set, Htpm, Htp by done. exact Hgoal.
Qed.

(** X20.  The plan has no idle tail: when [astar_plan] returns a plan for
    the snapshot of a live game, the game is not finished after any proper
    prefix of the plan, so it ends with the last action and not before. *)
Theorem plan_no_early_finish game max_expansions plan i :
  memory_consistent game →
  astar_plan (snapshot game) game max_expansions = Ok (Some plan) →
  (i < length plan)%nat →
  ∃ mid, replay game (take i plan) = Ok mid ∧
         MemoriceGame.is_finished mid = false.
Proof.
  intros Hmem Hplan Hi.
  destruct (astar_plan_chain _ _ _ Hmem Hplan)
    as (σ & k & acts & Hinv & Hpar & Hch & ->).
  destruct (snapshot_ok game Hmem) as (_ & _ & Hm).
  rewrite length_reverse in Hi.
  apply (chain_prefix_unfinished game (state_to_key (snapshot game)) σ k acts
           game i); try done.
  by rewrite key_matched_set.
Qed.

Lemma plan_no_early_finish_witness :
  let plan := [(Turn, ((0, 0), (1, 1))%nat); (Turn, ((0, 1), (1, 0))%nat)] in
  memory_consistent (game22 board_a) ∧
  astar_plan (snapshot (game22 board_a)) (game22 board_a) 150000 = Ok (Some plan) ∧
  (1 < length plan)%nat ∧
  ∃ mid, replay (game22 board_a) (take 1 plan) = Ok mid ∧
         MemoriceGame.is_finished mid = false.
Proof.
  intros plan.
  assert (Hmem : memory_consistent (game22 board_a))
    by apply memory_consistent_empty.
  assert (Hplan : astar_plan (snapshot (game22 board_a)) (game22 board_a) 150000
                  = Ok (Some plan)) by (vm_compute; reflexivity).
  assert (Hi : (1 < length plan)%nat) by (simpl; lia).
  split; [exact Hmem|]. split; [exact Hplan|]. split; [exact Hi|].
  exact (plan_no_early_finish (game22 board_a) 150000 plan 1 Hmem Hplan Hi).
Defined.

(** ** The loop of [main] *)

Lemma draw_board_total game reveal_preview :
  board_complete game → ∃ faces, draw_board game reveal_preview = Ok faces.
Proof.
  intros Hb. unfold draw_board. apply mapM_total. intros p Hp.
  destruct (Hb p Hp) as [v Hv]. rewrite Hv. simpl.
  destruct (decide _); [by eexists|]. destruct (decide _); by eexists.
Qed.

Lemma all_positions_size game1 game2 :
  MemoriceGame.size game1 = MemoriceGame.size game2 →
  MemoriceGame.all_positions game1 = MemoriceGame.all_positions game2.
Proof. intros Hs. unfold MemoriceGame.all_positions. by rewrite Hs. Qed.

Lemma apply_turn_total game p1 p2 v1 v2 :
  MemoriceGame.value_at game p1 = Ok v1 →
  MemoriceGame.value_at game p2 = Ok v2 →
  ∃ game' b, MemoriceGame.apply_turn game p1 p2 = Ok (game', b).
Proof.
  intros H1 H2. unfold MemoriceGame.apply_turn. rewrite H1, H2. simpl.
  destruct (decide _); by eexists _, _.
Qed.

Lemma apply_turn_defined game p1 p2 r :
  MemoriceGame.apply_turn game p1 p2 = Ok r →
  ∃ v1 v2, MemoriceGame.value_at game p1 = Ok v1 ∧
           MemoriceGame.value_at game p2 = Ok v2.
Proof.
  unfold MemoriceGame.apply_turn.
  destruct (MemoriceGame.value_at game p1) as [v1| |]; simpl; try done.
  destruct (MemoriceGame.value_at game p2) as [v2| |]; simpl; try done.
  by exists v1, v2.
Qed.

Lemma replay_defined game plan final :
  replay game plan = Ok final →
  ∀ a, a ∈ plan →
       ∃ v1 v2, MemoriceGame.value_at game a.2.1 = Ok v1 ∧
                MemoriceGame.value_at game a.2.2 = Ok v2.
Proof.
  revert game. induction plan as [|[k [p1 p2]] plan IH]; intros game; simpl.
  { by intros _ a ?%elem_of_nil. }
  destruct (MemoriceGame.apply_turn game p1 p2) as [[game1 b]| |] eqn:Hturn;
    simpl; try done.
  intros Hrep a [->|Hin]%elem_of_cons.
  - by apply apply_turn_defined in Hturn.
  - destruct (apply_turn_frame _ _ _ _ _ Hturn) as (_ & _ & Hb & _).
    rewrite <-!(value_at_board game1 game) by done. by apply (IH game1).
Qed.

Lemma greedy_policy_on_board game r1 r2 :
  wf_game game → MemoriceGame.is_finished game = false →
  ∃ a, greedy_policy game r1 r2 = Ok a ∧ action_on_board game a.
Proof.
  intros Hwf Hfin. pose proof (unfinished_unmatched _ Hwf Hfin) as Hun.
  destruct Hwf as (Htp & Hboard & Hsub & Hnd & Hseen).
  unfold greedy_policy.
  destruct (first_known_pair _) as [[p1 p2]|] eqn:Hfirst.
  { apply first_known_pair_Some in Hfirst as (val & rest & Hin).
    destruct (seen_pairs_spec game Hnd) as [_ Hsp].
    destruct (Hsp _ Hin) as (_ & _ & Hall). simpl in *.
    destruct (Hall p1) as [Hs1 _]; [left|].
    destruct (Hall p2) as [Hs2 _]; [right; left|].
    eexists. split; [done|].
    split; [by apply (Hseen _ _ Hs1)|by apply (Hseen _ _ Hs2)]. }
  set (unmatched := filter (λ p, MemoriceGame.is_matched game p = false)
                           (MemoriceGame.all_positions game)).
  assert (Hunm : ∀ p, p ∈ unmatched → p ∈ MemoriceGame.all_positions game).
  { intros p. unfold unmatched. rewrite list_elem_of_filter. tauto. }
  assert (Heq : unmatched = MemoriceGame.unmatched_positions game).
  { unfold unmatched, MemoriceGame.unmatched_positions.
    apply list_filter_iff. intros p. unfold MemoriceGame.is_matched.
    by rewrite bool_decide_eq_false. }
  set (unseen := match filter _ unmatched with [] => unmatched | _ => _ end).
  assert (Hunseen : unseen ≠ [] ∧ ∀ p, p ∈ unseen → p ∈ unmatched).
  { unfold unseen.
    destruct (filter _ unmatched) as [|x l] eqn:Hf.
    - split; [by rewrite Heq|done].
    - split; [done|]. intros p Hp. rewrite <-Hf in Hp.
      by apply list_elem_of_filter in Hp as [_ ?]. }
  destruct Hunseen as [Hne Hunseen].
  destruct (choice_Ok r1 unseen Hne) as (p1 & -> & Hp1). simpl.
  apply Hunseen, Hunm in Hp1.
  destruct (Hboard p1 Hp1) as [v1 ->]. simpl.
  destruct (find _ (MemoriceGame.seen game)) as [[p v]|] eqn:Hfind.
  { apply find_some in Hfind as [Hin _]. apply list_elem_of_In in Hin.
    eexists. split; [done|]. split; [done|]. by apply (Hseen _ _ Hin). }
  destruct (filter (λ p, p ≠ p1) unmatched) as [|q rem] eqn:Hrem.
  - eexists. by split.
  - destruct (choice_Ok r2 (q :: rem)) as (p2 & -> & Hp2); [done|]. simpl.
    rewrite <-Hrem in Hp2. apply list_elem_of_filter in Hp2 as [_ Hp2].
    eexists. split; [done|]. split; [done|]. by apply Hunm.
Qed.

Lemma wf_game_board game : wf_game game → board_complete game.
Proof. by intros (_ & Hb & _). Qed.

Lemma plan_cycle_inv game r1 r2 :
  wf_game game → cards_on_board game →
  MemoriceGame.is_finished game = false →
  ∃ a rest, plan_cycle game r1 r2 = Ok (a :: rest) ∧
            Forall (action_on_board game) (a :: rest).
Proof.
  intros Hwf Hcards Hfin. pose proof (wf_game_memory _ Hwf) as Hmem.
  pose proof (wf_game_board _ Hwf) as Hboard.
  unfold plan_cycle.
  destruct (astar_plan_total game 150000 Hboard Hmem) as [[plan|] Hr];
    rewrite Hr; simpl.
  - destruct (plan_replay_finished _ _ _ Hmem Hr) as (final & Hrep & Hgoal).
    destruct plan as [|a rest].
    { injection Hrep as <-. unfold MemoriceGame.is_finished in Hfin.
      by apply bool_decide_eq_false_1 in Hfin. }
    exists a, rest. split; [done|]. apply Forall_forall. intros a' Hin.
    destruct (replay_defined _ _ _ Hrep a' Hin) as (v1 & v2 & H1 & H2).
    split; by eapply Hcards.
  - destruct (greedy_policy_on_board game r1 r2 Hwf Hfin) as (a & -> & Ha).
    simpl. exists a, []. split; [done|]. by constructor.
Qed.

Lemma main_turn_inv game planned_actions r1 r2 :
  main_inv game planned_actions →
  MemoriceGame.is_finished game = false →
  ∃ game' planned',
    main_turn game planned_actions r1 r2 = Ok (game', planned') ∧
    main_inv game' planned' ∧
    MemoriceGame.size game' = MemoriceGame.size game ∧
    MemoriceGame.moves game' = MemoriceGame.moves game + 1 ∧
    (base.size (MemoriceGame.matched game')
     ≤ base.size (MemoriceGame.matched game) + 2)%nat.
Proof.
  intros (Hwf & Hcards & Hpl) Hfin.
  pose proof (wf_game_board _ Hwf) as Hboard.
  assert (∃ a rest,
            match planned_actions with
            | [] => plan_cycle game r1 r2
            | _ :: _ => Ok planned_actions
            end = Ok (a :: rest) ∧
            Forall (action_on_board game) (a :: rest))
    as (a & rest & Hphase & Hall).
  { destruct planned_actions as [|a rest]; [by apply plan_cycle_inv|].
    by exists a, rest. }
  unfold main_turn. rewrite Hphase. simpl.
  apply Forall_cons in Hall as [[Hp1 Hp2] Hrest].
  destruct a as [k [p1 p2]]. simpl in Hp1, Hp2.
  destruct (draw_board_total game {[p1]} Hboard) as [f1 ->]. simpl.
  destruct (draw_board_total game ({[p1]} ∪ {[p2]}) Hboard) as [f2 ->]. simpl.
  destruct (Hboard p1 Hp1) as [v1 Hv1]. destruct (Hboard p2 Hp2) as [v2 Hv2].
  destruct (apply_turn_total game p1 p2 v1 v2 Hv1 Hv2) as (game' & b & Hturn).
  rewrite Hturn. simpl.
  pose proof (apply_turn_wf_game _ _ _ _ _ Hwf Hp1 Hp2 Hturn) as Hwf'.
  destruct (apply_turn_frame _ _ _ _ _ Hturn) as (Hsz & _ & Hb & _).
  destruct (apply_turn_step _ _ _ _ _ Hturn) as (Hmv & _ & Hms).
  destruct (draw_board_total game' ({[p1]} ∪ {[p2]})) as [f3 ->];
    [by apply wf_game_board|]. simpl.
  exists game', rest. split; [done|]. split; [|done].
  split; [done|]. split.
  - intros p v Hv. rewrite (all_positions_size game' game) by done.
    apply (Hcards p v). by rewrite <-(value_at_board game' game).
  - eapply Forall_impl; [exact Hrest|]. intros a. unfold action_on_board.
    by rewrite (all_positions_size game' game).
Qed.

Lemma main_loop_inv fuel game planned_actions events draws :
  main_inv game planned_actions →
  (main_loop fuel game planned_actions events draws = Diverged ∧
   ∀ i, (i < fuel)%nat → events i = false) ∨
  ∃ final,
    main_loop fuel game planned_actions events draws = Ok final ∧
    (MemoriceGame.is_finished final = true ∨
     ∃ i, (i < fuel)%nat ∧ events i = true) ∧
    wf_game final ∧
    MemoriceGame.size final = MemoriceGame.size game ∧
    (MemoriceGame.is_finished game = false →
     MemoriceGame.moves game + 1 ≤ MemoriceGame.moves final) ∧
    MemoriceGame.moves game ≤ MemoriceGame.moves final
      ≤ MemoriceGame.moves game + Z.of_nat fuel ∧
    Z.of_nat (base.size (MemoriceGame.matched final))
      ≤ Z.of_nat (base.size (MemoriceGame.matched game))
        + 2 * (MemoriceGame.moves final - MemoriceGame.moves game).
Proof.
  revert game planned_actions events draws.
  induction fuel as [|fuel IH]; intros game planned_actions events draws Hinv;
    pose proof Hinv as (Hwf & _ & _).
  { left. split; [done|]. intros i Hi. lia. }
  simpl. destruct (MemoriceGame.is_finished game) eqn:Hfin.
  { right. destruct (draw_board_total game ∅) as [f ->];
      [by apply wf_game_board|].
    simpl. exists game. split; [done|]. split; [by left|]. split; [done|].
    split; [done|]. split; [done|]. lia. }
  destruct (main_turn_inv game planned_actions (draws O).1 (draws O).2
              Hinv Hfin) as (game' & planned' & -> & Hinv' & Hsz & Hmv & Hms).
  simpl. pose proof Hinv' as (Hwf' & _ & _).
  destruct (events O) eqn:Hev; simpl.
  { right. exists game'. split; [done|].
    split; [right; exists O; split; [lia|done]|].
    split; [done|]. split; [done|]. split; [lia|]. lia. }
  destruct (IH game' planned' (λ i, events (S i)) (λ i, draws (S i)) Hinv')
    as [[-> Hno]|(final & -> & Hend & Hwff & Hszf & _ & Hmoves & Hsize)].
  - left. split; [done|]. intros [|i] Hi; [done|]. apply Hno. lia.
  - right. exists final. split; [done|]. split.
    { destruct Hend as [?|(i & Hi & He)]; [by left|].
      right. exists (S i). split; [lia|done]. }
    split; [done|]. split; [congruence|]. split; lia.
Qed.

(** X21.  The loop of [main] cannot fail: from a well-formed game whose
    cards lie on the board, with any list of pending actions on the board,
    no pass raises an exception, whatever the random draws and the events
    of the window.  The loop ends only in a pass that finds the game
    finished or in a pass that read a QUIT event, and runs on until then;
    it makes at most one move per pass, each of which matches at most two
    positions. *)
Theorem main_loop_safe fuel game planned_actions events draws :
  wf_game game → cards_on_board game →
  Forall (action_on_board game) planned_actions →
  (main_loop fuel game planned_actions events draws = Diverged ∧
   ∀ i, (i < fuel)%nat → events i = false) ∨
  ∃ final,
    main_loop fuel game planned_actions events draws = Ok final ∧
    (MemoriceGame.is_finished final = true ∨
     ∃ i, (i < fuel)%nat ∧ events i = true) ∧
    MemoriceGame.moves game ≤ MemoriceGame.moves final
      ≤ MemoriceGame.moves game + Z.of_nat fuel ∧
    Z.of_nat (base.size (MemoriceGame.matched final))
      ≤ Z.of_nat (base.size (MemoriceGame.matched game))
        + 2 * (MemoriceGame.moves final - MemoriceGame.moves game).
Proof.
  intros Hwf Hcards Hpl.
  destruct (main_loop_inv fuel game planned_actions events draws)
    as [?|(final & ? & ? & _ & _ & _ & ? & ?)]; [done|by left|].
  right. by exists final.
Qed.

Lemma board_complete_turn game p1 p2 game1 b :
  board_complete game →
  MemoriceGame.apply_turn game p1 p2 = Ok (game1, b) →
  board_complete game1.
Proof.
  intros Hboard Hturn.
  destruct (apply_turn_frame _ _ _ _ _ Hturn) as (Hsz & _ & Hb & _).
  intros p Hp. rewrite (all_positions_size game1 game) in Hp by done.
  rewrite (value_at_board game1 game) by done. by apply Hboard.
Qed.

(** A pass that has a pending action plays it, and the loop goes on
    unless the pass read a QUIT event. *)
Lemma main_loop_pass fuel game k p1 p2 rest events draws game1 b :
  board_complete game →
  MemoriceGame.is_finished game = false →
  MemoriceGame.apply_turn game p1 p2 = Ok (game1, b) →
  main_loop (S fuel) game ((k, (p1, p2)) :: rest) events draws
  = if events O then Ok game1
    else main_loop fuel game1 rest (λ i, events (S i)) (λ i, draws (S i)).
Proof.
  intros Hboard Hnot Hturn.
  pose proof (board_complete_turn _ _ _ _ _ Hboard Hturn) as Hboard1.
  simpl. rewrite Hnot. unfold main_turn. simpl.
  destruct (draw_board_total game {[p1]} Hboard) as [f1 ->]. simpl.
  destruct (draw_board_total game ({[p1]} ∪ {[p2]}) Hboard) as [f2 ->].
  simpl. rewrite Hturn. simpl.
  destruct (draw_board_total game1 ({[p1]} ∪ {[p2]}) Hboard1) as [f3 ->].
  simpl. by destruct (events O).
Qed.

Lemma loop_replay plan :
  ∀ game fuel events draws final,
    board_complete game →
    replay game plan = Ok final →
    MemoriceGame.is_finished final = true →
    (∀ i, (i < length plan)%nat →
          ∃ mid, replay game (take i plan) = Ok mid ∧
                 MemoriceGame.is_finished mid = false) →
    (∀ i, (S i < length plan)%nat → events i = false) →
    (length plan < fuel)%nat →
    main_loop fuel game plan events draws = Ok final.
Proof.
  induction plan as [|[k [p1 p2]] plan IH];
    intros game fuel events draws final Hboard Hrep Hfin Hpre Hev Hfuel.
  - injection Hrep as <-.
    destruct (draw_board_total game ∅ Hboard) as [f Hf].
    destruct fuel as [|fuel]; [simpl in Hfuel; lia|].
    simpl. by rewrite Hfin, Hf.
  - destruct (Hpre 0%nat) as (mid & [= <-] & Hnot); [simpl; lia|].
    destruct fuel as [|fuel]; [simpl in Hfuel; lia|].
    simpl in Hrep.
    destruct (MemoriceGame.apply_turn game p1 p2) as [[game1 b]| |] eqn:Hturn;
      simpl in Hrep; try done.
    rewrite (main_loop_pass _ _ _ _ _ _ _ _ _ _ Hboard Hnot Hturn).
    destruct (events O) eqn:Hev0.
    + destruct plan as [|a plan].
      * by injection Hrep as <-.
      * rewrite Hev in Hev0; [done|simpl; lia].
    + apply IH; try done.
      * by eapply board_complete_turn.
      * intros i Hi. destruct (Hpre (S i)) as (mid & Hmid & Hnf); [simpl; lia|].
        simpl in Hmid. rewrite Hturn in Hmid. simpl in Hmid. by exists mid.
      * intros i Hi. apply (Hev (S i)). simpl. lia.
      * simpl in Hfuel. lia.
Qed.

Lemma loop_replay_quit plan :
  ∀ game fuel events draws q final,
    board_complete game →
    replay game plan = Ok final →
    (∀ i, (i < length plan)%nat →
          ∃ mid, replay game (take i plan) = Ok mid ∧
                 MemoriceGame.is_finished mid = false) →
    (∀ i, (i < q)%nat → events i = false) → events q = true →
    (q < length plan)%nat → (q < fuel)%nat →
    ∃ mid, main_loop fuel game plan events draws = Ok mid ∧
           replay game (take (S q) plan) = Ok mid.
Proof.
  induction plan as [|[k [p1 p2]] plan IH];
    intros game fuel events draws q final Hboard Hrep Hpre Hbefore Hq Hlen Hfuel;
    [simpl in Hlen; lia|].
  destruct (Hpre 0%nat) as (mid & [= <-] & Hnot); [simpl; lia|].
  destruct fuel as [|fuel]; [lia|].
  simpl in Hrep.
  destruct (MemoriceGame.apply_turn game p1 p2) as [[game1 b]| |] eqn:Hturn;
    simpl in Hrep; try done.
  rewrite (main_loop_pass _ _ _ _ _ _ _ _ _ _ Hboard Hnot Hturn).
  destruct q as [|q].
  - rewrite Hq. exists game1. split; [done|]. simpl. by rewrite Hturn.
  - rewrite (Hbefore O) by lia.
    destruct (IH game1 fuel (λ i, events (S i)) (λ i, draws (S i)) q final)
      as (mid & Hloop & Hmid); try done.
    + by eapply board_complete_turn.
    + intros i Hi. destruct (Hpre (S i)) as (mid & Hmid & Hnf); [simpl; lia|].
      simpl in Hmid. rewrite Hturn in Hmid. simpl in Hmid. by exists mid.
    + intros i Hi. apply Hbefore. lia.
    + simpl in Hlen. lia.
    + lia.
    + exists mid. split; [done|].
      change (take (S (S q)) ((k, (p1, p2)) :: plan))
        with ((k, (p1, p2)) :: take (S q) plan).
      simpl. by rewrite Hturn.
Qed.

Lemma main_loop_planned fuel game a rest events draws :
  plan_cycle game (draws O).1 (draws O).2 = Ok (a :: rest) →
  main_loop fuel game [] events draws
  = main_loop fuel game (a :: rest) events draws.
Proof.
  intros Hp. destruct fuel as [|fuel]; simpl; [done|].
  destruct (MemoriceGame.is_finished game); [done|].
  unfold main_turn. by rewrite Hp.
Qed.

(** X22.  When the planner finds a plan, the loop of [main] plays it: from
    an empty list of pending actions it asks [astar_plan] once and plays the
    plan action by action without planning again.  If no QUIT event
    arrives before the pass of the last action, the loop ends with the game
    finished, after exactly one move per action of the plan.  If the first
    QUIT event arrives in pass [q], before the pass of the last action, the
    loop ends after that pass, with only the first [q + 1] actions played
    and the game not finished. *)
Theorem main_loop_plays_plan game plan fuel events draws :
  board_complete game → memory_consistent game →
  astar_plan (snapshot game) game 150000 = Ok (Some plan) →
  ((∀ i, (S i < length plan)%nat → events i = false) →
   (length plan < fuel)%nat →
   ∃ final,
     main_loop fuel game [] events draws = Ok final ∧
     replay game plan = Ok final ∧
     MemoriceGame.is_finished final = true ∧
     MemoriceGame.moves final
       = MemoriceGame.moves game + Z.of_nat (length plan)) ∧
  (∀ q, (∀ i, (i < q)%nat → events i = false) → events q = true →
        (S q < length plan)%nat → (q < fuel)%nat →
        ∃ mid,
          main_loop fuel game [] events draws = Ok mid ∧
          replay game (take (S q) plan) = Ok mid ∧
          MemoriceGame.is_finished mid = false ∧
          MemoriceGame.moves mid = MemoriceGame.moves game + Z.of_nat (S q)).
Proof.
  intros Hboard Hmem Hplan.
  destruct (plan_replay_finished _ _ _ Hmem Hplan) as (final & Hrep & Hgoal).
  destruct (replay_frame _ _ _ Hrep) as (Hmv & _ & _ & _ & Htp).
  assert (Hfin : MemoriceGame.is_finished final = true).
  { unfold MemoriceGame.is_finished. apply bool_decide_eq_true_2. congruence. }
  assert (Hpre : ∀ i, (i < length plan)%nat →
            ∃ mid, replay game (take i plan) = Ok mid ∧
                   MemoriceGame.is_finished mid = false).
  { intros i Hi.
    destruct (astar_plan_chain _ _ _ Hmem Hplan)
      as (σ & k & acts & Hinv & Hpar & Hch & ->).
    destruct (snapshot_ok game Hmem) as (_ & _ & Hm).
    rewrite length_reverse in Hi.
    apply (chain_prefix_unfinished game (state_to_key (snapshot game)) σ k
             acts game i); try done.
    by rewrite key_matched_set. }
  assert (Hcycle : ∀ r1 r2, plan_cycle game r1 r2 = Ok plan).
  { intros r1 r2. unfold plan_cycle. by rewrite Hplan. }
  split.
  - intros Hev Hfuel. exists final. split; [|done].
    destruct plan as [|a rest]; [by apply (loop_replay [])|].
    rewrite (main_loop_planned _ _ a rest) by apply Hcycle.
    by apply loop_replay.
  - intros q Hbefore Hq Hlen Hfuel.
    destruct plan as [|a rest]; [simpl in Hlen; lia|].
    rewrite (main_loop_planned _ _ a rest) by apply Hcycle.
    destruct (loop_replay_quit (a :: rest) game fuel events draws q final)
      as (mid & Hloop & Hmid); try done; [lia|].
    exists mid. split; [done|]. split; [done|].
    destruct (Hpre (S q) Hlen) as (mid' & Hmid' & Hnf).
    rewrite Hmid in Hmid'. injection Hmid' as <-. split; [done|].
    destruct (replay_frame _ _ _ Hmid) as (Hmvq & _).
    rewrite Hmvq, length_take. f_equal. lia.
Qed.

Lemma game22_wf : wf_game (game22 board_a) ∧ cards_on_board (game22 board_a).
Proof.
  split.
  - split; [reflexivity|]. split; [|split; [|split]].
    + intros [r c] [Hr Hc]%elem_of_all_positions. simpl in Hr, Hc.
      destruct r as [|[|r]], c as [|[|c]]; try lia; by eexists.
    + by intros p ?%elem_of_empty.
    + constructor.
    + by intros p v ?%elem_of_nil.
  - intros [r c] v Hv. apply elem_of_all_positions. simpl.
    destruct r as [|[|r]], c as [|[|c]]; try discriminate Hv; lia.
Qed.

Lemma main_loop_safe_witness :
  let events := λ _ : nat, false in
  let draws := λ _ : nat, (0, 0)%nat in
  wf_game (game22 board_a) ∧ cards_on_board (game22 board_a) ∧
  Forall (action_on_board (game22 board_a)) [] ∧
  ∃ final,
    main_loop 3 (game22 board_a) [] events draws = Ok final ∧
    MemoriceGame.is_finished final = true ∧
    MemoriceGame.moves final ≤ 3.
Proof.
  intros events draws.
  assert (Hrun : ∃ final,
            main_loop 3 (game22 board_a) [] events draws = Ok final)
    by (vm_compute; eexists; reflexivity).
  split; [exact (proj1 game22_wf)|]. split; [exact (proj2 game22_wf)|].
  split; [constructor|].
  destruct (main_loop_safe 3 (game22 board_a) [] events draws (proj1 game22_wf)
              (proj2 game22_wf) (Forall_nil_2 _))
    as [[Hd _]|(final & Hloop & Hend & Hmoves & _)].
  - destruct Hrun as [final Hrun]. rewrite Hrun in Hd. discriminate Hd.
  - exists final. split; [exact Hloop|].
    destruct Hend as [Hf|(i & _ & Hi)]; [|discriminate Hi].
    split; [exact Hf|]. simpl in Hmoves. lia.
Defined.

Lemma main_loop_plays_plan_witness :
  let plan := [(Turn, ((0, 0), (1, 1))%nat); (Turn, ((0, 1), (1, 0))%nat)] in
  let draws := λ _ : nat, (0, 0)%nat in
  board_complete (game22 board_a) ∧ memory_consistent (game22 board_a) ∧
  astar_plan (snapshot (game22 board_a)) (game22 board_a) 150000 = Ok (Some plan) ∧
  (∃ final,
     main_loop 3 (game22 board_a) [] (λ _, false) draws = Ok final ∧
     replay (game22 board_a) plan = Ok final ∧
     MemoriceGame.is_finished final = true ∧
     MemoriceGame.moves final
       = MemoriceGame.moves (game22 board_a) + Z.of_nat (length plan)) ∧
  (∃ mid,
     main_loop 1 (game22 board_a) [] (λ _, true) draws = Ok mid ∧
     replay (game22 board_a) (take 1 plan) = Ok mid ∧
     MemoriceGame.is_finished mid = false ∧
     MemoriceGame.moves mid = MemoriceGame.moves (game22 board_a) + Z.of_nat 1).
Proof.
  intros plan draws.
  assert (Hb : board_complete (game22 board_a))
    by exact (wf_game_board _ (proj1 game22_wf)).
  assert (Hmem : memory_consistent (game22 board_a))
    by apply memory_consistent_empty.
  assert (Hplan : astar_plan (snapshot (game22 board_a)) (game22 board_a) 150000
                  = Ok (Some plan)) by (vm_compute; reflexivity).
  split; [exact Hb|]. split; [exact Hmem|]. split; [exact Hplan|]. split.
  - apply (proj1 (main_loop_plays_plan (game22 board_a) plan 3 (λ _, false)
                    draws Hb Hmem Hplan)); [done|simpl; lia].
  - apply (proj2 (main_loop_plays_plan (game22 board_a) plan 1 (λ _, true)
                    draws Hb Hmem Hplan) 0%nat);
      [intros i Hi; lia|reflexivity|simpl; lia|lia].
Defined.

Lemma finished_all_matched game :
  wf_game game → MemoriceGame.is_finished game = true →
  Nat.Even (MemoriceGame.size game) →
  base.size (MemoriceGame.matched game)
  = (MemoriceGame.size game * MemoriceGame.size game)%nat.
Proof.
  intros (Htp & _ & Hsub & _) Hfin Hev.
  unfold MemoriceGame.is_finished in Hfin. apply bool_decide_eq_true_1 in Hfin.
  rewrite Htp in Hfin. pose proof (half_even _ Hev) as Hhalf.
  pose proof (matched_positions_count game Hsub) as Hcount.
  pose proof (length_filter (λ p, p ∈ MemoriceGame.matched game)
                (MemoriceGame.all_positions game)) as Hle.
  rewrite Hcount, length_all_positions in Hle.
  pose proof (Z.div_mod (Z.of_nat (base.size (MemoriceGame.matched game))) 2).
  pose proof (Z.mod_pos_bound
                (Z.of_nat (base.size (MemoriceGame.matched game))) 2).
  lia.
Qed.

(** X23.  [main] on a new board of 6 by 6: whatever the shuffle, the
    random draws and the events of the window, no pass of the loop raises
    an exception, and the loop runs on until a pass finds the game finished
    or reads a QUIT event.  When it ends at least one move was made, at
    most one per pass; it ends with the game finished, all 36 positions
    matched after at least 18 moves, or else unfinished in a pass that read
    a QUIT event. *)
Theorem main_safe shuffle events draws fuel :
  rearranges shuffle →
  (main shuffle events draws fuel = Diverged ∧
   ∀ i, (i < fuel)%nat → events i = false) ∨
  ∃ final,
    main shuffle events draws fuel = Ok final ∧
    1 ≤ MemoriceGame.moves final ≤ Z.of_nat fuel ∧
    (MemoriceGame.is_finished final = true ∧
     base.size (MemoriceGame.matched final) = 36%nat ∧
     18 ≤ MemoriceGame.moves final
     ∨
     MemoriceGame.is_finished final = false ∧
     ∃ i, (i < fuel)%nat ∧ events i = true).
Proof.
  intros Hsh. unfold main.
  assert (Hev : Nat.Even BOARD_SIZE) by (exists 3%nat; reflexivity).
  assert (Hinv : main_inv (__init__ BOARD_SIZE shuffle) []).
  { split; [by apply new_game_wf|].
    split; [apply new_game_cards_on_board|constructor]. }
  assert (Hnew : MemoriceGame.is_finished (__init__ BOARD_SIZE shuffle) = false)
    by (by vm_compute).
  destruct (main_loop_inv fuel _ [] events draws Hinv)
    as [?|(final & Hloop & Hend & Hwf & Hsz & Hstep & Hmv & Hms)]; [by left|].
  right. exists final. split; [done|]. specialize (Hstep Hnew).
  change (MemoriceGame.size (__init__ BOARD_SIZE shuffle)) with 6%nat in Hsz.
  change (MemoriceGame.moves (__init__ BOARD_SIZE shuffle))
    with 0 in Hmv, Hms, Hstep.
  change (MemoriceGame.matched (__init__ BOARD_SIZE shuffle))
    with (∅ : gset pos) in Hms.
  rewrite size_empty in Hms. split; [lia|].
  destruct (MemoriceGame.is_finished final) eqn:Hfin.
  - left. split; [done|].
    pose proof (finished_all_matched final Hwf Hfin) as Hall.
    rewrite Hsz in Hall. specialize (Hall Hev). split; [done|]. lia.
  - right. split; [done|]. by destruct Hend.
Qed.

Lemma main_safe_witness :
  let events := λ _ : nat, true in
  let draws := λ _ : nat, (0, 0)%nat in
  rearranges reverse ∧
  ∃ final,
    main reverse events draws 1 = Ok final ∧
    MemoriceGame.moves final = 1 ∧
    MemoriceGame.is_finished final = false.
Proof.
  intros events draws.
  assert (Hsh : rearranges reverse) by (intros l; apply reverse_Permutation).
  split; [exact Hsh|].
  destruct (main_safe reverse events draws 1 Hsh)
    as [[_ Hno]|(final & Hmain & Hmoves & Hend)].
  - discriminate (Hno 0%nat (Nat.lt_0_succ 0)).
  - exists final. split; [exact Hmain|]. split; [simpl in Hmoves; lia|].
    destruct Hend as [(_ & _ & H18)|[Hnf _]]; [simpl in Hmoves; lia|exact Hnf].
Defined.

(** X24.  The planner always returns: on the snapshot of a live game whose
    board has a card at every position and whose memory is right,
    [astar_plan] ends with a plan or with [None]; it raises no exception,
    and the walk back along [came_from] that builds the plan ends. *)
Theorem astar_plan_returns game max_expansions :
  board_complete game → memory_consistent game →
  astar_plan (snapshot game) game max_expansions = Ok None ∨
  ∃ plan, astar_plan (snapshot game) game max_expansions = Ok (Some plan).
Proof.
  intros Hboard Hmem.
  destruct (astar_plan_total game max_expansions Hboard Hmem) as [[plan|] Hr].
  - right. by exists plan.
  - by left.
Qed.

Lemma astar_plan_returns_witness :
  board_complete (game22 board_a) ∧ memory_consistent (game22 board_a) ∧
  (astar_plan (snapshot (game22 board_a)) (game22 board_a) 1 = Ok None ∨
   ∃ plan,
     astar_plan (snapshot (game22 board_a)) (game22 board_a) 1 = Ok (Some plan)).
Proof.
  assert (Hb : board_complete (game22 board_a))
    by exact (wf_game_board _ (proj1 game22_wf)).
  assert (Hm : memory_consistent (game22 board_a))
    by apply memory_consistent_empty.
  split; [exact Hb|]. split; [exact Hm|].
  exact (astar_plan_returns (game22 board_a) 1 Hb Hm).
Defined.

(** ** The plan is a shortest one *)

Lemma relax_best game p key g σ a s' c :
  state_to_key s' = s' →
  search_best game p σ →
  search_best game p (relax (MemoriceGame.total_pairs game) key g σ (a, s', c)).
Proof.
  intros Hcan [Hfr Hgs]. unfold relax. rewrite Hcan.
  destruct (improves (g + c) (gscore σ !! s')) eqn:Himp; [|done].
  split; simpl.
  - intros x [Hx| ->%list_elem_of_singleton]%elem_of_app; [by apply Hfr|].
    by split.
  - intros k g0. destruct (decide (s' = k)) as [<-|Hne].
    + rewrite lookup_insert_eq. intros [= <-]. left.
      eexists. split; [apply elem_of_app; right; left|done].
    + rewrite lookup_insert_ne by done. intros Hk.
      destruct (Hgs k g0 Hk) as [(x & Hx & Hst & Hg)|[[Hgoal Hcl]|Hp]].
      * left. exists x. split; [apply elem_of_app; by left|done].
      * right; left. split; [done|]. intros succs a0 s0 c0 Hs Hin.
        destruct (Hcl _ _ _ _ Hs Hin) as (g' & Hg' & Hle). simpl.
        destruct (decide (s' = s0)) as [<-|Hne'].
        -- rewrite lookup_insert_eq. exists (g + c). split; [done|].
           rewrite Hg' in Himp. simpl in Himp.
           apply bool_decide_eq_true_1 in Himp. lia.
        -- rewrite lookup_insert_ne by done. by exists g'.
      * by right; right.
Qed.

Lemma relax_fold_best game p key g succs σ :
  (∀ a s' c, (a, s', c) ∈ succs → state_to_key s' = s') →
  search_best game p σ →
  search_best game p
    (fold_left (relax (MemoriceGame.total_pairs game) key g) succs σ).
Proof.
  revert σ. induction succs as [|[[a s'] c] succs IH]; intros σ Hcan Hσ; [done|].
  simpl. apply IH; [intros ????; eapply Hcan; by right|].
  apply relax_best; [|done]. eapply Hcan. left.
Qed.

Lemma relax_gscore_mono tp key g σ s k g0 :
  gscore σ !! k = Some g0 →
  ∃ g1, gscore (relax tp key g σ s) !! k = Some g1 ∧ g1 ≤ g0.
Proof.
  intros Hk. destruct s as [[a s'] c]. unfold relax.
  destruct (improves _ _) eqn:Himp; [|exists g0; split; [done|lia]]. simpl.
  destruct (decide (state_to_key s' = k)) as [<-|Hne].
  - rewrite lookup_insert_eq. eexists. split; [done|].
    rewrite Hk in Himp. simpl in Himp. apply bool_decide_eq_true_1 in Himp. lia.
  - rewrite lookup_insert_ne by done. exists g0. split; [done|lia].
Qed.

Lemma relax_fold_gscore_mono tp key g succs σ k g0 :
  gscore σ !! k = Some g0 →
  ∃ g1, gscore (fold_left (relax tp key g) succs σ) !! k = Some g1 ∧ g1 ≤ g0.
Proof.
  revert σ g0. induction succs as [|s succs IH]; intros σ g0 Hk; simpl.
  { exists g0. split; [done|lia]. }
  destruct (relax_gscore_mono tp key g σ s k g0 Hk) as (g1 & Hg1 & Hle1).
  destruct (IH _ _ Hg1) as (g2 & Hg2 & Hle2). exists g2. split; [done|lia].
Qed.

Lemma relax_gscore_le tp key g σ a s' c :
  ∃ g1, gscore (relax tp key g σ (a, s', c)) !! state_to_key s' = Some g1 ∧
        g1 ≤ g + c.
Proof.
  unfold relax. destruct (gscore σ !! state_to_key s') as [g0|] eqn:Hk; simpl.
  - case_bool_decide; simpl.
    + rewrite lookup_insert_eq. eexists. split; [done|lia].
    + exists g0. split; [done|lia].
  - rewrite lookup_insert_eq. eexists. split; [done|lia].
Qed.

Lemma relax_fold_gscore_le tp key g succs σ a s' c :
  (a, s', c) ∈ succs →
  ∃ g1, gscore (fold_left (relax tp key g) succs σ) !! state_to_key s'
          = Some g1 ∧ g1 ≤ g + c.
Proof.
  revert σ. induction succs as [|s succs IH]; intros σ; [by intros ?%elem_of_nil|].
  intros [<-|Hin]%elem_of_cons; simpl; [|by apply IH].
  destruct (relax_gscore_le tp key g σ a s' c) as (g1 & Hg1 & Hle1).
  destruct (relax_fold_gscore_mono tp key g succs _ _ _ Hg1)
    as (g2 & Hg2 & Hle2).
  exists g2. split; [done|lia].
Qed.

Lemma successor_canonical st game succs a s' c :
  successors_state st game = Ok succs → (a, s', c) ∈ succs →
  state_to_key s' = s' ∧ c = 1.
Proof.
  destruct st as [matched seen]. intros Hs Hin.
  destruct (successor_frozen _ _ _ _ _ Hs Hin) as (M & new_seen & Heq & _).
  destruct (successor_matched_bound _ _ _ _ _ _ _ Hs Hin) as [_ ->].
  simpl in Heq. rewrite Heq. split; [apply state_to_key_freeze|done].
Qed.

Lemma astar_step_best game mx σ σ' :
  search_best game None σ →
  astar_step game mx σ = Continue σ' →
  search_best game None σ'.
Proof.
  intros [Hfr Hgs]. unfold astar_step.
  destruct (heappop (frontier σ)) as [[node rest]|] eqn:Hpop; [|done].
  destruct (heappop_least _ _ _ Hpop) as [Hperm _].
  destruct (Hfr node) as [Hcan _]; [rewrite Hperm; left|].
  rewrite Hcan.
  destruct (is_goal _ _) eqn:Hgoal.
  { by destruct (reconstruct _ _ _ _). }
  case_bool_decide; [done|].
  destruct (successors_state _ _) as [succs| |] eqn:Hsucc; [|done..].
  intros [= <-].
  set (σ0 := mk_search rest (came_from σ) (gscore σ) (expansions σ + 1)).
  assert (Hmid : search_best game (Some (Node.state node, Node.g node)) σ0).
  { split; simpl.
    - intros x Hx. apply Hfr. rewrite Hperm. by right.
    - intros k g Hk.
      destruct (Hgs k g Hk) as [(x & Hx & Hst & Hg)|[Hcl|Hp]]; [|by right; left|done].
      rewrite Hperm in Hx. apply elem_of_cons in Hx as [->|Hx].
      + right; right. by rewrite Hst, Hg.
      + left. by exists x. }
  pose proof (relax_fold_best game _ (Node.state node) (Node.g node) succs σ0
                (λ a s' c Hin, proj1 (successor_canonical _ _ _ _ _ _ Hsucc Hin))
                Hmid) as [Hfr' Hgs'].
  split; [done|]. intros k g Hk.
  destruct (Hgs' k g Hk) as [?|[?|[= <- <-]]]; [by left|by right; left|].
  right; left. split; [done|]. intros succs' a s' c Hs' Hin.
  rewrite Hsucc in Hs'. injection Hs' as <-.
  destruct (successor_canonical _ _ _ _ _ _ Hsucc Hin) as [Hc ->].
  destruct (relax_fold_gscore_le (MemoriceGame.total_pairs game)
              (Node.state node) (Node.g node) succs σ0 a s' 1 Hin)
    as (g1 & Hg1 & Hle).
  rewrite Hc in Hg1. by exists g1.
Qed.

Lemma iterate_best n game mx σ σ' :
  search_best game None σ → iterate n game mx σ = Some σ' →
  search_best game None σ'.
Proof.
  revert σ. induction n as [|n IH]; intros σ Hb; simpl.
  { by intros [= <-]. }
  destruct (astar_step game mx σ) as [|σ1| |] eqn:Hstep; try done.
  apply IH. by eapply astar_step_best.
Qed.

Lemma astar_init_best game initial_state :
  state_to_key initial_state = initial_state →
  search_best game None (astar_init initial_state game).
Proof.
  intros Hcan. split; simpl.
  - intros x ->%list_elem_of_singleton. split; [done|].
    unfold f_is_g_plus_h. simpl. lia.
  - intros k g. rewrite Hcan.
    destruct (decide (initial_state = k)) as [<-|Hne].
    + rewrite lookup_singleton_eq. intros [= <-]. left.
      eexists. split; [left|done].
    + by rewrite lookup_singleton_ne.
Qed.

Lemma heuristic_goal tp goal :
  is_goal tp goal = true → heuristic_state goal tp = 0.
Proof.
  destruct goal as [m sn]. unfold is_goal, heuristic_state. simpl.
  intros Hg%bool_decide_eq_true_1. lia.
Qed.

Lemma heuristic_path_bound game tp s n goal :
  path game s n goal → is_goal tp goal = true →
  heuristic_state s tp ≤ Z.of_nat n.
Proof.
  intros Hpath Hgoal.
  induction Hpath as [st|st succs a s1 c n s' Hsucc Hin _ IH].
  - rewrite heuristic_goal by done. lia.
  - specialize (IH Hgoal).
    pose proof (successor_matched_pairs _ _ _ _ _ _ Hsucc Hin) as Hle.
    destruct st as [m sn], s1 as [m1 sn1].
    unfold heuristic_state, matched_pairs in *. simpl in *. lia.
Qed.

Lemma frontier_bound game σ s n goal g :
  search_best game None σ →
  path game s n goal →
  is_goal (MemoriceGame.total_pairs game) goal = true →
  gscore σ !! s = Some g →
  ∃ x, x ∈ frontier σ ∧ Node.f x ≤ g + Z.of_nat n.
Proof.
  intros [Hfr Hgs] Hpath Hgoal. revert g.
  induction Hpath as [st|st succs a s1 c n s' Hsucc Hin Hpath IH]; intros g Hg.
  - destruct (Hgs st g Hg) as [(x & Hx & Hst & Hgx)|[[Hng _]|?]]; [| |done].
    + exists x. split; [done|]. destruct (Hfr x Hx) as [_ Hf].
      unfold f_is_g_plus_h in Hf. rewrite Hf, Hst, Hgx, heuristic_goal by done.
      lia.
    + congruence.
  - destruct (Hgs st g Hg) as [(x & Hx & Hst & Hgx)|[[_ Hcl]|?]]; [| |done].
    + exists x. split; [done|]. destruct (Hfr x Hx) as [_ Hf].
      unfold f_is_g_plus_h in Hf. rewrite Hf, Hst, Hgx.
      pose proof (heuristic_path_bound game _ st (S n) s'
                    (path_step _ _ _ _ _ _ _ _ Hsucc Hin Hpath) Hgoal).
      lia.
    + destruct (Hcl _ _ _ _ Hsucc Hin) as (g' & Hg' & Hle).
      destruct (IH Hgoal g' Hg') as (x & Hx & Hf). exists x. split; [done|lia].
Qed.

Lemma chain_length game k0 σ k acts :
  search_inv game k0 σ → search_ranked σ →
  chain (came_from σ) k acts →
  ∃ g, gscore σ !! k = Some g ∧ Z.of_nat (length acts) ≤ g.
Proof.
  intros Hinv Hrk Hch. induction Hch as [k Hk|k pk a acts Hk _ IH].
  - apply (inv_only_root _ _ _ Hinv) in Hk as ->.
    destruct (inv_root _ _ _ Hinv) as [_ Hg]. exists 0. split; [done|simpl; lia].
  - destruct IH as (g & Hg & Hle).
    destruct (rk_link _ Hrk _ _ _ Hk) as (gk & gp & Hgk & Hgp & Hlt & _).
    exists gk. split; [done|]. rewrite Hgp in Hg. injection Hg as ->.
    simpl. lia.
Qed.

(** X25.  The plan is a shortest one: when [astar_plan] returns a plan for
    the snapshot of a live game, no sequence of generated transitions leads
    from the snapshot to a goal state in fewer steps than the plan has
    actions. *)
Theorem astar_plan_optimal game max_expansions plan n goal :
  memory_consistent game →
  astar_plan (snapshot game) game max_expansions = Ok (Some plan) →
  path game (snapshot game) n goal →
  is_goal (MemoriceGame.total_pairs game) goal = true →
  (length plan ≤ n)%nat.
Proof.
  intros Hmem Hplan Hpath Hgoal.
  destruct (snapshot_ok game Hmem) as (Hok & Hnd & _).
  assert (Hcan : state_to_key (snapshot game) = snapshot game).
  { change (snapshot game)
      with (freeze (MemoriceGame.matched game) (MemoriceGame.seen_pairs game)).
    apply state_to_key_freeze. }
  unfold astar_plan in Hplan.
  apply astar_loop_iterate in Hplan as (i & σ & _ & Hit & Hstep).
  pose proof (iterate_inv _ _ _ _ _ _ (astar_init_inv _ _ Hok Hnd) Hit) as Hinv.
  pose proof (iterate_ranked _ _ _ _ _ (astar_init_ranked _ _) Hit) as Hrk.
  pose proof (iterate_best _ _ _ _ _ (astar_init_best game _ Hcan) Hit) as Hbest.
  destruct (inv_root _ _ _ Hinv) as [_ Hg0]. rewrite Hcan in Hg0.
  destruct (frontier_bound game σ _ n goal 0 Hbest Hpath Hgoal Hg0)
    as (x & Hx & Hfx).
  unfold astar_step in Hstep.
  destruct (heappop (frontier σ)) as [[node rest]|] eqn:Hpop; [|done].
  destruct (heappop_least _ _ _ Hpop) as [Hperm Hleast].
  destruct (is_goal _ (Node.state node)) eqn:Hng;
    [|case_bool_decide; [done|]; by destruct (successors_state _ _)].
  destruct (reconstruct _ _ _ _) as [acts'| |] eqn:Hrec; [|done..].
  injection Hstep as ->.
  apply reconstruct_chain in Hrec as (acts & Hch & ->). rewrite app_nil_r.
  rewrite length_reverse.
  destruct (chain_length _ _ _ _ _ Hinv Hrk Hch) as (g & Hg & Hlen).
  assert (Hnode : node ∈ frontier σ) by (rewrite Hperm; left).
  destruct (rk_frontier _ Hrk node Hnode) as (g0 & Hg0' & Hle & _).
  rewrite Hg in Hg0'. injection Hg0' as <-.
  destruct Hbest as [Hfr _]. destruct (Hfr node Hnode) as [_ Hf].
  unfold f_is_g_plus_h in Hf. rewrite (heuristic_goal _ _ Hng) in Hf.
  assert (Node.f node ≤ Node.f x).
  { rewrite Hperm in Hx. apply elem_of_cons in Hx as [->|Hx]; [lia|].
    by apply node_le_fields, Hleast. }
  lia.
Qed.

Lemma astar_plan_optimal_witness :
  let plan := [(Turn, ((0, 0), (1, 1))%nat); (Turn, ((0, 1), (1, 0))%nat)] in
  let goal : SearchState := ([(0, 0); (0, 1); (1, 0); (1, 1)]%nat, []) in
  memory_consistent (game22 board_a) ∧
  astar_plan (snapshot (game22 board_a)) (game22 board_a) 150000 = Ok (Some plan) ∧
  path (game22 board_a) (snapshot (game22 board_a)) 2 goal ∧
  is_goal (MemoriceGame.total_pairs (game22 board_a)) goal = true ∧
  (length plan ≤ 2)%nat.
Proof.
  intros plan goal.
  assert (Hmem : memory_consistent (game22 board_a))
    by apply memory_consistent_empty.
  assert (Hplan : astar_plan (snapshot (game22 board_a)) (game22 board_a) 150000
                  = Ok (Some plan)) by (vm_compute; reflexivity).
  assert (Hp : path (game22 board_a) (snapshot (game22 board_a)) 2 goal).
  { eapply (path_step _ _ _ (Turn, ((0, 0), (1, 1)))%nat
              ([(0, 0); (1, 1)]%nat, []) 1).
    - vm_compute. reflexivity.
    - do 2 right. left.
    - eapply (path_step _ _ _ (Turn, ((0, 1), (1, 0)))%nat goal 1).
      + vm_compute. reflexivity.
      + left.
      + apply path_here. }
  assert (Hg : is_goal (MemoriceGame.total_pairs (game22 board_a)) goal = true)
    by reflexivity.
  split; [exact Hmem|]. split; [exact Hplan|]. split; [exact Hp|].
  split; [exact Hg|].
  exact (astar_plan_optimal (game22 board_a) 150000 plan 2 goal Hmem Hplan Hp Hg).
Defined.

(** ** The memory after a turn without a pair *)

(** X26.  A turn of two unmatched cards that do not form a pair, among
    them the turn of one card twice, returns [False], leaves the matched set
    as it is and remembers both cards: the memory then maps each of the two
    positions to its value, and every other position as before. *)
Theorem apply_turn_remembers game p1 p2 v1 v2 :
  MemoriceGame.value_at game p1 = Ok v1 →
  MemoriceGame.value_at game p2 = Ok v2 →
  p1 ∉ MemoriceGame.matched game → p2 ∉ MemoriceGame.matched game →
  ¬ (v1 = v2 ∧ p1 ≠ p2) →
  ∃ game',
    MemoriceGame.apply_turn game p1 p2 = Ok (game', false) ∧
    MemoriceGame.matched game' = MemoriceGame.matched game ∧
    dict_get (MemoriceGame.seen game') p1 = Some v1 ∧
    dict_get (MemoriceGame.seen game') p2 = Some v2 ∧
    ∀ q, q ≠ p1 → q ≠ p2 →
         dict_get (MemoriceGame.seen game') q
         = dict_get (MemoriceGame.seen game) q.
Proof.
  intros Hv1 Hv2 Hm1 Hm2 Hno. unfold MemoriceGame.apply_turn.
  rewrite Hv1, Hv2. simpl.
  rewrite !(decide_True (P := _ ∉ _)) by done.
  rewrite (decide_False (P := _ ∧ _)) by done.
  eexists. split; [done|]. simpl. split; [done|].
  rewrite !dict_set_get. split; [|split].
  - destruct (decide (p2 = p1)) as [->|Hne].
    + rewrite Hv1 in Hv2. by injection Hv2 as ->.
    + by rewrite decide_True.
  - by rewrite decide_True.
  - intros q Hq1 Hq2. rewrite !dict_set_get.
    by rewrite !decide_False by done.
Qed.

Lemma apply_turn_remembers_witness :
  ∃ game',
    MemoriceGame.apply_turn (game22 board_a) (0, 0)%nat (0, 1)%nat
      = Ok (game', false) ∧
    dict_get (MemoriceGame.seen game') (0, 0)%nat = Some 1 ∧
    dict_get (MemoriceGame.seen game') (0, 1)%nat = Some 2.
Proof.
  assert (Hv1 : MemoriceGame.value_at (game22 board_a) (0, 0)%nat = Ok 1)
    by reflexivity.
  assert (Hv2 : MemoriceGame.value_at (game22 board_a) (0, 1)%nat = Ok 2)
    by reflexivity.
  assert (Hm1 : (0, 0)%nat ∉ MemoriceGame.matched (game22 board_a))
    by apply not_elem_of_empty.
  assert (Hm2 : (0, 1)%nat ∉ MemoriceGame.matched (game22 board_a))
    by apply not_elem_of_empty.
  assert (Hno : ¬ (1 = 2 ∧ (0, 0)%nat ≠ (0, 1)%nat)) by (intros [? _]; lia).
  destruct (apply_turn_remembers (game22 board_a) _ _ _ _ Hv1 Hv2 Hm1 Hm2 Hno)
    as (game' & Hturn & _ & Hs1 & Hs2 & _).
  exists game'. split; [exact Hturn|]. split; [exact Hs1|exact Hs2].
Defined.
